(** * SectorFlux: the store, the telemetry extractor and the proxy engine

    A shallow embedding of [database.cpp], [proxy.cpp], [config.hpp] and
    the chat route of [main.cpp].

    Conventions.
    - C++ [int] and [long long] values are [Z]; a narrowing conversion
      ([static_cast<int>], [sqlite3_column_int]) is written [to_int].
    - [std::string] is [string]; text handed to SQLite through
      [c_str()] with length [-1] is read up to its first NUL byte, which
      [c_str] makes explicit.
    - The SQL engine is outside the repository.  Its tables are a list
      of rows and a finite map; the outcome of each [sqlite3_prepare_v2]
      and [sqlite3_step] of a call is an input ([Engine]).
    - A finite [double] is the rational it denotes ([Q]); every
      operation that yields a double rounds its exact result to the
      nearest double, ties to even ([round_double]). *)

From Stdlib Require Import ZArith QArith Qround Qabs Qpower Lqa Ascii String.
From Equations Require Import Equations.
From stdpp Require Import gmap strings list sorting pretty.

Local Open Scope string_scope.
Local Open Scope list_scope.
Local Open Scope Z_scope.

(** ** Machine integers *)

(** Conversion of a 64-bit value to a 32-bit [int] (two's complement). *)
Definition to_int (z : Z) : Z := (z + 2 ^ 31) mod 2 ^ 32 - 2 ^ 31.

(** ** Doubles

    IEEE 754 binary64 in round-to-nearest-even, with gradual underflow
    below [2^-1022]; results of magnitude [2^1024] and more, which would
    be infinite, do not occur among quotients of 64-bit integers. *)

(** The exponent of the binade of a positive rational: the [k] with
    [2^k <= q < 2^(k+1)]. *)
Definition ilog2 (q : Q) : Z :=
  let l := Z.log2 (Qnum q) - Z.log2 (Z.pos (Qden q)) in
  if Qle_bool (2 ^ l) q then l else l - 1.

(** Rounding to the nearest integer, ties to even. *)
Definition round_half_even (q : Q) : Z :=
  let t := Qfloor q in
  match (q - inject_Z t ?= 1 # 2)%Q with
  | Lt => t
  | Gt => t + 1
  | Eq => if Z.even t then t else t + 1
  end.

(** A positive rational rounded to 53 significant bits, or to a
    multiple of [2^-1074] where that is coarser. *)
Definition round_mantissa (q : Q) : Q :=
  let e := Z.max (ilog2 q - 52) (- 1074) in
  (inject_Z (round_half_even (q * 2 ^ (- e))) * 2 ^ e)%Q.

Definition round_double (q : Q) : Q :=
  match (q ?= 0)%Q with
  | Eq => 0%Q
  | Gt => round_mantissa q
  | Lt => (- round_mantissa (- q))%Q
  end.

(** [static_cast<double>] of an integer, and [/] on doubles. *)
Definition double_of_int (z : Z) : Q := round_double (inject_Z z).
Definition fdiv (x y : Q) : Q := round_double (x / y).

(** ** C strings *)

(** What a reader of the NUL-terminated buffer [s.c_str()] sees. *)
Fixpoint c_str (s : string) : string :=
  match s with
  | EmptyString => EmptyString
  | String c s' => if Ascii.eqb c zero then EmptyString else String c (c_str s')
  end.

(** [s] holds no NUL byte. *)
Fixpoint nul_free (s : string) : bool :=
  match s with
  | EmptyString => true
  | String c s' => negb (Ascii.eqb c zero) && nul_free s'
  end.

(** String literals that contain double quotes are written with single
    quotes and passed through [js]. *)
Fixpoint js (s : string) : string :=
  match s with
  | EmptyString => EmptyString
  | String c s' => String (if Ascii.eqb c "'"%char then "034"%char else c) (js s')
  end.

(** ** config.hpp *)

Module Config.
Definition kDefaultPort : Z := 8888.
Definition kDefaultTimeout : Z := 60.
Definition kMaxHistoryEntries : Z := 100.
End Config.

(** ** database.hpp, database.cpp *)

Module Store.

(** One row of [requests], and the value [getLogs] and [getLog] return. *)
Record LogEntry := {
  id : Z;
  timestamp : string;
  method : string;
  endpoint : string;
  model : string;
  request_body : string;
  response_status : Z;
  response_body : string;
  duration_ms : Z;
  prompt_tokens : Z;
  completion_tokens : Z;
  prompt_eval_duration_ms : Z;
  eval_duration_ms : Z;
  ttft_ms : Z;
  is_starred : bool
}.

Record Metrics := {
  total_requests : Z;
  avg_latency_ms : Q;
  cache_hit_rate : Q
}.

(** The arguments of [logInteractionAsync], captured by value in the
    queued task. *)
Inductive Interaction :=
  LogTask (method endpoint model request_body : string)
          (response_status : Z) (response_body : string)
          (duration_ms prompt_tokens completion_tokens
           prompt_eval_duration_ms eval_duration_ms ttft_ms : Z).

Definition task_status (t : Interaction) : Z :=
  let 'LogTask _ _ _ _ s _ _ _ _ _ _ _ := t in s.
Definition task_response_body (t : Interaction) : string :=
  let 'LogTask _ _ _ _ _ b _ _ _ _ _ _ := t in b.
Definition task_duration_ms (t : Interaction) : Z :=
  let 'LogTask _ _ _ _ _ _ d _ _ _ _ _ := t in d.
Definition task_ttft_ms (t : Interaction) : Z :=
  let 'LogTask _ _ _ _ _ _ _ _ _ _ _ f := t in f.

(** The two tables of the database file.  [sqlite_sequence] is the
    largest row id AUTOINCREMENT has handed out. *)
Record sqlite3 := {
  requests : list LogEntry;
  sqlite_sequence : Z;
  cache : gmap string (Z * string)
}.

(** What the engine answers during one call: whether the n-th statement
    of the call prepares and steps (statements are numbered from 0 in
    program order), the text of [sqlite3_errmsg], and CURRENT_TIMESTAMP. *)
Record Engine := {
  prepare_ok : nat → bool;
  step_ok : nat → bool;
  errmsg : string;
  current_timestamp : string
}.

Definition reliable (ts : string) : Engine :=
  {| prepare_ok := λ _, true; step_ok := λ _, true;
     errmsg := "not an error"; current_timestamp := ts |}.

(** [db_] is the handle ([None] before [init]); [write_queue_] holds the
    tasks not yet run by the writer, oldest first. *)
Record Database := {
  db_ : option sqlite3;
  write_queue_ : list Interaction
}.

Definition with_db (d : Database) (tb : sqlite3) : Database :=
  {| db_ := Some tb; write_queue_ := write_queue_ d |}.

(** The tables right after [init] on a fresh file. *)
Definition empty_tables : sqlite3 :=
  {| requests := []; sqlite_sequence := 0; cache := ∅ |}.

Definition kMaxHistoryEntries : Z := 100.

(** *** SQL statements *)

(** Descending order on ids, for ORDER BY id DESC. *)
Definition desc (a b : Z) : Prop := b ≤ a.

#[global] Instance desc_dec a b : Decision (desc a b).
Proof. unfold desc. apply _. Defined.

(** LIMIT n: a negative bound means no bound. *)
Definition limit {A} (n : Z) (l : list A) : list A :=
  if decide (n < 0) then l else take (Z.to_nat n) l.

(** SELECT id FROM requests ORDER BY id DESC LIMIT n *)
Definition select_newest_ids (n : Z) (rows : list LogEntry) : list Z :=
  limit n (merge_sort desc (id <$> rows)).

(** DELETE FROM requests WHERE id NOT IN
      (SELECT id FROM requests ORDER BY id DESC LIMIT n) *)
Definition delete_older (n : Z) (tb : sqlite3) : sqlite3 :=
  {| requests := filter (λ r, id r ∈ select_newest_ids n (requests tb)) (requests tb);
     sqlite_sequence := sqlite_sequence tb;
     cache := cache tb |}.

(** The row id AUTOINCREMENT assigns: above the largest id in the table
    and above every id handed out before. *)
Definition next_id (tb : sqlite3) : Z :=
  1 + foldr Z.max (sqlite_sequence tb) (id <$> requests tb).

(** INSERT INTO requests (method, ..., ttft_ms) VALUES (?, ..., ?) *)
Definition insert_request (env : Engine) (t : Interaction) (tb : sqlite3) : sqlite3 :=
  let 'LogTask m e mo rq st rs d pt ct ped ed tf := t in
  let row := {| id := next_id tb;
                timestamp := current_timestamp env;
                method := c_str m; endpoint := c_str e; model := c_str mo;
                request_body := c_str rq;
                response_status := st;
                response_body := c_str rs;
                duration_ms := d;
                prompt_tokens := pt; completion_tokens := ct;
                prompt_eval_duration_ms := ped; eval_duration_ms := ed;
                ttft_ms := tf;
                is_starred := false |} in
  {| requests := requests tb ++ [row];
     sqlite_sequence := next_id tb;
     cache := cache tb |}.

(** INSERT OR REPLACE INTO cache VALUES (?, ?, ?) *)
Definition replace_cache (k : string) (s : Z) (b : string) (tb : sqlite3) : sqlite3 :=
  {| requests := requests tb;
     sqlite_sequence := sqlite_sequence tb;
     cache := <[c_str k := (s, c_str b)]> (cache tb) |}.

(** A row as the [sqlite3_column_*] calls of [getLogs] and [getLog]
    read it. *)
Definition read_row (r : LogEntry) : LogEntry :=
  {| id := to_int (id r);
     timestamp := c_str (timestamp r);
     method := c_str (method r); endpoint := c_str (endpoint r);
     model := c_str (model r);
     request_body := c_str (request_body r);
     response_status := to_int (response_status r);
     response_body := c_str (response_body r);
     duration_ms := duration_ms r;
     prompt_tokens := to_int (prompt_tokens r);
     completion_tokens := to_int (completion_tokens r);
     prompt_eval_duration_ms := prompt_eval_duration_ms r;
     eval_duration_ms := eval_duration_ms r;
     ttft_ms := ttft_ms r;
     is_starred := is_starred r |}.

(** *** Database::logInteractionAsync, processWriteQueue *)

Definition logInteractionAsync (t : Interaction) (d : Database) : Database :=
  {| db_ := db_ d; write_queue_ := write_queue_ d ++ [t] |}.

(** *** Database::logInteractionSync *)

Definition logInteractionSync (env : Engine) (t : Interaction) (d : Database)
  : option string * Database :=
  match db_ d with
  | None => (Some "Database not initialized", d)
  | Some tb =>
    if negb (prepare_ok env 0) then
      (Some ("Failed to prepare statement: " +:+ errmsg env), d)
    else if negb (step_ok env 0) then
      (Some ("Execution failed: " +:+ errmsg env), d)
    else
      let tb1 := insert_request env t tb in
      (* Enforce History Limit (Keep last kMaxHistoryEntries) *)
      let tb2 :=
        if prepare_ok env 1 then
          if step_ok env 1 then delete_older kMaxHistoryEntries tb1
          else tb1
        else tb1 in
      (None, with_db d tb2)
  end.

(** One round of the writer: take the oldest task and run it outside
    the lock; the error, if any, goes to stderr. *)
Definition processWriteQueue (env : Engine) (d : Database) : Database :=
  match write_queue_ d with
  | [] => d
  | t :: q =>
    snd (logInteractionSync env t {| db_ := db_ d; write_queue_ := q |})
  end.

(** *** Database::getLogs, getLog *)

Definition by_id_desc (a b : LogEntry) : Prop := id b ≤ id a.

#[global] Instance by_id_desc_dec a b : Decision (by_id_desc a b).
Proof. unfold by_id_desc. apply _. Defined.

(** [getLogs(int limit)] and [getLog(int id)]: the arguments [lim] and
    [i] are values of an [int]; a row whose id lies beyond that range is
    one no call of [getLog] can name. *)
Definition getLogs (env : Engine) (lim : Z) (d : Database) : option (list LogEntry) :=
  match db_ d with
  | None => None
  | Some tb =>
    if negb (prepare_ok env 0) then None
    else
      Some (if step_ok env 0
            then read_row <$> limit lim (merge_sort by_id_desc (requests tb))
            else [])
  end.

Definition getLog (env : Engine) (i : Z) (d : Database) : option LogEntry :=
  match db_ d with
  | None => None
  | Some tb =>
    if negb (prepare_ok env 0) then None
    else if step_ok env 0
    then read_row <$> (snd <$> list_find (λ r, id r = i) (requests tb))
    else None
  end.

(** *** Database::getCachedResponse, cacheResponse *)

Definition getCachedResponse (env : Engine) (request_body : string) (d : Database)
  : option (Z * string) :=
  match db_ d with
  | None => None
  | Some tb =>
    if negb (prepare_ok env 0) then None
    else if step_ok env 0
    then (λ e, (to_int e.1, c_str e.2)) <$> cache tb !! c_str request_body
    else None
  end.

Definition cacheResponse (env : Engine) (request_body : string) (response_status : Z)
    (response_body : string) (d : Database) : option string * Database :=
  match db_ d with
  | None => (Some "Database not initialized", d)
  | Some tb =>
    if negb (prepare_ok env 0) then (Some (errmsg env), d)
    else if negb (step_ok env 0) then (Some (errmsg env), d)
    else (None, with_db d (replace_cache request_body response_status response_body tb))
  end.

(** *** Database::setStarred *)

Definition set_starred (r : LogEntry) (b : bool) : LogEntry :=
  {| id := id r; timestamp := timestamp r; method := method r;
     endpoint := endpoint r; model := model r; request_body := request_body r;
     response_status := response_status r; response_body := response_body r;
     duration_ms := duration_ms r; prompt_tokens := prompt_tokens r;
     completion_tokens := completion_tokens r;
     prompt_eval_duration_ms := prompt_eval_duration_ms r;
     eval_duration_ms := eval_duration_ms r; ttft_ms := ttft_ms r;
     is_starred := b |}.

(** UPDATE requests SET is_starred = ? WHERE id = ?, for [setStarred(int
    id, bool is_starred)]: [i] is a value of an [int]. *)
Definition setStarred (env : Engine) (i : Z) (is_starred : bool) (d : Database)
  : option string * Database :=
  match db_ d with
  | None => (Some "Database not initialized", d)
  | Some tb =>
    if negb (prepare_ok env 0) then
      (Some ("Failed to prepare statement: " +:+ errmsg env), d)
    else if negb (step_ok env 0) then
      (Some ("Execution failed: " +:+ errmsg env), d)
    else
      (None,
       with_db d
         {| requests :=
              (λ r, if decide (id r = i) then set_starred r is_starred else r)
                <$> requests tb;
            sqlite_sequence := sqlite_sequence tb;
            cache := cache tb |})
  end.

(** *** Database::getMetrics *)

Definition sum_list (l : list Z) : Z := foldr Z.add 0 l.

(** AVG(x) on integers: NULL on no rows, else the integer sum and the
    count, each converted to double, divided as doubles. *)
Definition sql_avg (l : list Z) : option Q :=
  match l with
  | [] => None
  | _ => Some (fdiv (double_of_int (sum_list l))
                    (double_of_int (Z.of_nat (length l))))
  end.

(** [sqlite3_column_double]: NULL reads as 0.0. *)
Definition column_double (v : option Q) : Q := default 0%Q v.

Definition getMetrics (env : Engine) (d : Database) : Metrics :=
  match db_ d with
  | None => {| total_requests := 0; avg_latency_ms := 0; cache_hit_rate := 0 |}
  | Some tb =>
    let rows := requests tb in
    (* SELECT COUNT( * ) FROM requests *)
    let total :=
      if prepare_ok env 0 && step_ok env 0
      then to_int (Z.of_nat (length rows)) else 0 in
    (* SELECT AVG(duration_ms) FROM requests *)
    let avg :=
      if prepare_ok env 1 && step_ok env 1
      then column_double (sql_avg (duration_ms <$> rows)) else 0%Q in
    (* SELECT COUNT( * ) FROM requests WHERE duration_ms = 0 *)
    let rate :=
      if prepare_ok env 2 && step_ok env 2 then
        let hits := to_int (Z.of_nat (length (filter (λ r, duration_ms r = 0) rows))) in
        if 0 <? total then fdiv (double_of_int hits) (double_of_int total) else 0%Q
      else 0%Q in
    {| total_requests := total; avg_latency_ms := avg; cache_hit_rate := rate |}
  end.

End Store.

(** ** The libraries the proxy is written against *)

(** crow::json as [proxy.cpp] uses it.  [load] is [None] when the
    returned rvalue is falsy; an accessor is [None] when it throws
    ([i()] on a value that is no number, [b()] on one that is no
    boolean, [s()] on one that is no string). *)
Class Json (rvalue : Type) := {
  load : string → option rvalue;
  has : rvalue → string → bool;
  get_i : rvalue → string → option Z;
  get_b : rvalue → string → option bool;
  get_s : rvalue → string → option string;
  (** [dump()] of the wvalue built from [model], [json["messages"]] and
      [stream = true]. *)
  dump_chat : string → rvalue → string
}.

(** httplib::Error (the alternatives a POST can end in). *)
Inductive Error :=
  | Unknown | Connection | BindIPAddress | Read | Write
  | ExceedRedirectCount | Canceled | ConnectionTimeout.

(** One chunk handed to the content receiver: the reading of
    [steady_clock] (in nanoseconds) at that moment, the bytes, and the
    value of the session's [active] flag at that moment (chat only). *)
Record Chunk := {
  arrival : Z;
  data : string;
  active_on_arrival : bool
}.

(** What the upstream daemon does with one POST: the chunks it delivers,
    then a status, or an error. *)
Record Upstream := {
  chunks : list Chunk;
  outcome : Error + Z
}.

(** httplib::Client::send with a content receiver: chunks are handed
    over in order; a receiver that returns false cancels the request. *)
Fixpoint deliver {S} (receiver : S → Chunk → S * bool) (st : S) (cs : list Chunk)
  : S * bool :=
  match cs with
  | [] => (st, true)
  | c :: cs' =>
    let '(st', go) := receiver st c in
    if go then deliver receiver st' cs' else (st', false)
  end.

Definition send {S} (receiver : S → Chunk → S * bool) (st : S) (up : Upstream)
  : S * (Error + Z) :=
  let '(st', completed) := deliver receiver st (chunks up) in
  (st', if completed then outcome up else inl Canceled).

(** std::chrono::duration_cast<milliseconds> of a nanosecond count. *)
Definition milliseconds (ns : Z) : Z := ns ÷ 1000000.

(** std::string members used by [extractMetrics], on the bytes of the
    string; [None] is [npos]. *)
Module cpp.

Definition nl : ascii := "010"%char.
Definition whitespace : list ascii := [" "%char; "009"%char; "013"%char; "010"%char].

(** [s.rfind(c, pos)]: the last index [<= pos] holding [c]. *)
Fixpoint rfind (s : list ascii) (c : ascii) (pos : nat) : option nat :=
  if decide (s !! pos = Some c) then Some pos
  else match pos with
       | O => None
       | S p => rfind s c p
       end.

(** [s.substr(pos, n)] for [pos <= s.size()]. *)
Definition substr (s : list ascii) (pos n : nat) : list ascii :=
  take n (drop pos s).

Definition find_first_not_of (s : list ascii) (set : list ascii) : option nat :=
  fst <$> list_find (λ c, c ∉ set) s.

Definition find_last_not_of (s : list ascii) (set : list ascii) : option nat :=
  (λ p, length s - 1 - p.1)%nat <$> list_find (λ c, c ∉ set) (reverse s).

(** crow's case-insensitive comparison of header names. *)
Definition to_lower (c : ascii) : ascii :=
  let n := nat_of_ascii c in
  if (65 <=? n)%nat && (n <=? 90)%nat then ascii_of_nat (n + 32) else c.

Definition iequals (a b : string) : bool :=
  bool_decide (to_lower <$> list_ascii_of_string a = to_lower <$> list_ascii_of_string b).

End cpp.

(** ** config.hpp: detail::safeGetenv and the getters of class Config *)

Module Getters.

(** [isspace] in the C locale. *)
Definition isspace (c : ascii) : bool :=
  bool_decide (c ∈ [" "%char; "009"%char; "010"%char; "011"%char; "012"%char;
                    "013"%char]).

Definition digit (c : ascii) : option Z :=
  let n := nat_of_ascii c in
  if (48 <=? n)%nat && (n <=? 57)%nat then Some (Z.of_nat n - 48) else None.

Fixpoint skip_spaces (s : string) : string :=
  match s with
  | String c s' => if isspace c then skip_spaces s' else s
  | EmptyString => EmptyString
  end.

(** The value of the longest run of decimal digits at the front of [s],
    continuing [acc]. *)
Fixpoint digits (s : string) (acc : Z) : Z :=
  match s with
  | String c s' =>
    match digit c with
    | Some d => digits s' (10 * acc + d)
    | None => acc
    end
  | EmptyString => acc
  end.

Definition starts_with_digit (s : string) : bool :=
  match s with
  | String c _ => bool_decide (is_Some (digit c))
  | EmptyString => false
  end.

(** [std::stoi(s)]: leading white space, an optional sign, decimal
    digits; what follows the digits is ignored.  [None] when it throws
    ([invalid_argument] without a digit, [out_of_range] outside [int]). *)
Definition stoi (s : string) : option Z :=
  let s := skip_spaces s in
  let '(negative, s) :=
    match s with
    | String c s' =>
      if Ascii.eqb c "-"%char then (true, s')
      else if Ascii.eqb c "+"%char then (false, s')
      else (false, s)
    | EmptyString => (false, s)
    end in
  if starts_with_digit s then
    let v := if negative : bool then - digits s 0 else digits s 0 in
    if (- 2 ^ 31 <=? v) && (v <? 2 ^ 31) then Some v else None
  else None.

(** [environ] holds the variables that are set. *)
Definition safeGetenv (environ : gmap string string) (name : string) : string :=
  default "" (environ !! name).

Definition getOllamaHost (environ : gmap string string) : string :=
  let env_host := safeGetenv environ "OLLAMA_HOST" in
  if negb (String.eqb env_host "") then env_host
  else "http://localhost:11434".

Definition getDatabasePath (environ : gmap string string) : string :=
  let env_db := safeGetenv environ "SECTORFLUX_DB" in
  if negb (String.eqb env_db "") then env_db
  else "sectorflux.db".

Definition getPort (environ : gmap string string) : Z :=
  let env_port := safeGetenv environ "SECTORFLUX_PORT" in
  if negb (String.eqb env_port "") then
    match stoi env_port with
    | Some port =>
      if (0 <? port) && (port <=? 65535) then port
      else Config.kDefaultPort
    | None => Config.kDefaultPort  (* Invalid port, use default *)
    end
  else Config.kDefaultPort.

End Getters.

(** ** proxy.hpp, proxy.cpp *)

Module Proxy.

Record ResponseMetrics := {
  prompt_tokens : Z;
  completion_tokens : Z;
  prompt_eval_duration_ms : Z;
  eval_duration_ms : Z
}.

(** The default member initialisers. *)
Definition no_metrics : ResponseMetrics :=
  {| prompt_tokens := 0; completion_tokens := 0;
     prompt_eval_duration_ms := 0; eval_duration_ms := 0 |}.

Definition kConnectionTimeoutSec : Z := 60.
Definition kWebSocketTimeoutSec : Z := 300.
Definition kNanosecondsPerMillisecond : Z := 1000000.

Definition set_prompt_tokens (m : ResponseMetrics) (v : Z) : ResponseMetrics :=
  {| prompt_tokens := v; completion_tokens := completion_tokens m;
     prompt_eval_duration_ms := prompt_eval_duration_ms m;
     eval_duration_ms := eval_duration_ms m |}.
Definition set_completion_tokens (m : ResponseMetrics) (v : Z) : ResponseMetrics :=
  {| prompt_tokens := prompt_tokens m; completion_tokens := v;
     prompt_eval_duration_ms := prompt_eval_duration_ms m;
     eval_duration_ms := eval_duration_ms m |}.
Definition set_prompt_eval_duration_ms (m : ResponseMetrics) (v : Z) : ResponseMetrics :=
  {| prompt_tokens := prompt_tokens m; completion_tokens := completion_tokens m;
     prompt_eval_duration_ms := v;
     eval_duration_ms := eval_duration_ms m |}.
Definition set_eval_duration_ms (m : ResponseMetrics) (v : Z) : ResponseMetrics :=
  {| prompt_tokens := prompt_tokens m; completion_tokens := completion_tokens m;
     prompt_eval_duration_ms := prompt_eval_duration_ms m;
     eval_duration_ms := v |}.

(** A computation inside the [try] block of [extractMetrics]: it ends
    normally, or an exception leaves it, with the local [metrics] as it
    stands at that point. *)
Inductive Exc (A : Type) :=
  | Ok (a : A)
  | Thrown (metrics : ResponseMetrics).
Arguments Ok {A} a.
Arguments Thrown {A} metrics.

#[global] Instance Exc_bind : MBind Exc := λ A B f x,
  match x with
  | Ok a => f a
  | Thrown m => Thrown m
  end.

(** What one turn of the [while] loop decides. *)
Inductive Step :=
  | Break (metrics : ResponseMetrics)
  | Next (pos : nat) (metrics : ResponseMetrics).

Section WithJson.
Context {rvalue : Type} `{Json rvalue}.

(** *** ProxyHandler::extractModelFromRequest *)

Definition extractModelFromRequest (request_body : string) : string :=
  match load request_body with
  | Some json =>
    if has json "model" then
      match get_s json "model" with
      | Some m => m
      | None => "unknown"  (* catch (...) *)
      end
    else "unknown"
  | None => "unknown"
  end.

(** *** ProxyHandler::extractMetrics *)

(** [if (json.has(key)) { field = conv(json[key].i()); found_metrics = true; }] *)
Definition read_field (json : rvalue) (key : string)
    (set : ResponseMetrics → Z → ResponseMetrics) (conv : Z → Z)
    (st : ResponseMetrics * bool) : Exc (ResponseMetrics * bool) :=
  if has json key then
    match get_i json key with
    | Some v => Ok (set st.1 (conv v), true)
    | None => Thrown st.1
    end
  else Ok st.

(** The body of [if (json) { ... }]: [true] stands for [break]. *)
Definition read_summary (json : rvalue) (metrics : ResponseMetrics)
  : Exc (ResponseMetrics * bool) :=
  let found_metrics := false in
  st ← read_field json "prompt_eval_count" set_prompt_tokens to_int
         (metrics, found_metrics);
  st ← read_field json "eval_count" set_completion_tokens to_int st;
  st ← read_field json "prompt_eval_duration" set_prompt_eval_duration_ms
         (λ v, v ÷ kNanosecondsPerMillisecond) st;
  '(metrics, found_metrics) ←
       read_field json "eval_duration" set_eval_duration_ms
         (λ v, v ÷ kNanosecondsPerMillisecond) st;
  (* Found the summary object with metrics or done flag *)
  if found_metrics : bool then Ok (metrics, true)
  else if has json "done" then
    match get_b json "done" with
    | Some b => Ok (metrics, b)
    | None => Thrown metrics
    end
  else Ok (metrics, false).

(** Trim whitespace. *)
Definition trim (line : list ascii) : list ascii :=
  match cpp.find_first_not_of line cpp.whitespace with
  | Some first =>
    match cpp.find_last_not_of line cpp.whitespace with
    | Some last => cpp.substr line first (last - first + 1)
    | None => cpp.substr line first (length line)
    end
  | None => line
  end.

(** From [if (!line.empty() && line.front() == '{')] to the end of that
    block, for a trimmed line. *)
Definition read_line (line : list ascii) (metrics : ResponseMetrics)
  : Exc (ResponseMetrics * bool) :=
  match line with
  | c :: _ =>
    if Ascii.eqb c "{"%char then
      match load (string_of_list_ascii line) with
      | Some json => read_summary json metrics
      | None => Ok (metrics, false)
      end
    else Ok (metrics, false)
  | [] => Ok (metrics, false)
  end.

(** One turn of [while (pos > 0)], for [pos > 0]. *)
Definition iteration (response : list ascii) (pos : nat) (metrics : ResponseMetrics)
  : Exc Step :=
  let line_end := pos in
  let line_start :=
    match cpp.rfind response cpp.nl (pos - 1) with
    | None => O
    | Some i => S i  (* Move past the newline *)
    end in
  let line := cpp.substr response line_start (line_end - line_start) in
  let line := trim line in
  '(metrics, stop) ← read_line line metrics;
  if stop : bool then Ok (Break metrics)
  else
    (* Move to previous line *)
    if decide (line_start = O) then Ok (Break metrics)
    else Ok (Next (line_start - 1) metrics).

(** A value together with the equation that defines it. *)
Definition inspect {A : Type} (x : A) : {y : A | x = y} := exist _ x eq_refl.

(** The [while] loop, inside [try]; [catch (...)] keeps [metrics] as the
    exception left it. *)
Equations? scan (response : list ascii) (pos : nat) (metrics : ResponseMetrics)
  : ResponseMetrics by wf pos lt :=
  scan response O metrics := metrics;
  scan response (S p) metrics with inspect (iteration response (S p) metrics) := {
    | exist _ (Ok (Break m)) _ := m;
    | exist _ (Ok (Next pos' m)) e := scan response pos' m;
    | exist _ (Thrown m) _ := m }.
Proof.
  clear scan. revert e. unfold iteration.
  assert (Hr : ∀ q i, cpp.rfind response cpp.nl q = Some i → (i ≤ q)%nat).
  { induction q as [|q IH]; intros i Hi; simpl in Hi; case_decide;
      try (inversion Hi; subst; lia); try discriminate.
    apply IH in Hi. lia. }
  replace (S p - 1)%nat with p by lia.
  destruct (cpp.rfind response cpp.nl p) as [i|] eqn:Hi.
  - apply Hr in Hi.
    destruct (read_line _ _) as [[m1 []]|]; simpl; intros e;
      inversion e; subst; lia.
  - destruct (read_line _ _) as [[m1 []]|]; simpl; intros e; inversion e.
Qed.

Definition extractMetrics (response : string) : ResponseMetrics :=
  let response := list_ascii_of_string response in
  let pos := length response in
  scan response pos no_metrics.

(** *** crow::request, crow::response and the handler's surroundings *)

Record request := {
  req_body : string;
  req_headers : list (string * string)
}.

Record response := {
  res_code : Z;
  res_body : string;
  res_headers : list (string * string);
  res_ended : bool
}.

Definition get_header_value (req : request) (key : string) : string :=
  match list_find (λ kv, cpp.iequals kv.1 key = true) (req_headers req) with
  | Some (_, kv) => kv.2
  | None => ""
  end.

Definition set_code (res : response) (c : Z) : response :=
  {| res_code := c; res_body := res_body res;
     res_headers := res_headers res; res_ended := res_ended res |}.
Definition set_body (res : response) (b : string) : response :=
  {| res_code := res_code res; res_body := b;
     res_headers := res_headers res; res_ended := res_ended res |}.
Definition add_header (res : response) (k v : string) : response :=
  {| res_code := res_code res; res_body := res_body res;
     res_headers := res_headers res ++ [(k, v)]; res_ended := res_ended res |}.
Definition end_ (res : response) : response :=
  {| res_code := res_code res; res_body := res_body res;
     res_headers := res_headers res; res_ended := true |}.

(** The calls a handler makes to its collaborators, in program order. *)
Inductive Event :=
  | CacheLookup (request_body : string)
  | CacheStore (request_body : string) (status : Z) (body : string)
  | Post (path body : string)
  | SendText (frame : string)
  | LogSubmit (t : Store.Interaction).

Record ProxyHandler := {
  db_ : Store.Database;
  cache_enabled_ : bool
}.

Definition setCacheEnabled (enabled : bool) (h : ProxyHandler) : ProxyHandler :=
  {| db_ := db_ h; cache_enabled_ := enabled |}.
Definition isCacheEnabled (h : ProxyHandler) : bool := cache_enabled_ h.

Definition with_database (h : ProxyHandler) (d : Store.Database) : ProxyHandler :=
  {| db_ := d; cache_enabled_ := cache_enabled_ h |}.

(** [httplib::to_string(Error)], fixed by the library version. *)
Context (to_string : Error → string).

(** *** ProxyHandler::handleRequest *)

(** What happens around one call: the two readings of [steady_clock]
    (nanoseconds), the upstream's behaviour, and the engine's answers to
    the cache lookup and to the cache write. *)
Record HttpCall := {
  start_time : Z;
  end_time : Z;
  upstream : Upstream;
  sql_lookup : Store.Engine;
  sql_store : Store.Engine
}.

(** Skip cache if X-SectorFlux-No-Cache header is present OR cache is
    globally disabled. *)
Definition skip_cache (h : ProxyHandler) (req : request) : bool :=
  negb (cache_enabled_ h)
  || String.eqb (get_header_value req "X-SectorFlux-No-Cache") "true".

(** The value of [cached] in the hit test; [None] too when the lookup
    is skipped. *)
Definition cached_response (h : ProxyHandler) (w : HttpCall) (req : request)
  : option (Z * string) :=
  if skip_cache h req then None
  else Store.getCachedResponse (sql_lookup w) (req_body req) (db_ h).

(** The content receiver; its state is [ttft_ms], [accumulated_response]
    and [res.body]. *)
Definition http_receiver (start_time : Z) (st : Z * string * string) (c : Chunk)
  : (Z * string * string) * bool :=
  let '(ttft_ms, accumulated_response, body) := st in
  let ttft_ms :=
    if ttft_ms =? 0 then milliseconds (arrival c - start_time) else ttft_ms in
  ((ttft_ms, accumulated_response +:+ data c, body +:+ data c), true).

Definition handleRequest (h : ProxyHandler) (w : HttpCall) (req : request)
    (res : response) (target_endpoint : string)
  : response * ProxyHandler * list Event :=
  let request_body_copy := req_body req in
  let model := extractModelFromRequest request_body_copy in
  (* 1. Check Cache (Smart Caching) *)
  let looked_up := if skip_cache h req then [] else [CacheLookup request_body_copy] in
  match cached_response h w req with
  | Some cached =>
    let res := set_code res cached.1 in
    let res := set_body res cached.2 in
    let res := add_header res "X-SectorFlux-Cache" "HIT" in
    let res := end_ res in
    let metrics := extractMetrics cached.2 in
    (* duration 0 indicates cache hit *)
    let t := Store.LogTask "POST" target_endpoint model request_body_copy
               (res_code res) (res_body res) 0
               (prompt_tokens metrics) (completion_tokens metrics) 0 0 0 in
    (res, with_database h (Store.logInteractionAsync t (db_ h)),
     looked_up ++ [LogSubmit t])
  | None =>
    let res := add_header res "Content-Type" "application/json" in
    let res := add_header res "X-SectorFlux-Cache" "MISS" in
    let '((ttft_ms, accumulated_response, body), result) :=
      send (http_receiver (start_time w)) (0, "", res_body res) (upstream w) in
    let res := set_body res body in
    let '(res, accumulated_response, db, stored) :=
      match result with
      | inr status =>
        let res := set_code res status in
        (* 2. Cache the response if successful and not empty *)
        if (res_code res =? 200) && negb (String.eqb accumulated_response "") then
          (res, accumulated_response,
           (Store.cacheResponse (sql_store w) request_body_copy (res_code res)
              accumulated_response (db_ h)).2,
           [CacheStore request_body_copy (res_code res) accumulated_response])
        else (res, accumulated_response, db_ h, [])
      | inl err =>
        let res := set_code res 500 in
        let res := set_body res ("Error forwarding request to Ollama: " +:+ to_string err) in
        (res, res_body res, db_ h, [])
      end in
    let res := end_ res in
    let duration_ms := milliseconds (end_time w - start_time w) in
    let metrics := extractMetrics accumulated_response in
    let t := Store.LogTask "POST" target_endpoint model request_body_copy
               (res_code res) accumulated_response duration_ms
               (prompt_tokens metrics) (completion_tokens metrics)
               (prompt_eval_duration_ms metrics) (eval_duration_ms metrics)
               ttft_ms in
    (res, with_database h (Store.logInteractionAsync t db),
     looked_up ++ [Post target_endpoint request_body_copy] ++ stored ++ [LogSubmit t])
  end.

(** *** ProxyHandler::handleWebSocketRequest *)

(** What happens around one chat turn: clock readings, the upstream's
    behaviour, the value of [is_active] read after [send] returns and
    the one read in the [catch] block, and the engine's answers. *)
Record ChatTurn := {
  ws_start_time : Z;
  ws_end_time : Z;
  ws_upstream : Upstream;
  active_after_send : bool;
  active_in_catch : bool;
  ws_sql_lookup : Store.Engine;
  ws_sql_store : Store.Engine
}.

(** How the call ends: it returns, or an exception leaves it. *)
Inductive Ending := Returns | Throws.

(** The value of [cached] in the chat path. *)
Definition ws_cached_response (h : ProxyHandler) (w : ChatTurn) (message : string)
  : option (Z * string) :=
  if cache_enabled_ h
  then Store.getCachedResponse (ws_sql_lookup w) message (db_ h)
  else None.

(** The content receiver; its state is [ttft_ms], [full_response] and
    the frames sent so far. *)
Definition ws_receiver (start_time : Z) (st : Z * string * list Event) (c : Chunk)
  : (Z * string * list Event) * bool :=
  let '(ttft_ms, full_response, sent) := st in
  let ttft_ms :=
    if ttft_ms =? 0 then milliseconds (arrival c - start_time) else ttft_ms in
  (* Check if connection is still active *)
  if negb (active_on_arrival c) then ((ttft_ms, full_response, sent), false)
  else ((ttft_ms, full_response +:+ data c, sent ++ [SendText (data c)]), true).

Definition handleWebSocketRequest (h : ProxyHandler) (w : ChatTurn) (message : string)
  : Ending * ProxyHandler * list Event :=
  match load message with
  | None => (Returns, h, [SendText (js "{'error': 'Invalid JSON'}")])
  | Some json_req =>
    (* Extract model for logging *)
    match (if has json_req "model" then get_s json_req "model" else Some "unknown") with
    | None => (Throws, h, [])
    | Some model =>
      let looked_up := if cache_enabled_ h then [CacheLookup message] else [] in
      match ws_cached_response h w message with
      | Some cached =>
        let metrics := extractMetrics cached.2 in
        let t := Store.LogTask "POST" "/api/chat" model message
                   cached.1 cached.2 0
                   (prompt_tokens metrics) (completion_tokens metrics) 0 0 0 in
        (Returns, with_database h (Store.logInteractionAsync t (db_ h)),
         looked_up ++ [SendText cached.2; LogSubmit t])
      | None =>
        (* try *)
        match (if has json_req "model" then get_s json_req "model" else None),
              has json_req "messages" with
        | Some m, true =>
          let body := dump_chat m json_req in
          let '((ttft_ms, full_response, sent), result) :=
            send (ws_receiver (ws_start_time w)) (0, "", []) (ws_upstream w) in
          let before := looked_up ++ [Post "/api/chat" body] ++ sent in
          (* Only log if we finished successfully and weren't aborted *)
          if active_after_send w then
            let failed :=
              match result with
              | inl _ => true
              | inr status => negb (status =? 200)
              end in
            if failed then
              (Returns, h,
               before ++ [SendText (js "{'error': 'Failed to connect to Ollama'}")])
            else
              let duration_ms := milliseconds (ws_end_time w - ws_start_time w) in
              let metrics := extractMetrics full_response in
              let t := Store.LogTask "POST" "/api/chat" model message 200 full_response
                         duration_ms
                         (prompt_tokens metrics) (completion_tokens metrics)
                         (prompt_eval_duration_ms metrics) (eval_duration_ms metrics)
                         ttft_ms in
              let db := Store.logInteractionAsync t (db_ h) in
              (* Cache the response if enabled and valid *)
              if cache_enabled_ h && negb (String.eqb full_response "") then
                (Returns,
                 with_database h
                   (Store.cacheResponse (ws_sql_store w) message 200 full_response db).2,
                 before ++ [LogSubmit t; CacheStore message 200 full_response])
              else (Returns, with_database h db, before ++ [LogSubmit t])
          else (Returns, h, before)
        | _, _ =>
          (* catch (const std::exception& e) *)
          (Returns, h,
           looked_up ++
           if active_in_catch w
           then [SendText (js "{'error': 'Internal Server Error'}")] else [])
        end
      end
    end
  end.

End WithJson.
End Proxy.

(** ** main.cpp: the connection states of /ws/chat *)

Module Main.

(** [g_connections] maps a connection to its ConnectionState object; the
    object is shared with the worker started for that connection, so
    the flags are kept apart from the map, by object. *)
Record ChatRoute := {
  g_connections : gmap nat nat;
  active : gmap nat bool
}.

Definition onopen (conn : nat) (r : ChatRoute) : ChatRoute :=
  let state := fresh (dom (active r)) in
  {| g_connections := <[conn := state]> (g_connections r);
     active := <[state := true]> (active r) |}.

Definition onclose (conn : nat) (r : ChatRoute) : ChatRoute :=
  match g_connections r !! conn with
  | Some state =>
    (* Signal worker to stop *)
    {| g_connections := delete conn (g_connections r);
       active := <[state := false]> (active r) |}
  | None => r
  end.

(** The route after a message, and the state object handed to the new
    worker, if one is started. *)
Definition onmessage (conn : nat) (is_binary : bool) (r : ChatRoute)
  : ChatRoute * option nat :=
  if is_binary then (r, None)
  else match g_connections r !! conn with
       | Some state =>
         (* Reset active flag for new request *)
         ({| g_connections := g_connections r;
             active := <[state := true]> (active r) |}, Some state)
       | None => (r, None)
       end.

End Main.

(** ** main.cpp: the administrative routes *)

Module Routes.
Section WithJson.
Context {rvalue : Type} `{Json rvalue} (to_string : Error → string).

(** The member values the routes put in a crow::json::wvalue. *)
Inductive wvalue :=
  | WBool (b : bool)
  | WInt (z : Z).

(** What a route hands back: a status with a text body, or a JSON
    object (status 200); [Raised] when an exception leaves the handler. *)
Inductive Reply :=
  | Text (code : Z) (body : string)
  | JsonReply (json_response : list (string * wvalue))
  | Raised.

(** GET /api/config/cache *)
Definition get_cache_config (h : Proxy.ProxyHandler) : Reply :=
  JsonReply [("enabled", WBool (Proxy.isCacheEnabled h))].

(** POST /api/config/cache *)
Definition post_cache_config (h : Proxy.ProxyHandler) (body : string)
  : Reply * Proxy.ProxyHandler :=
  match load body with
  | None => (Text 400 "Invalid JSON", h)
  | Some json =>
    if has json "enabled" then
      match get_b json "enabled" with
      | Some enabled =>
        (Text 200 "Cache configuration updated", Proxy.setCacheEnabled enabled h)
      | None => (Raised, h)
      end
    else (Text 400 "Missing 'enabled' field", h)
  end.

(** PUT /api/logs/<int>/starred *)
Definition put_starred (env : Store.Engine) (d : Store.Database) (body : string)
    (id : Z) : Reply * Store.Database :=
  match load body with
  | None => (Text 400 "Invalid JSON", d)
  | Some json =>
    if has json "starred" then
      match get_b json "starred" with
      | Some is_starred =>
        match Store.setStarred env id is_starred d with
        | (Some err, d') => (Text 500 err, d')
        | (None, d') =>
          (JsonReply [("id", WInt id); ("is_starred", WBool is_starred)], d')
        end
      | None => (Raised, d)
      end
    else (Text 400 "Missing 'starred' field", d)
  end.

(** POST /api/replay/<int>: [sql_log] holds the engine's answers to the
    [getLog] call, [w] what happens around the forwarded call. *)
Definition replay (h : Proxy.ProxyHandler) (sql_log : Store.Engine)
    (w : Proxy.HttpCall) (res : Proxy.response) (id : Z)
  : Proxy.response * Proxy.ProxyHandler * list Proxy.Event :=
  match Store.getLog sql_log id (Proxy.db_ h) with
  | None =>
    let res := Proxy.set_code res 404 in
    let res := Proxy.set_body res "Log entry not found" in
    (Proxy.end_ res, h, [])
  | Some log =>
    (* Construct a request to replay *)
    let replay_req :=
      {| Proxy.req_body := Store.request_body log;
         (* Skip cache for replays to get fresh response from Ollama *)
         Proxy.req_headers := [("X-SectorFlux-No-Cache", "true")] |} in
    (* Forward to proxy handler using the original endpoint *)
    Proxy.handleRequest to_string h w replay_req res (Store.endpoint log)
  end.

End WithJson.
End Routes.

(** ** An instance of the JSON interface

    A reader of one-level JSON objects whose values are integers,
    booleans, null, strings without escapes, or a bracketed value kept
    as text.  It stands for crow::json in the worked examples. *)

Module FlatJson.

Inductive value :=
  | Num (z : Z)
  | Bool (b : bool)
  | Null
  | Str (s : string)
  | Raw (text : string).

Definition object := list (string * value).

Definition dq : ascii := "034"%char.

Definition is_ws (c : ascii) : bool := bool_decide (c ∈ cpp.whitespace).

Definition digit (c : ascii) : option Z :=
  let n := nat_of_ascii c in
  if (48 <=? n)%nat && (n <=? 57)%nat then Some (Z.of_nat n - 48) else None.

Fixpoint skip_ws (s : list ascii) : list ascii :=
  match s with
  | c :: s' => if is_ws c then skip_ws s' else s
  | [] => []
  end.

(** After an opening quote: the characters up to the closing quote, and
    what follows it. *)
Fixpoint read_string (s : list ascii) : option (list ascii * list ascii) :=
  match s with
  | [] => None
  | c :: s' =>
    if Ascii.eqb c dq then Some ([], s')
    else if Ascii.eqb c "\"%char then None
    else (λ r, (c :: r.1, r.2)) <$> read_string s'
  end.

Fixpoint read_digits (s : list ascii) (acc : Z) : Z * list ascii :=
  match s with
  | c :: s' =>
    match digit c with
    | Some d => read_digits s' (10 * acc + d)
    | None => (acc, s)
    end
  | [] => (acc, [])
  end.

Definition starts_with_digit (s : list ascii) : bool :=
  match s with
  | c :: _ => bool_decide (is_Some (digit c))
  | [] => false
  end.

Definition read_number (s : list ascii) : option (Z * list ascii) :=
  match s with
  | c :: s' =>
    if Ascii.eqb c "-"%char then
      if starts_with_digit s'
      then Some ((λ r, (- r.1, r.2)) (read_digits s' 0)) else None
    else if starts_with_digit s then Some (read_digits s 0) else None
  | [] => None
  end.

(** A bracketed value, up to the bracket that closes the first one. *)
Fixpoint read_balanced (s : list ascii) (depth : nat) : option (list ascii * list ascii) :=
  match s with
  | [] => None
  | c :: s' =>
    if Ascii.eqb c "["%char || Ascii.eqb c "{"%char then
      (λ r, (c :: r.1, r.2)) <$> read_balanced s' (S depth)
    else if Ascii.eqb c "]"%char || Ascii.eqb c "}"%char then
      match depth with
      | 0%nat => None
      | 1%nat => Some ([c], s')
      | S d => (λ r, (c :: r.1, r.2)) <$> read_balanced s' d
      end
    else (λ r, (c :: r.1, r.2)) <$> read_balanced s' depth
  end.

Fixpoint strip_prefix (p s : list ascii) : option (list ascii) :=
  match p, s with
  | [], _ => Some s
  | a :: p', b :: s' => if Ascii.eqb a b then strip_prefix p' s' else None
  | _ :: _, [] => None
  end.

Definition read_value (s : list ascii) : option (value * list ascii) :=
  match s with
  | [] => None
  | c :: s' =>
    if Ascii.eqb c dq then
      (λ r, (Str (string_of_list_ascii r.1), r.2)) <$> read_string s'
    else if Ascii.eqb c "["%char || Ascii.eqb c "{"%char then
      (λ r, (Raw (string_of_list_ascii r.1), r.2)) <$> read_balanced s 0
    else
      match strip_prefix (list_ascii_of_string "true") s,
            strip_prefix (list_ascii_of_string "false") s,
            strip_prefix (list_ascii_of_string "null") s with
      | Some r, _, _ => Some (Bool true, r)
      | _, Some r, _ => Some (Bool false, r)
      | _, _, Some r => Some (Null, r)
      | _, _, _ => (λ r, (Num r.1, r.2)) <$> read_number s
      end
  end.

(** The members of an object, from the first key to the closing brace,
    which must end the text. *)
Fixpoint read_members (fuel : nat) (s : list ascii) : option object :=
  match fuel with
  | O => None
  | S fuel =>
    match skip_ws s with
    | c :: s1 =>
      if Ascii.eqb c dq then
        '(k, s2) ← read_string s1;
        match skip_ws s2 with
        | c2 :: s3 =>
          if Ascii.eqb c2 ":"%char then
            '(v, s4) ← read_value (skip_ws s3);
            match skip_ws s4 with
            | c4 :: s5 =>
              if Ascii.eqb c4 ","%char then
                o ← read_members fuel s5;
                Some ((string_of_list_ascii k, v) :: o)
              else if Ascii.eqb c4 "}"%char then
                match skip_ws s5 with
                | [] => Some [(string_of_list_ascii k, v)]
                | _ => None
                end
              else None
            | [] => None
            end
          else None
        | [] => None
        end
      else None
    | [] => None
    end
  end.

Definition parse (text : string) : option object :=
  match skip_ws (list_ascii_of_string text) with
  | c :: s1 =>
    if Ascii.eqb c "{"%char then
      match skip_ws s1 with
      | c1 :: s2 =>
        if Ascii.eqb c1 "}"%char then
          match skip_ws s2 with
          | [] => Some []
          | _ => None
          end
        else read_members (length s1) s1
      | [] => None
      end
    else None
  | [] => None
  end.

Definition member (o : object) (key : string) : option value :=
  snd <$> (snd <$> list_find (λ kv, kv.1 = key) o).

Definition render (v : value) : string :=
  match v with
  | Num z => pretty z
  | Bool true => "true"
  | Bool false => "false"
  | Null => "null"
  | Str s => String dq (s +:+ String dq "")
  | Raw t => t
  end.

#[global] Instance json : Json object := {|
  load := parse;
  has o key := bool_decide (is_Some (member o key));
  get_i o key := match member o key with Some (Num z) => Some z | _ => None end;
  get_b o key := match member o key with Some (Bool b) => Some b | _ => None end;
  get_s o key := match member o key with Some (Str s) => Some s | _ => None end;
  dump_chat m o :=
    js "{'model':'" +:+ m +:+ js "','messages':" +:+
    default "null" (render <$> member o "messages") +:+ js ",'stream':true}"
|}.

End FlatJson.

(** httplib::to_string(Error), as of cpp-httplib 0.14. *)
Definition httplib_to_string (e : Error) : string :=
  match e with
  | Unknown => "Unknown"
  | Connection => "Could not establish connection"
  | BindIPAddress => "Failed to bind IP address"
  | Read => "Failed to read connection"
  | Write => "Failed to write connection"
  | ExceedRedirectCount => "Maximum redirect count exceeded"
  | Canceled => "Connection handling canceled"
  | ConnectionTimeout => "Connection timed out"
  end.

(** ** The extractor in the specification's words

    Second definitions, written from the specification's sentences, to
    be compared with [Proxy.extractMetrics]. *)

Module Spec.
Section WithJson.
Context {rvalue : Type} `{Json rvalue}.

(** The lines of a body: the runs of bytes between newlines. *)
Fixpoint lines (s : list ascii) : list (list ascii) :=
  match s with
  | [] => [[]]
  | c :: s' =>
    if decide (c = cpp.nl) then [] :: lines s'
    else match lines s' with
         | l :: ls => (c :: l) :: ls
         | [] => [[c]]
         end
  end.

(** The line parses as a JSON object. *)
Definition object_of_line (line : list ascii) : option rvalue :=
  match Proxy.trim line with
  | c :: t =>
    if Ascii.eqb c "{"%char then load (string_of_list_ascii (c :: t)) else None
  | [] => None
  end.

(** The JSON objects among the lines, last line first. *)
Definition objects (body : string) : list rvalue :=
  omap object_of_line (reverse (lines (list_ascii_of_string body))).

Definition carries_telemetry (j : rvalue) : bool :=
  has j "prompt_eval_count" || has j "eval_count"
  || has j "prompt_eval_duration" || has j "eval_duration".

Definition done_true (j : rvalue) : bool :=
  has j "done" && bool_decide (get_b j "done" = Some true).

(** The line the scan is said to stop at. *)
Definition is_summary (j : rvalue) : bool := carries_telemetry j || done_true j.

(** A field's value, 0 when absent. *)
Definition field (j : rvalue) (key : string) : Z :=
  if has j key then default 0 (get_i j key) else 0.

Definition summary (j : rvalue) : Proxy.ResponseMetrics :=
  {| Proxy.prompt_tokens := field j "prompt_eval_count";
     Proxy.completion_tokens := field j "eval_count";
     Proxy.prompt_eval_duration_ms := field j "prompt_eval_duration" ÷ 1000000;
     Proxy.eval_duration_ms := field j "eval_duration" ÷ 1000000 |}.

(** The extractor as the specification describes it: the summary of the
    first such line from the end, zeros when there is none. *)
Definition claimed_extract (body : string) : Proxy.ResponseMetrics :=
  match list_find (λ j, is_summary j = true) (objects body) with
  | Some (_, j) => summary j
  | None => Proxy.no_metrics
  end.

(** The counts as 32-bit [int]s. *)
Definition narrow (m : Proxy.ResponseMetrics) : Proxy.ResponseMetrics :=
  {| Proxy.prompt_tokens := to_int (Proxy.prompt_tokens m);
     Proxy.completion_tokens := to_int (Proxy.completion_tokens m);
     Proxy.prompt_eval_duration_ms := Proxy.prompt_eval_duration_ms m;
     Proxy.eval_duration_ms := Proxy.eval_duration_ms m |}.

(** A field that is present is a number. *)
Definition numeric (j : rvalue) (key : string) : bool :=
  negb (has j key) || bool_decide (is_Some (get_i j key)).

(** Every telemetry field present is a number, and [done], when
    present, is a boolean. *)
Definition well_typed (j : rvalue) : bool :=
  numeric j "prompt_eval_count" && numeric j "eval_count"
  && numeric j "prompt_eval_duration" && numeric j "eval_duration"
  && (negb (has j "done") || bool_decide (is_Some (get_b j "done"))).

(** The line the scan does stop at: one that carries a telemetry field,
    or whose [done] is true or is no boolean. *)
Definition stops (j : rvalue) : bool :=
  carries_telemetry j
  || has j "done" && negb (bool_decide (get_b j "done" = Some false)).

(** The telemetry fields in the order they are read, with the member
    each one sets and the conversion applied. *)
Definition telemetry_fields
  : list (string * (Proxy.ResponseMetrics → Z → Proxy.ResponseMetrics) * (Z → Z)) :=
  [ ("prompt_eval_count", Proxy.set_prompt_tokens, to_int);
    ("eval_count", Proxy.set_completion_tokens, to_int);
    ("prompt_eval_duration", Proxy.set_prompt_eval_duration_ms, λ v, v ÷ 1000000);
    ("eval_duration", Proxy.set_eval_duration_ms, λ v, v ÷ 1000000) ].

(** The fields of [j] read in that order, up to the first one present
    that is no number. *)
Fixpoint read_until_failure (j : rvalue)
    (fields : list (string * (Proxy.ResponseMetrics → Z → Proxy.ResponseMetrics) * (Z → Z)))
    (m : Proxy.ResponseMetrics) : Proxy.ResponseMetrics :=
  match fields with
  | [] => m
  | (key, set, conv) :: fields' =>
    if has j key then
      match get_i j key with
      | Some v => read_until_failure j fields' (set m (conv v))
      | None => m
      end
    else read_until_failure j fields' m
  end.

(** Where a computation of the [try] block leaves [metrics], and
    whether the scan ends there; an exception ends it. *)
Definition result_of (x : Proxy.Exc (Proxy.ResponseMetrics * bool))
  : Proxy.ResponseMetrics * bool :=
  match x with
  | Proxy.Ok r => r
  | Proxy.Thrown m => (m, true)
  end.

(** The loop seen as a pass over a list of lines: the result at the
    first line on which the scan ends. *)
Fixpoint first_stop (ls : list (list ascii)) (m : Proxy.ResponseMetrics)
  : Proxy.ResponseMetrics :=
  match ls with
  | [] => m
  | l :: ls' =>
    match Proxy.read_line (Proxy.trim l) m with
    | Proxy.Ok (m', true) => m'
    | Proxy.Ok (m', false) => first_stop ls' m'
    | Proxy.Thrown m' => m'
    end
  end.

(** The same description with the two departures of the code: the scan
    ends at [stops] lines, and the fields are read by
    [read_until_failure]. *)
Definition amended_extract (body : string) : Proxy.ResponseMetrics :=
  match list_find (λ j, stops j = true) (objects body) with
  | Some (_, j) => read_until_failure j telemetry_fields Proxy.no_metrics
  | None => Proxy.no_metrics
  end.

End WithJson.
End Spec.

(** ** Vocabulary of the statements *)

(** The values of a 32-bit [int]. *)
Definition fits_int (z : Z) : Prop := - 2 ^ 31 ≤ z < 2 ^ 31.

(** The statement numbered [n] of a call prepares and steps. *)
Definition runs (env : Store.Engine) (n : nat) : Prop :=
  Store.prepare_ok env n = true ∧ Store.step_ok env n = true.

(** The numbers of a list added up, and their arithmetic mean, as exact
    numbers. *)
Definition added (l : list Z) : Z := foldl Z.add 0 l.

Definition mean (l : list Z) : Q :=
  (inject_Z (added l) / inject_Z (Z.of_nat (length l)))%Q.

(** The rows logged with the cache-hit mark. *)
Definition cache_hits (rows : list Store.LogEntry) : list Store.LogEntry :=
  filter (λ r, Store.duration_ms r = 0) rows.

(** A sequence of [cacheResponse] calls, each with the engine's answers,
    the key, the status and the body. *)
Definition cache_puts (ops : list (Store.Engine * string * Z * string))
    (d : Store.Database) : Store.Database :=
  foldl (λ d op, (Store.cacheResponse op.1.1.1 op.1.1.2 op.1.2 op.2 d).2) d ops.

(** The log entries a call submitted, the frames it sent, the cache
    keys it looked up and the cache entries it wrote, in order. *)
Definition submitted (events : list Proxy.Event) : list Store.Interaction :=
  omap (λ e, match e with Proxy.LogSubmit t => Some t | _ => None end) events.

Definition frames (events : list Proxy.Event) : list string :=
  omap (λ e, match e with Proxy.SendText f => Some f | _ => None end) events.

Definition lookups (events : list Proxy.Event) : list string :=
  omap (λ e, match e with Proxy.CacheLookup k => Some k | _ => None end) events.

Definition stores (events : list Proxy.Event) : list (string * Z * string) :=
  omap (λ e, match e with Proxy.CacheStore k s b => Some (k, s, b) | _ => None end)
       events.

(** The state of the HTTP content receiver after the chunks [cs]. *)
Definition http_received (start : Z) (st : Z * string * string) (cs : list Chunk)
  : Z * string * string :=
  foldl (λ st c, (Proxy.http_receiver start st c).1) st cs.

(** The chunks that arrive before the first one that finds the session
    inactive. *)
Fixpoint active_prefix (cs : list Chunk) : list Chunk :=
  match cs with
  | c :: cs' => if active_on_arrival c then c :: active_prefix cs' else []
  | [] => []
  end.

(** The state of the chat content receiver after the chunks [cs], all
    of which found the session active. *)
Definition ws_received (start : Z) (st : Z * string * list Proxy.Event)
    (cs : list Chunk) : Z * string * list Proxy.Event :=
  foldl (λ st c, (Proxy.ws_receiver start st c).1) st cs.

(** The chat turn gets as far as the upstream call: the message parses,
    the cache does not answer, and the upstream body can be built. *)
Definition ws_forwards {rvalue : Type} `{Json rvalue}
    (h : Proxy.ProxyHandler) (w : Proxy.ChatTurn) (message : string) : bool :=
  match load message with
  | Some json_req =>
    bool_decide (Proxy.ws_cached_response h w message = None)
    && has json_req "model"
    && bool_decide (is_Some (get_s json_req "model"))
    && has json_req "messages"
  | None => false
  end.

(** The upstream POSTs a call issued, as (path, body). *)
Definition posts (events : list Proxy.Event) : list (string * string) :=
  omap (λ e, match e with Proxy.Post p b => Some (p, b) | _ => None end) events.

(** The arguments of a queued task, by name. *)
Definition task_method (t : Store.Interaction) : string :=
  let 'Store.LogTask m _ _ _ _ _ _ _ _ _ _ _ := t in m.
Definition task_endpoint (t : Store.Interaction) : string :=
  let 'Store.LogTask _ e _ _ _ _ _ _ _ _ _ _ := t in e.
Definition task_model (t : Store.Interaction) : string :=
  let 'Store.LogTask _ _ mo _ _ _ _ _ _ _ _ _ := t in mo.
Definition task_request_body (t : Store.Interaction) : string :=
  let 'Store.LogTask _ _ _ rq _ _ _ _ _ _ _ _ := t in rq.
Definition task_prompt_tokens (t : Store.Interaction) : Z :=
  let 'Store.LogTask _ _ _ _ _ _ _ pt _ _ _ _ := t in pt.
Definition task_completion_tokens (t : Store.Interaction) : Z :=
  let 'Store.LogTask _ _ _ _ _ _ _ _ ct _ _ _ := t in ct.
Definition task_prompt_eval_duration_ms (t : Store.Interaction) : Z :=
  let 'Store.LogTask _ _ _ _ _ _ _ _ _ ped _ _ := t in ped.
Definition task_eval_duration_ms (t : Store.Interaction) : Z :=
  let 'Store.LogTask _ _ _ _ _ _ _ _ _ _ ed _ := t in ed.

(** The row that holds task [t] under id [i]: text up to its first NUL
    byte, numbers as given, the time of the insert, not starred. *)
Definition stored_row (env : Store.Engine) (t : Store.Interaction) (i : Z)
  : Store.LogEntry :=
  {| Store.id := i;
     Store.timestamp := Store.current_timestamp env;
     Store.method := c_str (task_method t);
     Store.endpoint := c_str (task_endpoint t);
     Store.model := c_str (task_model t);
     Store.request_body := c_str (task_request_body t);
     Store.response_status := Store.task_status t;
     Store.response_body := c_str (Store.task_response_body t);
     Store.duration_ms := Store.task_duration_ms t;
     Store.prompt_tokens := task_prompt_tokens t;
     Store.completion_tokens := task_completion_tokens t;
     Store.prompt_eval_duration_ms := task_prompt_eval_duration_ms t;
     Store.eval_duration_ms := task_eval_duration_ms t;
     Store.ttft_ms := Store.task_ttft_ms t;
     Store.is_starred := false |}.

(** The rows that hold the tasks of [calls] under consecutive ids from
    [first] on, each with the time its engine gave. *)
Fixpoint stored_rows (first : Z) (calls : list (Store.Engine * Store.Interaction))
  : list Store.LogEntry :=
  match calls with
  | [] => []
  | (env, t) :: calls' => stored_row env t first :: stored_rows (first + 1) calls'
  end.

(** The entry [getLog] returns for the row that holds task [t] under id
    [i]. *)
Definition logged_entry (env : Store.Engine) (t : Store.Interaction) (i : Z)
  : Store.LogEntry :=
  {| Store.id := i;
     Store.timestamp := c_str (Store.current_timestamp env);
     Store.method := c_str (task_method t);
     Store.endpoint := c_str (task_endpoint t);
     Store.model := c_str (task_model t);
     Store.request_body := c_str (task_request_body t);
     Store.response_status := to_int (Store.task_status t);
     Store.response_body := c_str (Store.task_response_body t);
     Store.duration_ms := Store.task_duration_ms t;
     Store.prompt_tokens := to_int (task_prompt_tokens t);
     Store.completion_tokens := to_int (task_completion_tokens t);
     Store.prompt_eval_duration_ms := task_prompt_eval_duration_ms t;
     Store.eval_duration_ms := task_eval_duration_ms t;
     Store.ttft_ms := Store.task_ttft_ms t;
     Store.is_starred := false |}.

(** Ascending order on row ids. *)
Definition by_id_asc (a b : Store.LogEntry) : Prop := Store.id a < Store.id b.

(** Rounds of the writer, one per element of [envs]. *)
Definition drain (envs : list Store.Engine) (d : Store.Database) : Store.Database :=
  foldl (λ d env, Store.processWriteQueue env d) d envs.

(** Direct calls of [logInteractionSync], one per pair, in order. *)
Definition log_all (calls : list (Store.Engine * Store.Interaction))
    (d : Store.Database) : Store.Database :=
  foldl (λ d c, (Store.logInteractionSync c.1 c.2 d).2) d calls.

(** The bytes of the chunks, in order. *)
Definition joined (cs : list Chunk) : string :=
  foldl (λ acc c, acc +:+ data c) "" cs.

(** What the chat route is notified of, and the route after a run of
    such notifications. *)
Inductive ChatEvent :=
  | Opened (conn : nat)
  | Closed (conn : nat)
  | Received (conn : nat) (is_binary : bool).

Definition notify (r : Main.ChatRoute) (e : ChatEvent) : Main.ChatRoute :=
  match e with
  | Opened conn => Main.onopen conn r
  | Closed conn => Main.onclose conn r
  | Received conn is_binary => (Main.onmessage conn is_binary r).1
  end.

Definition no_connections : Main.ChatRoute :=
  {| Main.g_connections := ∅; Main.active := ∅ |}.

(** Every connection's state object has a flag, and no two connections
    share a state object. *)
Definition states_apart (r : Main.ChatRoute) : Prop :=
  (∀ conn state, Main.g_connections r !! conn = Some state →
                 is_Some (Main.active r !! state)) ∧
  (∀ c1 c2 state, Main.g_connections r !! c1 = Some state →
                  Main.g_connections r !! c2 = Some state → c1 = c2).

(** A number written in decimal: the characters of the digits [ds], most
    significant first, and the number they denote. *)
Definition digit_char (d : nat) : ascii := ascii_of_nat (48 + d).

Definition decimal (ds : list nat) : string :=
  string_of_list_ascii (digit_char <$> ds).

Definition denoted (ds : list nat) : Z :=
  foldl (λ acc d, 10 * acc + Z.of_nat d) 0 ds.

(** Sample data for the worked instances. *)
Definition sample_task (n : Z) : Store.Interaction :=
  Store.LogTask "POST" "/api/generate" "llama3" "{}" 200 "ok" n 5 7 200 400 1.

Definition sample_row (i : Z) : Store.LogEntry :=
  {| Store.id := i; Store.timestamp := "2025-01-01 00:00:00";
     Store.method := "POST"; Store.endpoint := "/api/generate";
     Store.model := "llama3"; Store.request_body := "{}";
     Store.response_status := 200; Store.response_body := "ok";
     Store.duration_ms := i mod 3; Store.prompt_tokens := 5;
     Store.completion_tokens := 7; Store.prompt_eval_duration_ms := 200;
     Store.eval_duration_ms := 400; Store.ttft_ms := 1;
     Store.is_starred := false |}.

(** A table holding the rows with ids 1 to 100. *)
Definition full_tables : Store.sqlite3 :=
  {| Store.requests := sample_row <$> seqZ 1 100;
     Store.sqlite_sequence := 100;
     Store.cache := ∅ |}.

(** A table of three rows with durations 0, 0 and 1. *)
Definition three_rows : Store.sqlite3 :=
  {| Store.requests := sample_row <$> [3; 6; 7];
     Store.sqlite_sequence := 7;
     Store.cache := ∅ |}.

Definition open_db (tb : Store.sqlite3) : Store.Database :=
  {| Store.db_ := Some tb; Store.write_queue_ := [] |}.

(** [n] log inserts in a row, each one running. *)
Definition run_inserts (n : nat) (d : Store.Database) : Store.Database :=
  Nat.iter n (λ d, (Store.logInteractionSync (Store.reliable "") (sample_task 12) d).2) d.

Definition handler (enabled : bool) (tb : Store.sqlite3) : Proxy.ProxyHandler :=
  {| Proxy.db_ := open_db tb; Proxy.cache_enabled_ := enabled |}.

Definition fresh_response : Proxy.response :=
  {| Proxy.res_code := 200; Proxy.res_body := "";
     Proxy.res_headers := []; Proxy.res_ended := false |}.

Definition generate_request : Proxy.request :=
  {| Proxy.req_body := js "{'model':'llama3','prompt':'hi'}";
     Proxy.req_headers := [("Content-Type", "application/json")] |}.

(** The same request with the bypass header. *)
Definition bypass_request : Proxy.request :=
  {| Proxy.req_body := js "{'model':'llama3','prompt':'hi'}";
     Proxy.req_headers := [("Content-Type", "application/json");
                           ("X-SectorFlux-No-Cache", "true")] |}.

Definition chat_message : string :=
  js "{'model':'llama3','messages':[{'role':'user','content':'hi'}]}".

(** An upstream that answers 200 with two chunks, 250 ms and 900 ms
    after a start at 1 s; the session is closed between the two. *)
Definition two_chunks : Upstream :=
  {| chunks := [ {| arrival := 1250000000; data := js "{'response':'Hel','done':false}
"; active_on_arrival := true |};
                 {| arrival := 1900000000; data := js "{'done':true,'eval_count':7}
"; active_on_arrival := false |} ];
     outcome := inr 200 |}.

(** The bytes [two_chunks] sends. *)
Definition two_chunks_body : string := String.concat "" (data <$> chunks two_chunks).

(** An upstream that refuses the connection. *)
Definition refused : Upstream := {| chunks := []; outcome := inl Connection |}.

(** A call that starts at 1 s and ends at 2 s. *)
Definition slow_call (up : Upstream) : Proxy.HttpCall :=
  {| Proxy.start_time := 1000000000; Proxy.end_time := 2000000000;
     Proxy.upstream := up;
     Proxy.sql_lookup := Store.reliable ""; Proxy.sql_store := Store.reliable "" |}.

(** A call that ends 0.4 ms after it starts. *)
Definition quick_call (up : Upstream) : Proxy.HttpCall :=
  {| Proxy.start_time := 1000000000; Proxy.end_time := 1000400000;
     Proxy.upstream := up;
     Proxy.sql_lookup := Store.reliable ""; Proxy.sql_store := Store.reliable "" |}.

(** A chat turn from 1 s to 2 s whose socket is closed when the upstream
    call returns. *)
Definition closed_turn (up : Upstream) : Proxy.ChatTurn :=
  {| Proxy.ws_start_time := 1000000000; Proxy.ws_end_time := 2000000000;
     Proxy.ws_upstream := up;
     Proxy.active_after_send := false; Proxy.active_in_catch := false;
     Proxy.ws_sql_lookup := Store.reliable "";
     Proxy.ws_sql_store := Store.reliable "" |}.

(** An upstream that answers 200 with two chunks, the session staying
    open. *)
Definition streamed : Upstream :=
  {| chunks := [ {| arrival := 1250000000; data := js "{'response':'Hel','done':false}
"; active_on_arrival := true |};
                 {| arrival := 1900000000; data := js "{'done':true,'eval_count':7}
"; active_on_arrival := true |} ];
     outcome := inr 200 |}.

(** A chat turn from 1 s to 2 s whose socket stays open. *)
Definition open_turn (up : Upstream) : Proxy.ChatTurn :=
  {| Proxy.ws_start_time := 1000000000; Proxy.ws_end_time := 2000000000;
     Proxy.ws_upstream := up;
     Proxy.active_after_send := true; Proxy.active_in_catch := true;
     Proxy.ws_sql_lookup := Store.reliable "";
     Proxy.ws_sql_store := Store.reliable "" |}.

(** An upstream that answers 200 with one chunk 0.2 ms after a start at
    1 s, and a chat turn that ends 0.4 ms after it starts. *)
Definition prompt_reply : Upstream :=
  {| chunks := [ {| arrival := 1000200000; data := js "{'done':true,'eval_count':7}
"; active_on_arrival := true |} ];
     outcome := inr 200 |}.

Definition quick_turn (up : Upstream) : Proxy.ChatTurn :=
  {| Proxy.ws_start_time := 1000000000; Proxy.ws_end_time := 1000400000;
     Proxy.ws_upstream := up;
     Proxy.active_after_send := true; Proxy.active_in_catch := true;
     Proxy.ws_sql_lookup := Store.reliable "";
     Proxy.ws_sql_store := Store.reliable "" |}.

(** An upstream whose first chunk arrives 0.4 ms and whose second chunk
    arrives 300 ms after a start at 1 s, and a call that ends with the
    second chunk. *)
Definition early_first_chunk : Upstream :=
  {| chunks := [ {| arrival := 1000400000; data := js "{'response':'Hel','done':false}
"; active_on_arrival := true |};
                 {| arrival := 1300000000; data := js "{'done':true,'eval_count':7}
"; active_on_arrival := true |} ];
     outcome := inr 200 |}.

Definition call_of_300ms (up : Upstream) : Proxy.HttpCall :=
  {| Proxy.start_time := 1000000000; Proxy.end_time := 1300000000;
     Proxy.upstream := up;
     Proxy.sql_lookup := Store.reliable ""; Proxy.sql_store := Store.reliable "" |}.

(** A streamed body: three chunks, then the summary object. *)
Definition ndjson_body : string :=
  js "{'response':'Hel','done':false}
{'response':'lo','done':false}
this line is not JSON
{'response':'!','done':false}
{'done':true,'prompt_eval_count':5,'eval_count':7,'prompt_eval_duration':200000000,'eval_duration':400000000}
".

(** A summary whose prompt count does not fit a 32-bit [int]. *)
Definition wide_count_body : string :=
  js "{'done':true,'prompt_eval_count':4294967301,'eval_count':7}".

(** A body with a NUL byte in the middle. *)
Definition nul_body : string := String "a" (String zero "b").

(** * Properties *)

(** ** Rounding to double *)

Lemma pow2_pos (k : Z) : (0 < 2 ^ k)%Q.
Proof. by apply Qpower_0_lt. Qed.

Lemma pow2_plus (a b : Z) : (2 ^ (a + b) == 2 ^ a * 2 ^ b)%Q.
Proof. by apply Qpower_plus. Qed.

Lemma pow2_succ (a : Z) : (2 ^ (a + 1) == 2 * 2 ^ a)%Q.
Proof. rewrite pow2_plus. change (2 ^ 1)%Q with 2%Q. lra. Qed.

Lemma pow2_inject (a : Z) : 0 ≤ a → (inject_Z (2 ^ a) == 2 ^ a)%Q.
Proof. intros Ha. by rewrite Zpower_Qpower. Qed.

Lemma pow2_mono (a b : Z) : a ≤ b → (2 ^ a <= 2 ^ b)%Q.
Proof. intros Hab. by apply Qpower_le_compat_l. Qed.

Lemma pow2_mono_inv (a b : Z) : (2 ^ a < 2 ^ b)%Q → a < b.
Proof. intros H. by apply (Qpower_lt_compat_l_inv 2). Qed.

Lemma pow2_cancel (e : Z) : (2 ^ (- e) * 2 ^ e == 1)%Q.
Proof. rewrite <- pow2_plus. by replace (- e + e) with 0 by lia. Qed.

Lemma pow2_diff (a b : Z) : (2 ^ (a - b) * 2 ^ b == 2 ^ a)%Q.
Proof. rewrite <- pow2_plus. by replace (a - b + b) with a by lia. Qed.

Lemma ilog2_spec (q : Q) :
  (0 < q)%Q → (2 ^ ilog2 q <= q)%Q ∧ (q < 2 ^ (ilog2 q + 1))%Q.
Proof.
  intros Hq. unfold ilog2.
  assert (Hn : 0 < Qnum q) by (unfold Qlt in Hq; simpl in Hq; lia).
  set (a := Z.log2 (Qnum q)). set (b := Z.log2 (Z.pos (Qden q))).
  destruct (Z.log2_spec _ Hn) as [Ha1 Ha2]. fold a in Ha1, Ha2.
  destruct (Z.log2_spec (Z.pos (Qden q)) eq_refl) as [Hb1 Hb2]. fold b in Hb1, Hb2.
  assert (Ha0 : 0 ≤ a) by apply Z.log2_nonneg.
  assert (Hb0 : 0 ≤ b) by apply Z.log2_nonneg.
  assert (Hq' : (q == inject_Z (Qnum q) / inject_Z (Z.pos (Qden q)))%Q)
    by (destruct q; apply Qmake_Qdiv).
  rewrite Zle_Qle in Ha1, Hb1. rewrite Zlt_Qlt in Ha2, Hb2.
  replace (Z.succ a) with (a + 1) in Ha2 by lia.
  replace (Z.succ b) with (b + 1) in Hb2 by lia.
  rewrite pow2_inject in Ha1, Ha2, Hb1, Hb2 by lia.
  rewrite pow2_succ in Ha2, Hb2.
  pose proof (pow2_diff a b) as Hab.
  pose proof (pow2_diff (a - b - 1) (a - b)) as Hlow.
  replace (a - b - 1 - (a - b)) with (- (1)) in Hlow by lia.
  change (2 ^ (- (1)))%Q with (1 # 2)%Q in Hlow.
  pose proof (pow2_succ (a - b)) as Hhigh.
  pose proof (pow2_pos a) as Hpa. pose proof (pow2_pos b) as Hpb.
  pose proof (pow2_pos (a - b)) as Hpab.
  set (N := inject_Z (Qnum q)) in *. set (D := inject_Z (Z.pos (Qden q))) in *.
  set (A := (2 ^ a)%Q) in *. set (B := (2 ^ b)%Q) in *.
  set (L := (2 ^ (a - b))%Q) in *.
  assert (HD : (0 < D)%Q) by lra.
  assert (HqD : (q * D == N)%Q) by (rewrite Hq'; field; lra).
  assert (Hupper : (q < 2 * L)%Q).
  { apply Qmult_lt_r with D; [done|]. rewrite HqD.
    apply Qlt_le_trans with (2 * A)%Q; [done|]. rewrite <- Hab. nra. }
  assert (Hlower : ((1 # 2) * L < q)%Q).
  { apply Qmult_lt_r with D; [done|]. rewrite HqD.
    apply Qlt_le_trans with A; [|done]. rewrite <- Hab. nra. }
  destruct (Qle_bool L q) eqn:Htest.
  - apply Qle_bool_iff in Htest. split; [done|]. by rewrite Hhigh.
  - assert (¬ (L <= q)%Q) as Hnot by (rewrite <- Qle_bool_iff; congruence).
    apply Qnot_le_lt in Hnot.
    replace (a - b - 1 + 1) with (a - b) by lia.
    split; [rewrite <- Hlow; lra | done].
Qed.

Lemma ilog2_unique (q : Q) (k : Z) :
  (2 ^ k <= q)%Q → (q < 2 ^ (k + 1))%Q → ilog2 q = k.
Proof.
  intros Hlo Hhi.
  assert (Hq : (0 < q)%Q) by (pose proof (pow2_pos k); lra).
  destruct (ilog2_spec q Hq) as [Hlo' Hhi'].
  assert (ilog2 q < k + 1) by (apply pow2_mono_inv; lra).
  assert (k < ilog2 q + 1) by (apply pow2_mono_inv; lra).
  lia.
Qed.

Lemma ilog2_comp (q1 q2 : Q) : (q1 == q2)%Q → (0 < q1)%Q → ilog2 q1 = ilog2 q2.
Proof.
  intros Heq Hq. destruct (ilog2_spec q1 Hq) as [Hlo Hhi].
  symmetry. apply ilog2_unique; by rewrite <- Heq.
Qed.

#[global] Instance round_half_even_comp : Proper (Qeq ==> eq) round_half_even.
Proof.
  intros q1 q2 Heq. unfold round_half_even.
  rewrite (Qfloor_comp _ _ Heq). by rewrite Heq.
Qed.

Lemma round_half_even_near (q : Q) :
  (q - (1 # 2) <= inject_Z (round_half_even q))%Q ∧
  (inject_Z (round_half_even q) <= q + (1 # 2))%Q.
Proof.
  unfold round_half_even.
  pose proof (Qfloor_le q) as Hlo. pose proof (Qlt_floor q) as Hhi.
  rewrite inject_Z_plus in Hhi. change (inject_Z 1) with 1%Q in Hhi.
  destruct (Qcompare_spec (q - inject_Z (Qfloor q)) (1 # 2)) as [He|Hl|Hg].
  - destruct (Z.even (Qfloor q)); [lra|].
    rewrite inject_Z_plus. change (inject_Z 1) with 1%Q. lra.
  - lra.
  - rewrite inject_Z_plus. change (inject_Z 1) with 1%Q. lra.
Qed.

Lemma round_half_even_Z (z : Z) : round_half_even (inject_Z z) = z.
Proof.
  unfold round_half_even. rewrite Qfloor_Z.
  assert ((inject_Z z - inject_Z z ?= 1 # 2)%Q = Lt) as ->; [|done].
  apply (proj1 (Qlt_alt _ _)). lra.
Qed.

(** Rounding does not cross an integer. *)
Lemma round_half_even_le (q : Q) (k : Z) :
  (q <= inject_Z k)%Q → round_half_even q ≤ k.
Proof.
  intros Hq. pose proof (Qfloor_le q) as Hlo.
  assert (Hfl : Qfloor q ≤ k) by (rewrite Zle_Qle; lra).
  unfold round_half_even.
  destruct (decide (Qfloor q = k)) as [Heq|Hne].
  - assert ((q - inject_Z (Qfloor q) ?= 1 # 2)%Q = Lt) as ->; [|lia].
    apply (proj1 (Qlt_alt _ _)). rewrite Heq. lra.
  - destruct (q - inject_Z (Qfloor q) ?= 1 # 2)%Q; [destruct (Z.even _)| |]; lia.
Qed.

Lemma round_half_even_ge (q : Q) (k : Z) :
  (inject_Z k <= q)%Q → k ≤ round_half_even q.
Proof.
  intros Hq.
  assert (Hfl : k ≤ Qfloor q).
  { rewrite <- (Qfloor_Z k). by apply Qfloor_resp_le. }
  unfold round_half_even.
  destruct (q - inject_Z (Qfloor q) ?= 1 # 2)%Q; [destruct (Z.even _)| |]; lia.
Qed.

(** From [2^-1022] on, a positive rational is in the normal range: its
    exponent is that of its binade. *)
Lemma normal_exponent (q : Q) :
  (2 ^ (- 1022) <= q)%Q → Z.max (ilog2 q - 52) (- 1074) = ilog2 q - 52.
Proof.
  intros Hq.
  assert (Hpos : (0 < q)%Q) by (pose proof (pow2_pos (- 1022)); lra).
  destruct (ilog2_spec q Hpos) as [_ Hhi].
  assert (- 1022 < ilog2 q + 1) by (apply pow2_mono_inv; lra).
  lia.
Qed.

(** The scaled mantissa of a rational of the normal range lies in
    [2^52, 2^53). *)
Lemma mantissa_range (q : Q) :
  (0 < q)%Q →
  (inject_Z (2 ^ 52) <= q * 2 ^ (- (ilog2 q - 52)))%Q ∧
  (q * 2 ^ (- (ilog2 q - 52)) < inject_Z (2 ^ 53))%Q.
Proof.
  intros Hq. destruct (ilog2_spec q Hq) as [Hlo Hhi].
  rewrite pow2_succ in Hhi.
  replace (- (ilog2 q - 52)) with (52 + - ilog2 q) by lia.
  rewrite pow2_plus, !pow2_inject by lia.
  pose proof (pow2_cancel (ilog2 q)) as Hc.
  pose proof (pow2_pos (ilog2 q)) as Hp. pose proof (pow2_pos (- ilog2 q)) as Hn.
  pose proof (pow2_succ 52) as H53. change (52 + 1) with 53 in H53.
  pose proof (pow2_pos 52) as Hp52.
  set (P := (2 ^ ilog2 q)%Q) in *. set (I := (2 ^ (- ilog2 q))%Q) in *.
  set (T := (2 ^ 52)%Q) in *. rewrite H53.
  split.
  - setoid_replace T with (T * (I * P))%Q using relation Qeq at 1 by (rewrite Hc; ring). nra.
  - setoid_replace (2 * T)%Q with (2 * T * (I * P))%Q using relation Qeq by (rewrite Hc; ring). nra.
Qed.

Lemma round_mantissa_comp (q1 q2 : Q) :
  (q1 == q2)%Q → (0 < q1)%Q → round_mantissa q1 = round_mantissa q2.
Proof.
  intros Heq Hq. unfold round_mantissa.
  rewrite <- (ilog2_comp q1 q2 Heq Hq).
  do 2 f_equal. apply round_half_even_comp.
  apply Qmult_comp; [exact Heq | reflexivity].
Qed.

#[global] Instance round_double_comp : Proper (Qeq ==> eq) round_double.
Proof.
  intros q1 q2 Heq. unfold round_double. rewrite <- Heq.
  destruct (Qcompare_spec q1 0) as [H0|Hl|Hg]; [done| |].
  - f_equal. apply round_mantissa_comp; [by rewrite Heq | lra].
  - by apply round_mantissa_comp.
Qed.

Lemma round_mantissa_nonneg (q : Q) : (0 <= q)%Q → (0 <= round_mantissa q)%Q.
Proof.
  intros Hq. unfold round_mantissa.
  set (e := Z.max (ilog2 q - 52) (- 1074)).
  pose proof (pow2_pos (- e)) as Hp.
  assert (Hm : (inject_Z 0 <= q * 2 ^ (- e))%Q)
    by (change (inject_Z 0) with 0%Q; nra).
  apply round_half_even_ge in Hm. rewrite Zle_Qle in Hm.
  change (inject_Z 0) with 0%Q in Hm.
  apply Qmult_le_0_compat; [done|]. apply Qlt_le_weak, pow2_pos.
Qed.

Lemma round_double_nonneg (q : Q) : (0 <= q)%Q → (0 <= round_double q)%Q.
Proof.
  intros Hq. unfold round_double.
  destruct (Qcompare_spec q 0) as [H0|Hl|Hg]; [lra|lra|].
  apply round_mantissa_nonneg. lra.
Qed.

Lemma round_double_le_1 (q : Q) : (0 <= q)%Q → (q <= 1)%Q → (round_double q <= 1)%Q.
Proof.
  intros H0 H1. unfold round_double.
  destruct (Qcompare_spec q 0) as [Hz|Hl|Hg]; [lra|lra|].
  unfold round_mantissa.
  destruct (ilog2_spec q Hg) as [Hlo _].
  assert (Hneg : ilog2 q < 1).
  { apply pow2_mono_inv. change (2 ^ 1)%Q with 2%Q. lra. }
  set (e := Z.max (ilog2 q - 52) (- 1074)) in *.
  assert (He : e ≤ 0) by lia.
  assert (Hm : (q * 2 ^ (- e) <= inject_Z (2 ^ (- e)))%Q).
  { rewrite pow2_inject by lia. pose proof (pow2_pos (- e)). nra. }
  apply round_half_even_le in Hm. rewrite Zle_Qle in Hm.
  rewrite pow2_inject in Hm by lia.
  pose proof (pow2_cancel e) as Hc. pose proof (pow2_pos e) as Hp.
  set (M := inject_Z (round_half_even (q * 2 ^ (- e)))) in *.
  rewrite <- Hc. nra.
Qed.

(** In the normal range the relative error of rounding is at most
    [2^-53]. *)
Lemma round_mantissa_error (q : Q) :
  (2 ^ (- 1022) <= q)%Q → (Qabs (round_mantissa q - q) <= q * 2 ^ (- (53)))%Q.
Proof.
  intros Hnormal.
  assert (Hq : (0 < q)%Q) by (pose proof (pow2_pos (- 1022)); lra).
  unfold round_mantissa. rewrite (normal_exponent q Hnormal).
  destruct (ilog2_spec q Hq) as [Hlo _].
  set (e := ilog2 q - 52) in *.
  destruct (round_half_even_near (q * 2 ^ (- e))) as [Hn1 Hn2].
  set (M := inject_Z (round_half_even (q * 2 ^ (- e)))) in *.
  pose proof (pow2_cancel e) as Hc. pose proof (pow2_pos e) as Hp.
  pose proof (pow2_pos (- e)) as Hpn.
  assert (He : (2 ^ ilog2 q * 2 ^ (- (53)) == (1 # 2) * 2 ^ e)%Q).
  { unfold e. rewrite <- pow2_plus.
    replace (ilog2 q + - (53)) with (- (1) + (ilog2 q - 52)) by lia.
    rewrite pow2_plus. reflexivity. }
  pose proof (pow2_pos (- (53))) as Hp53.
  set (P := (2 ^ ilog2 q)%Q) in *. set (E := (2 ^ e)%Q) in *.
  set (I := (2 ^ (- e))%Q) in *. set (U := (2 ^ (- (53)))%Q) in *.
  assert (Hq' : (q == q * I * E)%Q) by (rewrite <- Qmult_assoc, Hc; ring).
  apply Qabs_Qle_condition. split.
  - apply Qle_trans with (- ((1 # 2) * E))%Q; [nra|].
    setoid_replace (M * E - q)%Q with ((M - q * I) * E)%Q using relation Qeq by (rewrite Hq' at 1; ring).
    nra.
  - apply Qle_trans with ((1 # 2) * E)%Q; [|nra].
    setoid_replace (M * E - q)%Q with ((M - q * I) * E)%Q using relation Qeq by (rewrite Hq' at 1; ring).
    nra.
Qed.

Lemma round_double_error (q : Q) :
  (q == 0)%Q ∨ (2 ^ (- 1022) <= Qabs q)%Q →
  (Qabs (round_double q - q) <= Qabs q * 2 ^ (- (53)))%Q.
Proof.
  intros Hnormal. unfold round_double.
  destruct (Qcompare_spec q 0) as [H0|Hl|Hg].
  - rewrite H0. vm_compute. discriminate.
  - destruct Hnormal as [?|Hnormal]; [lra|].
    rewrite (Qabs_neg q) in * by lra.
    pose proof (round_mantissa_error (- q) Hnormal) as He.
    setoid_replace (- round_mantissa (- q) - q)%Q
      with (- (round_mantissa (- q) - - q))%Q using relation Qeq by ring.
    by rewrite Qabs_opp.
  - destruct Hnormal as [?|Hnormal]; [lra|].
    rewrite (Qabs_pos q) in * by lra. by apply round_mantissa_error.
Qed.

(** Integers below [2^53] in magnitude are doubles. *)
Lemma round_mantissa_int (z : Z) :
  0 < z < 2 ^ 53 → (round_mantissa (inject_Z z) == inject_Z z)%Q.
Proof.
  intros Hz. unfold round_mantissa.
  assert (Hlog : ilog2 (inject_Z z) = Z.log2 z).
  { destruct (Z.log2_spec z) as [Hlo Hhi]; [lia|].
    pose proof (Z.log2_nonneg z).
    apply ilog2_unique; rewrite <- pow2_inject by lia.
    - by rewrite <- Zle_Qle.
    - rewrite <- Zlt_Qlt. lia. }
  rewrite Hlog.
  assert (Hle : Z.log2 z < 53) by (apply Z.log2_lt_pow2; lia).
  pose proof (Z.log2_nonneg z) as Hge.
  replace (Z.max (Z.log2 z - 52) (- 1074)) with (Z.log2 z - 52) by lia.
  set (e := Z.log2 z - 52) in *.
  assert (Hscaled : (inject_Z z * 2 ^ (- e) == inject_Z (z * 2 ^ (- e)))%Q)
    by (rewrite inject_Z_mult, pow2_inject by lia; reflexivity).
  rewrite Hscaled, round_half_even_Z, inject_Z_mult, pow2_inject by lia.
  rewrite <- Qmult_assoc, pow2_cancel. ring.
Qed.

Lemma double_of_int_exact (z : Z) :
  Z.abs z < 2 ^ 53 → (double_of_int z == inject_Z z)%Q.
Proof.
  intros Hz. unfold double_of_int, round_double.
  destruct (Qcompare_spec (inject_Z z) 0) as [H0|Hl|Hg].
  - by rewrite H0.
  - change 0%Q with (inject_Z 0) in Hl. rewrite <- Zlt_Qlt in Hl.
    rewrite <- inject_Z_opp, round_mantissa_int by lia.
    rewrite inject_Z_opp. ring.
  - change 0%Q with (inject_Z 0) in Hg. rewrite <- Zlt_Qlt in Hg.
    apply round_mantissa_int. lia.
Qed.

(** A quotient of integers that is not 0, with a divisor below [2^31],
    is in the normal range. *)
Lemma quotient_normal (a n : Z) :
  0 < n < 2 ^ 31 →
  (inject_Z a / inject_Z n == 0)%Q
  ∨ (2 ^ (- 1022) <= Qabs (inject_Z a / inject_Z n))%Q.
Proof.
  intros Hn.
  assert (HN : (0 < inject_Z n)%Q)
    by (change 0%Q with (inject_Z 0); rewrite <- Zlt_Qlt; lia).
  assert (Hbound : (inject_Z n <= 2 ^ 31)%Q).
  { rewrite <- pow2_inject by lia. rewrite <- Zle_Qle. lia. }
  assert (Hsmall : (2 ^ (- 1022) * inject_Z n <= 1)%Q).
  { pose proof (pow2_mono (- 1022) (- (31)) ltac:(lia)) as Hm.
    pose proof (pow2_cancel 31) as Hc. pose proof (pow2_pos (- (31))) as Hp.
    pose proof (pow2_pos (- 1022)) as Hp'.
    set (A := (2 ^ (- 1022))%Q) in *. set (B := (2 ^ (- (31)))%Q) in *.
    set (C := (2 ^ 31)%Q) in *. nra. }
  destruct (Z.eq_dec a 0) as [->|Ha]; [left; by vm_compute|]. right.
  pose proof (pow2_pos (- 1022)) as Hp.
  destruct (Z_lt_le_dec a 0) as [Hneg|Hpos].
  - assert (Hq : (inject_Z a / inject_Z n <= - (2 ^ (- 1022)))%Q).
    { apply Qle_shift_div_r; [done|].
      assert (inject_Z a <= - (1))%Q
        by (change (- (1))%Q with (inject_Z (- (1))); rewrite <- Zle_Qle; lia).
      lra. }
    rewrite Qabs_neg by lra. lra.
  - assert (Hq : (2 ^ (- 1022) <= inject_Z a / inject_Z n)%Q).
    { apply Qle_shift_div_l; [done|].
      assert (1 <= inject_Z a)%Q
        by (change 1%Q with (inject_Z 1); rewrite <- Zle_Qle; lia).
      lra. }
    rewrite Qabs_pos by lra. done.
Qed.

(** ** Machine integers and C strings *)

Lemma to_int_fits z : fits_int z → to_int z = z.
Proof.
  unfold fits_int, to_int. intros Hz.
  rewrite Z.mod_small by lia. lia.
Qed.

Lemma to_int_range z : fits_int (to_int z).
Proof.
  unfold fits_int, to_int.
  pose proof (Z.mod_pos_bound (z + 2 ^ 31) (2 ^ 32)). lia.
Qed.

Lemma c_str_nul_free s : nul_free s = true → c_str s = s.
Proof.
  induction s as [|c s IH]; simpl; [done|].
  destruct (Ascii.eqb c zero); simpl; [done|].
  intros Hs. by rewrite IH.
Qed.

Lemma c_str_idemp s : c_str (c_str s) = c_str s.
Proof.
  induction s as [|c s IH]; simpl; [done|].
  destruct (Ascii.eqb c zero) eqn:Hc; simpl; [done|].
  by rewrite Hc, IH.
Qed.

(** ** The store *)

Section StoreFacts.
Import Store.

Lemma runs_reliable ts n : runs (reliable ts) n.
Proof. done. Qed.

(** *** Ranks in a list sorted downwards *)

Lemma desc_sorted_head_max (x : Z) (l : list Z) :
  StronglySorted desc (x :: l) → filter (λ y, x < y) l = [].
Proof.
  intros Hs. apply StronglySorted_inv in Hs as [_ Hall].
  induction Hall as [|y l Hy _ IH]; [done|].
  rewrite filter_cons. unfold desc in Hy.
  destruct (decide (x < y)); [lia | done].
Qed.

Lemma newest_ids_rank (l : list Z) :
  StronglySorted desc l → NoDup l →
  ∀ (n : nat) (x : Z), x ∈ l →
    x ∈ take n l ↔ (length (filter (λ y, (x < y)%Z) l) < n)%nat.
Proof.
  induction l as [|a l IH]; intros Hs Hnd n x Hx.
  { by apply elem_of_nil in Hx. }
  pose proof (StronglySorted_inv Hs) as [Hs' Hall].
  apply NoDup_cons in Hnd as [Ha Hnd].
  destruct n as [|n].
  { simpl. split; [intros Hin; by apply elem_of_nil in Hin | lia]. }
  simpl take. rewrite filter_cons.
  destruct (decide (x = a)) as [->|Hne].
  - rewrite (desc_sorted_head_max _ _ Hs).
    destruct (decide (a < a)); [lia|]. simpl.
    split; [lia | intros _; apply list_elem_of_here].
  - apply elem_of_cons in Hx as [?|Hx]; [done|].
    assert (x < a).
    { rewrite Forall_forall in Hall. specialize (Hall _ Hx).
      unfold desc in Hall. lia. }
    destruct (decide (x < a)); [|lia]. simpl.
    rewrite elem_of_cons, (IH Hs' Hnd n x Hx). split.
    + intros [?|?]; [done | lia].
    + intros ?. right. lia.
Qed.

Lemma filter_length_fmap_id (P : Z → Prop) `{∀ z, Decision (P z)} (rows : list LogEntry) :
  length (filter P (id <$> rows)) = length (filter (λ r, P (id r)) rows).
Proof.
  induction rows as [|r rows IH]; [done|].
  rewrite fmap_cons, !filter_cons.
  destruct (decide (P (id r))); simpl; by rewrite IH.
Qed.

Lemma desc_trans : Transitive desc.
Proof. unfold desc. intros x y z ??. lia. Qed.

Lemma desc_total : Total desc.
Proof. unfold desc. intros x y. lia. Qed.

Lemma newest_first_sorted (l : list Z) : StronglySorted desc (merge_sort desc l).
Proof. apply StronglySorted_merge_sort; [apply desc_trans | apply desc_total]. Qed.

(** What DELETE ... NOT IN (SELECT ... LIMIT n) keeps: the rows that
    fewer than [n] rows are newer than. *)
Lemma delete_older_keeps (n : nat) (tb : sqlite3) :
  NoDup (id <$> requests tb) →
  ∀ r, r ∈ requests (delete_older (Z.of_nat n) tb) ↔
       r ∈ requests tb ∧
       (length (filter (λ r', (id r < id r')%Z) (requests tb)) < n)%nat.
Proof.
  intros Hnd r. unfold delete_older, select_newest_ids, limit. simpl.
  destruct (decide (Z.of_nat n < 0)); [lia|]. rewrite Nat2Z.id.
  rewrite list_elem_of_filter.
  set (ids := id <$> requests tb) in *.
  pose proof (merge_sort_Permutation desc ids) as Hperm.
  split.
  - intros [Hin Hr]. split; [done|].
    rewrite <- (filter_length_fmap_id (λ y, id r < y)). fold ids.
    rewrite <- Hperm.
    apply newest_ids_rank; [apply newest_first_sorted | | |done].
    + by rewrite Hperm.
    + rewrite Hperm. apply list_elem_of_fmap. eauto.
  - intros [Hr Hlt]. split; [|done].
    apply newest_ids_rank; [apply newest_first_sorted | | |].
    + by rewrite Hperm.
    + rewrite Hperm. apply list_elem_of_fmap. eauto.
    + rewrite Hperm. unfold ids.
      by rewrite (filter_length_fmap_id (λ y, id r < y)).
Qed.

Lemma delete_older_length (n : nat) (tb : sqlite3) :
  NoDup (id <$> requests tb) →
  (length (requests (delete_older (Z.of_nat n) tb)) ≤ n)%nat.
Proof.
  intros Hnd. unfold delete_older, select_newest_ids, limit. simpl.
  destruct (decide (Z.of_nat n < 0)); [lia|]. rewrite Nat2Z.id.
  set (kept := take n _).
  assert (Hsub : filter (λ r, id r ∈ kept) (requests tb) `sublist_of` requests tb)
    by apply sublist_filter.
  rewrite <- (length_fmap id).
  transitivity (length kept); [|unfold kept; rewrite length_take; lia].
  apply submseteq_length, NoDup_submseteq.
  - eapply sublist_NoDup; [exact Hnd|]. by apply fmap_sublist.
  - intros x [r [-> Hr]]%list_elem_of_fmap.
    by apply list_elem_of_filter in Hr as [? _].
Qed.

Lemma delete_older_NoDup (n : Z) (tb : sqlite3) :
  NoDup (id <$> requests tb) → NoDup (id <$> requests (delete_older n tb)).
Proof.
  intros Hnd. eapply sublist_NoDup; [exact Hnd|].
  apply fmap_sublist, sublist_filter.
Qed.

Lemma foldr_max_ge (z : Z) (l : list Z) :
  z ≤ foldr Z.max z l ∧ ∀ x, x ∈ l → x ≤ foldr Z.max z l.
Proof.
  induction l as [|a l [IH1 IH2]]; simpl.
  - split; [lia|]. intros x Hx. by apply elem_of_nil in Hx.
  - split; [lia|]. intros x [->|Hx]%elem_of_cons; [lia|].
    specialize (IH2 _ Hx). lia.
Qed.

(** A fresh row never repeats an id: the primary key stays a key. *)
Lemma insert_request_NoDup env t tb :
  NoDup (id <$> requests tb) → NoDup (id <$> requests (insert_request env t tb)).
Proof.
  intros Hnd. destruct t. simpl. rewrite fmap_app. simpl.
  apply NoDup_app. split; [done|]. split; [|apply NoDup_singleton].
  intros x Hx Hin. apply list_elem_of_singleton in Hin. subst x.
  pose proof (foldr_max_ge (sqlite_sequence tb) (id <$> requests tb)) as [_ Hmax].
  specialize (Hmax _ Hx). unfold next_id in Hmax. lia.
Qed.

End StoreFacts.

Section StoreClaims.
Import Store.

(** Whatever the engine answers, a call of the writer keeps the handle
    open and the ids unique. *)
Lemma logInteractionSync_keeps_key env t d tb :
  db_ d = Some tb → NoDup (id <$> requests tb) →
  ∃ tb', db_ (logInteractionSync env t d).2 = Some tb' ∧
         NoDup (id <$> requests tb').
Proof.
  intros Hdb Hnd. unfold logInteractionSync. rewrite Hdb.
  destruct (prepare_ok env 0); simpl; [|by eauto].
  destruct (step_ok env 0); simpl; [|by eauto].
  pose proof (insert_request_NoDup env t tb Hnd) as Hnd1.
  eexists. split; [reflexivity|].
  destruct (prepare_ok env 1); [|done].
  destruct (step_ok env 1); [|done].
  by apply delete_older_NoDup.
Qed.

(** After 120 inserts into a fresh table the rows are those with ids 21
    to 120. *)
Example history_after_120_inserts :
  (λ tb, id <$> requests tb) <$> db_ (run_inserts 120 (open_db empty_tables))
  = Some (seqZ 21 100).
Proof. vm_compute. reflexivity. Qed.

(** C4. After every completed log insert (the handle is open and the
    INSERT and the history-limit DELETE of [logInteractionSync] both
    run), the table holds at most 100 rows, and the rows kept are
    exactly those of the table with the new row that fewer than 100
    rows are newer than, in their order; ids stay unique. *)
Theorem history_bound_after_insert env t d tb :
  db_ d = Some tb →
  NoDup (id <$> requests tb) →
  runs env 0 → runs env 1 →
  ∃ tb',
    logInteractionSync env t d = (None, with_db d tb') ∧
    (length (requests tb') ≤ 100)%nat ∧
    (∀ r, r ∈ requests tb' ↔
          r ∈ requests (insert_request env t tb) ∧
          (length (filter (λ r', (id r < id r')%Z)
                     (requests (insert_request env t tb))) < 100)%nat) ∧
    requests tb' `sublist_of` requests (insert_request env t tb) ∧
    NoDup (id <$> requests tb').
Proof.
  intros Hdb Hnd [Hp0 Hs0] [Hp1 Hs1].
  exists (delete_older kMaxHistoryEntries (insert_request env t tb)).
  pose proof (insert_request_NoDup env t tb Hnd) as Hnd1.
  split; [|split; [|split; [|split]]].
  - unfold logInteractionSync. by rewrite Hdb, Hp0, Hs0, Hp1, Hs1.
  - apply (delete_older_length 100 _ Hnd1).
  - apply (delete_older_keeps 100 _ Hnd1).
  - apply sublist_filter.
  - by apply delete_older_NoDup.
Qed.

Lemma history_bound_after_insert_witness :
  db_ (open_db full_tables) = Some full_tables ∧
  ∃ tb',
    logInteractionSync (reliable "now") (sample_task 12) (open_db full_tables)
      = (None, with_db (open_db full_tables) tb') ∧
    (length (requests tb') ≤ 100)%nat ∧
    (∀ r, r ∈ requests tb' ↔
          r ∈ requests (insert_request (reliable "now") (sample_task 12) full_tables) ∧
          (length (filter (λ r', (id r < id r')%Z)
                     (requests (insert_request (reliable "now") (sample_task 12)
                                  full_tables))) < 100)%nat) ∧
    requests tb' `sublist_of`
      requests (insert_request (reliable "now") (sample_task 12) full_tables) ∧
    NoDup (id <$> requests tb').
Proof.
  split; [reflexivity|].
  apply (history_bound_after_insert (reliable "now") (sample_task 12)
           (open_db full_tables) full_tables).
  - reflexivity.
  - apply (bool_decide_unpack _). vm_compute. exact I.
  - split; reflexivity.
  - split; reflexivity.
Defined.

(** *** The cache table *)

Lemma cacheResponse_runs env k s b d tb :
  db_ d = Some tb → runs env 0 →
  cacheResponse env k s b d = (None, with_db d (replace_cache k s b tb)).
Proof.
  intros Hdb [Hp Hs]. unfold cacheResponse. by rewrite Hdb, Hp, Hs.
Qed.

Lemma getCachedResponse_runs env k d tb :
  db_ d = Some tb → runs env 0 →
  getCachedResponse env k d
  = (λ e, (to_int e.1, c_str e.2)) <$> cache tb !! c_str k.
Proof.
  intros Hdb [Hp Hs]. unfold getCachedResponse. by rewrite Hdb, Hp, Hs.
Qed.

(** A call leaves the handle open, and changes the cache at most at the
    key it was given. *)
Lemma cacheResponse_frame env k' s b d tb k :
  db_ d = Some tb → c_str k' ≠ c_str k →
  ∃ tb', db_ (cacheResponse env k' s b d).2 = Some tb' ∧
         cache tb' !! c_str k = cache tb !! c_str k.
Proof.
  intros Hdb Hne. unfold cacheResponse. rewrite Hdb.
  destruct (prepare_ok env 0); simpl; [|by eauto].
  destruct (step_ok env 0); simpl; [|by eauto].
  eexists. split; [done|]. simpl. by rewrite lookup_insert_ne.
Qed.

Lemma cache_puts_frame ops k : ∀ d tb,
  db_ d = Some tb →
  Forall (λ op, c_str op.1.1.2 ≠ c_str k) ops →
  ∃ tb', db_ (cache_puts ops d) = Some tb' ∧
         cache tb' !! c_str k = cache tb !! c_str k.
Proof.
  induction ops as [|op ops IH]; intros d tb Hdb Hall.
  { exists tb. by split. }
  apply Forall_cons in Hall as [Hop Hall].
  destruct (cacheResponse_frame op.1.1.1 op.1.1.2 op.1.2 op.2 d tb k Hdb Hop)
    as (tb1 & Hdb1 & Hk1).
  destruct (IH _ _ Hdb1 Hall) as (tb2 & Hdb2 & Hk2).
  exists tb2. split; [exact Hdb2 | congruence].
Qed.

(** C8, as amended.  Text reaches the engine as a C string.  After a
    [cacheResponse(k, s, b)] that runs, [getCachedResponse(k)] returns
    [s] with [b] up to its first NUL byte, hence [(s, b)] when [b] holds
    no NUL byte; a later [cacheResponse(k, s', b')] replaces the entry
    without adding a row (last write wins, keys unique); and
    [getCachedResponse(k)] returns absent when the table had no entry
    for [k] and none of the calls made since stored a key with the same
    bytes up to the first NUL. *)
Theorem cache_last_write_wins e1 e2 e3 d tb k s b s' b' :
  db_ d = Some tb →
  runs e1 0 → runs e2 0 → runs e3 0 →
  fits_int s → fits_int s' →
  getCachedResponse e3 k (cacheResponse e1 k s b d).2 = Some (s, c_str b) ∧
  (nul_free b = true →
   getCachedResponse e3 k (cacheResponse e1 k s b d).2 = Some (s, b)) ∧
  getCachedResponse e3 k
    (cacheResponse e2 k s' b' (cacheResponse e1 k s b d).2).2 = Some (s', c_str b') ∧
  (nul_free b' = true →
   getCachedResponse e3 k
     (cacheResponse e2 k s' b' (cacheResponse e1 k s b d).2).2 = Some (s', b')) ∧
  (∃ tb1 tb2,
     db_ (cacheResponse e1 k s b d).2 = Some tb1 ∧
     db_ (cacheResponse e2 k s' b' (cacheResponse e1 k s b d).2).2 = Some tb2 ∧
     size (cache tb2) = size (cache tb1)) ∧
  (∀ ops, cache tb !! c_str k = None →
     Forall (λ op, c_str op.1.1.2 ≠ c_str k) ops →
     getCachedResponse e3 k (cache_puts ops d) = None).
Proof.
  intros Hdb H1 H2 H3 Hs Hs'.
  rewrite (cacheResponse_runs e1 k s b d tb Hdb H1). simpl.
  rewrite (cacheResponse_runs e2 k s' b' (with_db d (replace_cache k s b tb))
             (replace_cache k s b tb) eq_refl H2).
  simpl.
  assert (Hget1 : getCachedResponse e3 k (with_db d (replace_cache k s b tb))
                  = Some (s, c_str b)).
  { rewrite (getCachedResponse_runs e3 k (with_db d (replace_cache k s b tb))
               (replace_cache k s b tb) eq_refl H3).
    simpl. rewrite lookup_insert_eq. simpl. by rewrite to_int_fits, c_str_idemp. }
  assert (Hget2 : getCachedResponse e3 k
                    (with_db (with_db d (replace_cache k s b tb))
                       (replace_cache k s' b' (replace_cache k s b tb)))
                  = Some (s', c_str b')).
  { rewrite (getCachedResponse_runs e3 k
               (with_db (with_db d (replace_cache k s b tb))
                  (replace_cache k s' b' (replace_cache k s b tb)))
               (replace_cache k s' b' (replace_cache k s b tb)) eq_refl H3).
    simpl. rewrite lookup_insert_eq. simpl. by rewrite to_int_fits, c_str_idemp. }
  split; [exact Hget1|].
  split; [intros Hb; by rewrite Hget1, c_str_nul_free|].
  split; [exact Hget2|].
  split; [intros Hb; by rewrite Hget2, c_str_nul_free|].
  split.
  - eexists _, _. split; [done|]. split; [done|]. simpl.
    apply map_size_insert_Some. rewrite lookup_insert_eq. by eexists.
  - intros ops Hk Hall.
    destruct (cache_puts_frame ops k d tb Hdb Hall) as (tb' & Hdb' & Hk').
    rewrite (getCachedResponse_runs e3 k _ _ Hdb' H3), Hk', Hk. done.
Qed.

Lemma cache_last_write_wins_witness :
  getCachedResponse (reliable "") "q" (open_db empty_tables) = None ∧
  getCachedResponse (reliable "") "q"
    (cacheResponse (reliable "") "q" 200 "first" (open_db empty_tables)).2
  = Some (200, "first") ∧
  getCachedResponse (reliable "") "q"
    (cacheResponse (reliable "") "q" 404 "second"
       (cacheResponse (reliable "") "q" 200 "first" (open_db empty_tables)).2).2
  = Some (404, "second").
Proof.
  pose proof (cache_last_write_wins (reliable "") (reliable "") (reliable "")
                (open_db empty_tables) empty_tables "q" 200 "first" 404 "second"
                eq_refl (runs_reliable "" 0) (runs_reliable "" 0) (runs_reliable "" 0))
    as Hw.
  destruct Hw as (_ & H1 & _ & H2 & _ & H3).
  - unfold fits_int. lia.
  - unfold fits_int. lia.
  - split; [exact (H3 [] eq_refl (Forall_nil_2 _))|].
    split; [exact (H1 eq_refl) | exact (H2 eq_refl)].
Defined.

(** C8 as stated fails on a body that holds a NUL byte: what comes back
    is the body cut at that byte. *)
Lemma cache_roundtrip_counterexample :
  getCachedResponse (reliable "") "q"
    (cacheResponse (reliable "") "q" 200 nul_body (open_db empty_tables)).2
  ≠ Some (200, nul_body).
Proof. vm_compute. discriminate. Qed.

(** *** Aggregates *)

Lemma cache_hits_length rows : (length (cache_hits rows) ≤ length rows)%nat.
Proof. apply length_filter. Qed.

Lemma sum_list_added (l : list Z) : sum_list l = added l.
Proof.
  unfold sum_list, added.
  assert (Hgen : ∀ acc, foldl Z.add acc l = acc + foldr Z.add 0 l).
  { induction l as [|z l IH]; intros acc; simpl; [lia|]. rewrite IH. lia. }
  rewrite Hgen. lia.
Qed.

Lemma added_abs (l : list Z) : Z.abs (added l) ≤ added (Z.abs <$> l).
Proof.
  rewrite <- !sum_list_added. unfold sum_list.
  induction l as [|z l IH]; [done|].
  rewrite fmap_cons. cbn [foldr]. lia.
Qed.

(** What [getMetrics] computes when its queries run. *)
Lemma getMetrics_runs env d tb :
  db_ d = Some tb →
  runs env 0 → runs env 1 → runs env 2 →
  Z.of_nat (length (requests tb)) < 2 ^ 31 →
  requests tb ≠ [] →
  getMetrics env d
  = {| total_requests := Z.of_nat (length (requests tb));
       avg_latency_ms :=
         fdiv (double_of_int (sum_list (duration_ms <$> requests tb)))
              (double_of_int (Z.of_nat (length (requests tb))));
       cache_hit_rate :=
         fdiv (double_of_int (Z.of_nat (length (cache_hits (requests tb)))))
              (double_of_int (Z.of_nat (length (requests tb)))) |}.
Proof.
  intros Hdb [Hp0 Hs0] [Hp1 Hs1] [Hp2 Hs2] Hlen Hne.
  unfold getMetrics. rewrite Hdb, Hp0, Hs0, Hp1, Hs1, Hp2, Hs2. simpl.
  assert (Hfit : fits_int (Z.of_nat (length (requests tb))))
    by (unfold fits_int; lia).
  rewrite (to_int_fits _ Hfit).
  pose proof (cache_hits_length (requests tb)) as Hhits. unfold cache_hits in *.
  rewrite to_int_fits by (unfold fits_int; lia).
  f_equal.
  - unfold sql_avg. rewrite length_fmap.
    by destruct (requests tb) as [|r rows].
  - destruct (Z.ltb_spec 0 (Z.of_nat (length (requests tb)))) as [|Hz]; [done|].
    destruct (requests tb); [done | simpl in Hz; lia].
Qed.

(** C7, as amended.  When the three queries of [getMetrics] run on an
    open handle, the row count fits an [int] and the durations add up to
    less than [2^53] in magnitude, [total_requests] is the number of
    rows, [avg_latency_ms] is the arithmetic mean of [duration_ms] over
    all rows, zeros included, rounded to the nearest double, and
    [cache_hit_rate] is the number of rows with [duration_ms = 0] over
    [total_requests], rounded to the nearest double; each is within a
    relative error of [2^-53] of the exact value.  On an empty table
    both are 0. *)
Theorem getMetrics_aggregates env d tb :
  db_ d = Some tb →
  runs env 0 → runs env 1 → runs env 2 →
  Z.of_nat (length (requests tb)) < 2 ^ 31 →
  added (Z.abs <$> (duration_ms <$> requests tb)) < 2 ^ 53 →
  total_requests (getMetrics env d) = Z.of_nat (length (requests tb)) ∧
  (requests tb ≠ [] →
   avg_latency_ms (getMetrics env d)
   = round_double (mean (duration_ms <$> requests tb)) ∧
   cache_hit_rate (getMetrics env d)
   = round_double (inject_Z (Z.of_nat (length (cache_hits (requests tb))))
                   / inject_Z (total_requests (getMetrics env d))) ∧
   (Qabs (avg_latency_ms (getMetrics env d) - mean (duration_ms <$> requests tb))
    <= Qabs (mean (duration_ms <$> requests tb)) * 2 ^ (- (53)))%Q ∧
   (Qabs (cache_hit_rate (getMetrics env d)
          - inject_Z (Z.of_nat (length (cache_hits (requests tb))))
            / inject_Z (total_requests (getMetrics env d)))
    <= inject_Z (Z.of_nat (length (cache_hits (requests tb))))
       / inject_Z (total_requests (getMetrics env d)) * 2 ^ (- (53)))%Q) ∧
  (requests tb = [] →
   avg_latency_ms (getMetrics env d) = 0%Q ∧
   cache_hit_rate (getMetrics env d) = 0%Q).
Proof.
  intros Hdb H0 H1 H2 Hlen Hsum.
  destruct (decide (requests tb = [])) as [Hnil|Hne].
  { destruct H0 as [Hp0 Hs0], H1 as [Hp1 Hs1], H2 as [Hp2 Hs2].
    unfold getMetrics. rewrite Hdb, Hp0, Hs0, Hp1, Hs1, Hp2, Hs2, Hnil. simpl.
    split; [done|]. split; [by intros ?|done]. }
  rewrite (getMetrics_runs env d tb Hdb H0 H1 H2 Hlen Hne). simpl.
  split; [done|]. split; [|done]. intros _.
  set (n := Z.of_nat (length (requests tb))) in *.
  set (k := Z.of_nat (length (cache_hits (requests tb)))).
  assert (Hn : 0 < n) by (unfold n; destruct (requests tb); [done | simpl; lia]).
  assert (Hk : 0 ≤ k ≤ n).
  { unfold k, n. pose proof (cache_hits_length (requests tb)). lia. }
  pose proof (added_abs (duration_ms <$> requests tb)) as Habs.
  assert (Havg : fdiv (double_of_int (sum_list (duration_ms <$> requests tb)))
                      (double_of_int n)
                 = round_double (mean (duration_ms <$> requests tb))).
  { unfold fdiv, mean. apply round_double_comp.
    rewrite length_fmap. fold n.
    rewrite !double_of_int_exact by (rewrite ?sum_list_added; lia).
    by rewrite sum_list_added. }
  assert (Hrate : fdiv (double_of_int k) (double_of_int n)
                  = round_double (inject_Z k / inject_Z n)).
  { unfold fdiv. apply round_double_comp.
    by rewrite !double_of_int_exact by lia. }
  rewrite Havg, Hrate.
  split; [done|]. split; [done|].
  split; [unfold mean; rewrite length_fmap; fold n;
          apply round_double_error, quotient_normal; lia|].
  assert (Hq : (0 <= inject_Z k / inject_Z n)%Q).
  { apply Qle_shift_div_l; [change 0%Q with (inject_Z 0); rewrite <- Zlt_Qlt; lia|].
    rewrite Qmult_0_l. change 0%Q with (inject_Z 0). rewrite <- Zle_Qle. lia. }
  eapply Qle_trans; [apply round_double_error, quotient_normal; lia|].
  rewrite Qabs_pos by exact Hq. apply Qle_refl.
Qed.

Lemma getMetrics_aggregates_witness :
  total_requests (getMetrics (reliable "") (open_db full_tables)) = 100 ∧
  avg_latency_ms (getMetrics (reliable "") (open_db full_tables))
  = round_double (mean (duration_ms <$> requests full_tables)) ∧
  cache_hit_rate (getMetrics (reliable "") (open_db full_tables))
  = round_double (inject_Z 33 / inject_Z 100).
Proof.
  destruct (getMetrics_aggregates (reliable "") (open_db full_tables) full_tables
              eq_refl (runs_reliable "" 0) (runs_reliable "" 1) (runs_reliable "" 2))
    as (Ht & Hrows & _).
  - vm_compute. reflexivity.
  - vm_compute. reflexivity.
  - destruct Hrows as (Havg & Hrate & _); [discriminate|].
    split; [exact Ht|]. split; [exact Havg|].
    rewrite Hrate, Ht. reflexivity.
Defined.

(** C7 as stated fails wherever the quotient is no double: with
    durations 0, 0 and 1 the mean is 1/3 and the hit rate 2/3, and
    [getMetrics] returns the doubles next to them,
    0x1.5555555555555p-2 and 0x1.5555555555555p-1. *)
Lemma getMetrics_counterexample :
  mean (duration_ms <$> requests three_rows) = (inject_Z 1 / inject_Z 3)%Q ∧
  ¬ (avg_latency_ms (getMetrics (reliable "") (open_db three_rows))
     == mean (duration_ms <$> requests three_rows))%Q ∧
  ¬ (cache_hit_rate (getMetrics (reliable "") (open_db three_rows))
     == inject_Z 2 / inject_Z 3)%Q ∧
  (avg_latency_ms (getMetrics (reliable "") (open_db three_rows))
   == inject_Z 6004799503160661 / inject_Z (2 ^ 54))%Q ∧
  (cache_hit_rate (getMetrics (reliable "") (open_db three_rows))
   == inject_Z 6004799503160661 / inject_Z (2 ^ 53))%Q.
Proof. repeat split; vm_compute; (reflexivity || discriminate). Qed.

(** *** Reads before [init] *)

(** C10. With a null handle every read returns absent or zeros:
    [getLogs], [getLog] and [getCachedResponse] return absent and
    [getMetrics] returns all zeros, whatever the engine would answer. *)
Theorem reads_on_null_handle env limit i request_body queue :
  getLogs env limit {| db_ := None; write_queue_ := queue |} = None ∧
  getLog env i {| db_ := None; write_queue_ := queue |} = None ∧
  getCachedResponse env request_body {| db_ := None; write_queue_ := queue |} = None ∧
  getMetrics env {| db_ := None; write_queue_ := queue |}
  = {| total_requests := 0; avg_latency_ms := 0; cache_hit_rate := 0 |}.
Proof. repeat split. Qed.

End StoreClaims.

(** ** The telemetry extractor *)

Section ExtractorFacts.
Context {rvalue : Type} `{Json rvalue}.
Import Proxy Spec.

(** *** [rfind] and the lines of a prefix *)

Lemma rfind_None (s : list ascii) c p :
  cpp.rfind s c p = None → ∀ i, (i ≤ p)%nat → s !! i ≠ Some c.
Proof.
  induction p as [|p IH]; simpl; case_decide; try discriminate; intros Hr i Hi.
  - by replace i with 0%nat by lia.
  - destruct (decide (i = S p)) as [->|]; [done|]. apply IH; [done|lia].
Qed.

Lemma rfind_Some (s : list ascii) c p i :
  cpp.rfind s c p = Some i →
  (i ≤ p)%nat ∧ s !! i = Some c ∧ ∀ j, (i < j ≤ p)%nat → s !! j ≠ Some c.
Proof.
  induction p as [|p IH]; simpl; case_decide; intros Hr; simplify_eq.
  - split; [lia|]. split; [done|]. intros; lia.
  - split; [lia|]. split; [done|]. intros; lia.
  - destruct (IH Hr) as (Hle & Hi & Hno).
    split; [lia|]. split; [done|]. intros j Hj.
    destruct (decide (j = S p)) as [->|]; [done|]. apply Hno. lia.
Qed.

Lemma lines_nonempty (s : list ascii) : lines s ≠ [].
Proof. induction s; simpl; [done|]. case_decide; [done|]. by destruct (lines s). Qed.

Lemma lines_no_nl (s : list ascii) : cpp.nl ∉ s → lines s = [s].
Proof.
  induction s as [|c s IH]; simpl; [done|]. intros Hnl.
  apply not_elem_of_cons in Hnl as [Hc Hs].
  case_decide; [done|]. by rewrite (IH Hs).
Qed.

Lemma lines_app_nl (a b : list ascii) :
  lines (a ++ cpp.nl :: b) = lines a ++ lines b.
Proof.
  induction a as [|c a IH].
  - change (lines ([] ++ cpp.nl :: b)) with
      (if decide (cpp.nl = cpp.nl) then [] :: lines b
       else match lines b with l :: ls => (cpp.nl :: l) :: ls | [] => [[cpp.nl]] end).
    by destruct (decide (cpp.nl = cpp.nl)).
  - simpl. destruct (decide (c = cpp.nl)); [by rewrite IH|]. rewrite IH.
    pose proof (lines_nonempty a). by destruct (lines a).
Qed.

Lemma take_split_at (s : list ascii) i p c :
  s !! i = Some c → (i ≤ p)%nat →
  take (S p) s = take i s ++ c :: take (p - i) (drop (S i) s).
Proof.
  intros Hi Hle.
  pose proof (lookup_lt_Some _ _ _ Hi) as Hlt.
  rewrite <- (take_drop_middle s i c Hi) at 1.
  rewrite take_app_ge by (rewrite length_take; lia).
  rewrite length_take. replace (S p - i `min` length s)%nat with (S (p - i)) by lia.
  done.
Qed.

Lemma segment_no_nl (s : list ascii) i p :
  (∀ j, (i < j ≤ p)%nat → s !! j ≠ Some cpp.nl) →
  cpp.nl ∉ take (p - i) (drop (S i) s).
Proof.
  intros Hno [k [Hk Hlt]]%elem_of_take.
  rewrite lookup_drop in Hk. apply (Hno (S i + k)%nat); [lia | done].
Qed.

Lemma prefix_no_nl (s : list ascii) p :
  (∀ j, (j ≤ p)%nat → s !! j ≠ Some cpp.nl) → cpp.nl ∉ take (S p) s.
Proof.
  intros Hno [k [Hk Hlt]]%elem_of_take. apply (Hno k); [lia | done].
Qed.

(** *** One line *)

Lemma read_field_found json key set conv m found m' :
  read_field json key set conv (m, found) = Ok (m', false) →
  m' = m ∧ found = false.
Proof.
  unfold read_field. destruct (has json key); [destruct (get_i json key)|];
    simpl; intros; simplify_eq; done.
Qed.

(** A line that does not end the scan leaves [metrics] as it was. *)
Lemma read_summary_continue json m m' :
  read_summary json m = Ok (m', false) → m' = m.
Proof.
  unfold read_summary.
  destruct (read_field json "prompt_eval_count" _ _ _) as [[m1 f1]|] eqn:E1;
    simpl; [|discriminate].
  destruct (read_field json "eval_count" _ _ _) as [[m2 f2]|] eqn:E2;
    simpl; [|discriminate].
  destruct (read_field json "prompt_eval_duration" _ _ _) as [[m3 f3]|] eqn:E3;
    simpl; [|discriminate].
  destruct (read_field json "eval_duration" _ _ _) as [[m4 f4]|] eqn:E4;
    simpl; [|discriminate].
  destruct f4; [discriminate|].
  apply read_field_found in E4 as [-> ->].
  apply read_field_found in E3 as [-> ->].
  apply read_field_found in E2 as [-> ->].
  apply read_field_found in E1 as [-> _].
  destruct (has json "done"); [destruct (get_b json "done")|];
    intros; simplify_eq; done.
Qed.

Lemma read_line_continue line m m' :
  read_line line m = Ok (m', false) → m' = m.
Proof.
  unfold read_line. destruct line as [|c line]; [by intros; simplify_eq|].
  destruct (Ascii.eqb c "{"); [|by intros; simplify_eq].
  destruct (load _); [apply read_summary_continue | by intros; simplify_eq].
Qed.

(** *** The loop is a pass over the lines, last line first *)

(** One turn of the loop at [S p]: the line it reads is the last line
    of the prefix of length [S p], and what it leaves to scan are the
    lines before that one. *)
Lemma iteration_lines (s : list ascii) (p : nat) (m : ResponseMetrics) :
  ∃ line rest,
    reverse (lines (take (S p) s)) = line :: rest ∧
    match read_line (trim line) m with
    | Ok (m', true) => iteration s (S p) m = Ok (Break m')
    | Ok (m', false) =>
      (rest = [] ∧ iteration s (S p) m = Ok (Break m')) ∨
      (∃ i, rest = reverse (lines (take i s)) ∧
            iteration s (S p) m = Ok (Next i m'))
    | Thrown m' => iteration s (S p) m = Thrown m'
    end.
Proof.
  unfold iteration. replace (S p - 1)%nat with p by lia.
  destruct (cpp.rfind s cpp.nl p) as [i|] eqn:Hr.
  - apply rfind_Some in Hr as (Hle & Hi & Hno).
    exists (take (p - i) (drop (S i) s)), (reverse (lines (take i s))).
    split.
    { rewrite (take_split_at s i p cpp.nl Hi Hle), lines_app_nl.
      rewrite (lines_no_nl (take (p - i) _)) by by apply segment_no_nl.
      by rewrite reverse_app. }
    unfold cpp.substr. replace (S p - S i)%nat with (p - i)%nat by lia.
    destruct (read_line _ m) as [[m' []]|m']; simpl; [done| |done].
    right. exists i. split; [done|].
    by rewrite Nat.sub_0_r.
  - pose proof (rfind_None _ _ _ Hr) as Hno.
    exists (take (S p) s), []. split.
    { by rewrite (lines_no_nl (take (S p) s)) by by apply prefix_no_nl. }
    unfold cpp.substr. rewrite drop_0. replace (S p - 0)%nat with (S p) by lia.
    destruct (read_line _ m) as [[m' []]|m']; simpl; [done| |done].
    left. split; [done|]. by destruct (decide (0%nat = 0%nat)).
Qed.

Lemma scan_first_stop (s : list ascii) (pos : nat) (m : ResponseMetrics) :
  scan s pos m = first_stop (reverse (lines (take pos s))) m.
Proof.
  funelim (scan s pos m); [reflexivity | | |];
    match goal with
    | e : iteration ?r (S ?p) ?m0 = _ |- _ =>
      destruct (iteration_lines r p m0) as (line & rest & -> & Hit);
      simpl; destruct (read_line (trim line) m0) as [[m' []]|m'];
      [congruence | | congruence]
    end.
  - destruct Hit as [[-> Hit]|(i & _ & Hit)]; simpl; congruence.
  - destruct Hit as [[-> Hit]|(i & -> & Hit)]; [congruence|].
    rewrite e in Hit. injection Hit as -> ->.
    match goal with IH : scan _ _ _ = first_stop _ _ |- _ => exact IH end.
  - destruct Hit as [[-> Hit]|(i & _ & Hit)]; congruence.
Qed.

(** *** What a line does to the scan *)

Lemma read_line_object (line : list ascii) (m : ResponseMetrics) :
  read_line (trim line) m
  = match object_of_line line with
    | Some j => read_summary j m
    | None => Ok (m, false)
    end.
Proof.
  unfold read_line, object_of_line.
  destruct (trim line) as [|c t]; [done|].
  by destruct (Ascii.eqb c "{").
Qed.

Lemma read_summary_stops (j : rvalue) (m : ResponseMetrics) :
  result_of (read_summary j m)
  = if stops j then (read_until_failure j telemetry_fields m, true) else (m, false).
Proof.
  unfold read_summary, read_field, stops, carries_telemetry, telemetry_fields.
  simpl.
  destruct (has j "prompt_eval_count"); [destruct (get_i j "prompt_eval_count")|];
  simpl; try done;
  (destruct (has j "eval_count"); [destruct (get_i j "eval_count")|];
   simpl; try done;
   (destruct (has j "prompt_eval_duration");
    [destruct (get_i j "prompt_eval_duration")|];
    simpl; try done;
    (destruct (has j "eval_duration"); [destruct (get_i j "eval_duration")|];
     simpl; try done))).
  destruct (has j "done"); simpl; [|done].
  destruct (get_b j "done") as [[]|]; done.
Qed.

Lemma first_stop_find (ls : list (list ascii)) (m : ResponseMetrics) :
  first_stop ls m
  = match list_find (λ j, stops j = true) (omap object_of_line ls) with
    | Some (_, j) => read_until_failure j telemetry_fields m
    | None => m
    end.
Proof.
  induction ls as [|l ls IH]; [done|].
  simpl. rewrite read_line_object.
  destruct (object_of_line l) as [j|]; [|exact IH].
  pose proof (read_summary_stops j m) as Hj.
  simpl. destruct (decide (stops j = true)) as [Hs|Hs].
  - rewrite Hs in Hj.
    destruct (read_summary j m) as [[m' b]|m']; simpl in Hj; by simplify_eq.
  - apply not_true_is_false in Hs. rewrite Hs in Hj.
    destruct (read_summary j m) as [[m' b]|m']; simpl in Hj; simplify_eq.
    rewrite IH. by destruct (list_find _ _) as [[]|].
Qed.

(** The extractor is the amended description, on every body. *)
Lemma extractMetrics_amended (body : string) :
  extractMetrics body = amended_extract body.
Proof.
  unfold extractMetrics, amended_extract, objects.
  by rewrite scan_first_stop, firstn_all, first_stop_find.
Qed.

(** *** Lines whose fields have the expected types *)

Lemma list_find_agree {A} (P Q : A → Prop) `{∀ x, Decision (P x)} `{∀ x, Decision (Q x)}
    (l : list A) :
  Forall (λ x, P x ↔ Q x) l → list_find P l = list_find Q l.
Proof.
  induction 1 as [|x l Hx _ IH]; [done|]. simpl.
  destruct (decide (P x)), (decide (Q x)); [done|tauto|tauto|by rewrite IH].
Qed.

Lemma well_typed_stops (j : rvalue) :
  well_typed j = true → stops j = is_summary j.
Proof.
  unfold well_typed, stops, is_summary, done_true.
  destruct (carries_telemetry j); [done|]. simpl.
  destruct (has j "done"); simpl; [|done].
  rewrite !andb_true_iff. intros (_ & Hb).
  apply bool_decide_eq_true in Hb as [b Hb]. rewrite Hb. by destruct b.
Qed.

Lemma well_typed_read (j : rvalue) :
  well_typed j = true →
  read_until_failure j telemetry_fields no_metrics = narrow (summary j).
Proof.
  unfold well_typed, numeric, summary, narrow, field, telemetry_fields.
  rewrite !andb_true_iff. intros ((((H1 & H2) & H3) & H4) & _). simpl.
  destruct (has j "prompt_eval_count"); simpl in H1;
    [apply bool_decide_eq_true in H1 as [v1 ->]|];
  (destruct (has j "eval_count"); simpl in H2;
    [apply bool_decide_eq_true in H2 as [v2 ->]|];
   (destruct (has j "prompt_eval_duration"); simpl in H3;
     [apply bool_decide_eq_true in H3 as [v3 ->]|];
    (destruct (has j "eval_duration"); simpl in H4;
      [apply bool_decide_eq_true in H4 as [v4 ->]|]; reflexivity))).
Qed.

Lemma extractMetrics_well_typed (body : string) :
  Forall (λ j, well_typed j = true) (objects body) →
  extractMetrics body = narrow (claimed_extract body).
Proof.
  intros Hwt. rewrite extractMetrics_amended.
  unfold amended_extract, claimed_extract.
  rewrite (list_find_agree (λ j, stops j = true) (λ j, is_summary j = true)).
  - destruct (list_find _ _) as [[i j]|] eqn:Hf; [|done].
    apply list_find_Some in Hf as (Hj%list_elem_of_lookup_2 & _).
    rewrite Forall_forall in Hwt. by apply well_typed_read, Hwt.
  - eapply Forall_impl; [exact Hwt|]. simpl. intros j Hj.
    by rewrite (well_typed_stops j Hj).
Qed.

Lemma narrow_fits (m : ResponseMetrics) :
  fits_int (prompt_tokens m) → fits_int (completion_tokens m) → narrow m = m.
Proof.
  intros H1 H2. destruct m. unfold narrow. simpl in *.
  by rewrite !to_int_fits.
Qed.

Lemma extractMetrics_no_stop (body : string) :
  Forall (λ j, stops j = false) (objects body) → extractMetrics body = no_metrics.
Proof.
  intros Hno. rewrite extractMetrics_amended. unfold amended_extract.
  destruct (list_find _ _) as [[i j]|] eqn:Hf; [|done].
  apply list_find_Some in Hf as (Hj%list_elem_of_lookup_2 & Hs & _).
  rewrite Forall_forall in Hno. specialize (Hno _ Hj). congruence.
Qed.

End ExtractorFacts.

(** C3, as amended.  [extractMetrics] is a total function (it never
    throws) that scans the lines of the body from the end backward and
    stops at the first line that parses as a JSON object and either
    carries one of [prompt_eval_count], [eval_count],
    [prompt_eval_duration], [eval_duration], or has a [done] that is
    true or is no boolean.  It returns that line's counts converted to
    32-bit [int] and its two durations divided by 1,000,000 (quotient
    towards zero), absent fields being 0; the fields are read in that
    order and a field that is no number ends the reading, leaving it and
    the later ones 0.  When on every JSON-object line the telemetry
    fields present are numbers and a present [done] is a boolean, the
    result is that of the description as first stated, with the counts
    converted to [int]; it is exactly that result when the counts fit an
    [int].  An empty body, and a body with no such line, give
    (0,0,0,0); lines that are not JSON objects are skipped. *)
Theorem extractMetrics_scans_backward {rvalue : Type} `{Json rvalue} :
  (∀ body, Proxy.extractMetrics body = Spec.amended_extract body) ∧
  (∀ body,
     Forall (λ j, Spec.well_typed j = true) (Spec.objects body) →
     Proxy.extractMetrics body = Spec.narrow (Spec.claimed_extract body) ∧
     (fits_int (Proxy.prompt_tokens (Spec.claimed_extract body)) →
      fits_int (Proxy.completion_tokens (Spec.claimed_extract body)) →
      Proxy.extractMetrics body = Spec.claimed_extract body)) ∧
  Proxy.extractMetrics "" = Proxy.no_metrics ∧
  (∀ body,
     Forall (λ j, Spec.stops j = false) (Spec.objects body) →
     Proxy.extractMetrics body = Proxy.no_metrics).
Proof.
  split; [apply extractMetrics_amended|].
  split; [|split; [reflexivity | apply extractMetrics_no_stop]].
  intros body Hwt. split; [by apply extractMetrics_well_typed|].
  intros H1 H2. rewrite (extractMetrics_well_typed body Hwt).
  by apply narrow_fits.
Qed.

Lemma extractMetrics_scans_backward_witness :
  Forall (λ j, Spec.well_typed j = true) (Spec.objects ndjson_body) ∧
  Proxy.extractMetrics ndjson_body
  = {| Proxy.prompt_tokens := 5; Proxy.completion_tokens := 7;
       Proxy.prompt_eval_duration_ms := 200; Proxy.eval_duration_ms := 400 |}.
Proof.
  assert (Hwt : Forall (λ j, Spec.well_typed j = true) (Spec.objects ndjson_body)).
  { apply (bool_decide_unpack _). vm_compute. exact I. }
  split; [exact Hwt|].
  destruct (@extractMetrics_scans_backward FlatJson.object FlatJson.json)
    as (_ & Hbody & _).
  destruct (Hbody ndjson_body Hwt) as [_ Hexact].
  rewrite Hexact.
  - vm_compute. reflexivity.
  - vm_compute. split; [discriminate | reflexivity].
  - vm_compute. split; [discriminate | reflexivity].
Defined.

(** C3 as stated fails on a count beyond the range of [int]: the
    extractor returns the count reduced to 32 bits. *)
Lemma extractMetrics_counterexample :
  Proxy.extractMetrics wide_count_body ≠ Spec.claimed_extract wide_count_body ∧
  Proxy.prompt_tokens (Proxy.extractMetrics wide_count_body) = 5 ∧
  Proxy.prompt_tokens (Spec.claimed_extract wide_count_body) = 4294967301.
Proof. vm_compute. repeat split. discriminate. Qed.

(** ** The proxy engine *)

Section HandlerFacts.
Context {rvalue : Type} `{Json rvalue} (to_string : Error → string).
Import Proxy.

Lemma deliver_http start cs : ∀ st,
  deliver (http_receiver start) st cs = (http_received start st cs, true).
Proof.
  induction cs as [|c cs IH]; intros [[t a] b]; [done|].
  simpl. by rewrite IH.
Qed.

Lemma milliseconds_mono x y : 0 ≤ x ≤ y → 0 ≤ milliseconds x ≤ milliseconds y.
Proof.
  intros [Hx Hxy]. unfold milliseconds. split.
  - apply Z.quot_pos; lia.
  - apply Z.quot_le_mono; lia.
Qed.

Lemma milliseconds_positive x : 0 ≤ x → 0 < milliseconds x ↔ 1000000 ≤ x.
Proof.
  intros Hx. unfold milliseconds. rewrite Z.quot_div_nonneg by lia.
  split; intros Hm.
  - destruct (Z_lt_le_dec x 1000000) as [Hlt|]; [|done].
    rewrite Z.div_small in Hm by lia. lia.
  - apply Z.div_str_pos. lia.
Qed.

(** [ttft_ms] stays between 0 and the bound on every reading taken. *)
Lemma http_received_ttft start D cs : ∀ t a b,
  0 ≤ t ≤ D →
  Forall (λ c, 0 ≤ milliseconds (arrival c - start) ≤ D) cs →
  0 ≤ (http_received start (t, a, b) cs).1.1 ≤ D.
Proof.
  induction cs as [|c cs IH]; intros t a b Ht Hall; [done|].
  apply Forall_cons in Hall as [Hc Hall]. simpl.
  apply IH; [|done]. by destruct (t =? 0).
Qed.

(** Once non-zero, [ttft_ms] is not written again. *)
Lemma http_received_ttft_set start cs : ∀ t a b,
  t ≠ 0 → (http_received start (t, a, b) cs).1.1 = t.
Proof.
  induction cs as [|c cs IH]; intros t a b Ht; [done|].
  simpl. destruct (t =? 0) eqn:Ht0; [apply Z.eqb_eq in Ht0; done|].
  by apply IH.
Qed.

Lemma cacheResponse_queue env k s b d :
  Store.write_queue_ (Store.cacheResponse env k s b d).2 = Store.write_queue_ d.
Proof.
  unfold Store.cacheResponse. destruct (Store.db_ d); [|done].
  destruct (Store.prepare_ok env 0); [|done].
  by destruct (Store.step_ok env 0).
Qed.

(** The forward path of [handleRequest], laid out: the response, the
    one log entry, what happened to the cache, and the calls made. *)
Lemma handleRequest_miss h w req res target :
  cached_response h w req = None →
  ∃ res' db' stored t,
    handleRequest to_string h w req res target
    = (res', with_database h (Store.logInteractionAsync t db'),
       (if skip_cache h req then [] else [CacheLookup (req_body req)])
       ++ [Post target (req_body req)] ++ stored ++ [LogSubmit t]) ∧
    Store.write_queue_ db' = Store.write_queue_ (db_ h) ∧
    Store.task_status t = res_code res' ∧
    Store.task_duration_ms t = milliseconds (end_time w - start_time w) ∧
    Store.task_ttft_ms t
    = (http_received (start_time w) (0, "", res_body res) (chunks (upstream w))).1.1 ∧
    match outcome (upstream w) with
    | inl err =>
      res_code res' = 500 ∧
      res_body res' = "Error forwarding request to Ollama: " +:+ to_string err ∧
      Store.task_response_body t = res_body res' ∧
      db' = db_ h ∧ stored = []
    | inr status =>
      res_code res' = status ∧
      Store.task_response_body t
      = (http_received (start_time w) (0, "", res_body res) (chunks (upstream w))).1.2 ∧
      if (status =? 200) && negb (String.eqb (Store.task_response_body t) "")
      then db' = (Store.cacheResponse (sql_store w) (req_body req) status
                    (Store.task_response_body t) (db_ h)).2 ∧
           stored = [CacheStore (req_body req) status (Store.task_response_body t)]
      else db' = db_ h ∧ stored = []
    end.
Proof.
  intros Hmiss. unfold handleRequest. rewrite Hmiss.
  unfold send. rewrite deliver_http. simpl res_body.
  destruct (http_received _ _ _) as [[ttft acc] body] eqn:Hrecv.
  destruct (outcome (upstream w)) as [err|status]; simpl.
  - eexists _, _, [], _. split; [reflexivity|]. simpl. done.
  - destruct ((status =? 200) && negb (String.eqb acc "")) eqn:Hc; simpl.
    + eexists _, _, [CacheStore _ _ _], _. split; [reflexivity|]. simpl.
      rewrite Hc, cacheResponse_queue. done.
    + eexists _, _, [], _. split; [reflexivity|]. simpl.
      rewrite Hc. done.
Qed.

(** The hit path of [handleRequest], laid out. *)
Lemma handleRequest_hit h w req res target cached :
  cached_response h w req = Some cached →
  ∃ res' t,
    handleRequest to_string h w req res target
    = (res', with_database h (Store.logInteractionAsync t (db_ h)),
       (if skip_cache h req then [] else [CacheLookup (req_body req)])
       ++ [LogSubmit t]) ∧
    res_code res' = cached.1 ∧ res_body res' = cached.2 ∧
    Store.task_duration_ms t = 0 ∧ Store.task_ttft_ms t = 0.
Proof.
  intros Hhit. unfold handleRequest. rewrite Hhit.
  eexists _, _. split; [reflexivity|]. done.
Qed.

Lemma submitted_app e1 e2 : submitted (e1 ++ e2) = submitted e1 ++ submitted e2.
Proof. apply omap_app. Qed.

Lemma frames_app e1 e2 : frames (e1 ++ e2) = frames e1 ++ frames e2.
Proof. apply omap_app. Qed.

Lemma lookups_app e1 e2 : lookups (e1 ++ e2) = lookups e1 ++ lookups e2.
Proof. apply omap_app. Qed.

Lemma stores_app e1 e2 : stores (e1 ++ e2) = stores e1 ++ stores e2.
Proof. apply omap_app. Qed.

(** *** The chat receiver *)

(** What [send] hands to the chat receiver: the chunks up to the first
    one that finds the session inactive; it completes only when there
    is none. *)
Lemma deliver_ws start cs : ∀ t full sent,
  ∃ t' full',
    deliver (ws_receiver start) (t, full, sent) cs
    = ((t', full', sent ++ ((λ c, SendText (data c)) <$> active_prefix cs)),
       forallb active_on_arrival cs).
Proof.
  induction cs as [|c cs IH]; intros t full sent.
  { exists t, full. simpl. by rewrite app_nil_r. }
  simpl. destruct (active_on_arrival c) eqn:Hc; simpl.
  - destruct (IH (if t =? 0 then milliseconds (arrival c - start) else t)
                (full +:+ data c) (sent ++ [SendText (data c)]))
      as (t' & full' & ->).
    exists t', full'. by rewrite <- app_assoc.
  - eexists _, _. by rewrite app_nil_r.
Qed.

Lemma ws_received_app start cs1 cs2 st :
  ws_received start st (cs1 ++ cs2) = ws_received start (ws_received start st cs1) cs2.
Proof. apply foldl_app. Qed.

Lemma deliver_ws_cancelled start cs1 c cs2 : ∀ st,
  Forall (λ c, active_on_arrival c = true) cs1 →
  active_on_arrival c = false →
  ∃ st',
    deliver (ws_receiver start) st (cs1 ++ c :: cs2) = (st', false) ∧
    st'.1.2 = (ws_received start st cs1).1.2 ∧
    st'.2 = (ws_received start st cs1).2.
Proof.
  induction cs1 as [|c1 cs1 IH]; intros [[t full] sent] Hall Hc.
  - cbn [app deliver ws_receiver]. rewrite Hc. cbn. eexists. by split.
  - apply Forall_cons in Hall as [Hc1 Hall].
    cbn [app deliver ws_receiver ws_received foldl]. rewrite Hc1. cbn [negb fst].
    apply (IH _ Hall Hc).
Qed.

(** The read is cancelled at the first chunk that finds the session
    inactive; the chunks after it are never handed over. *)
Lemma send_ws_cancelled start cs1 c cs2 out st :
  Forall (λ c, active_on_arrival c = true) cs1 →
  active_on_arrival c = false →
  ∃ st',
    send (ws_receiver start) st {| chunks := cs1 ++ c :: cs2; outcome := out |}
    = (st', inl Canceled) ∧
    st'.1.2 = (ws_received start st cs1).1.2 ∧
    st'.2 = (ws_received start st cs1).2.
Proof.
  intros Hall Hc. unfold send. cbn [chunks outcome].
  destruct (deliver_ws_cancelled start cs1 c cs2 st Hall Hc) as (st' & -> & H1 & H2).
  by exists st'.
Qed.

Lemma frames_of_chunks (cs : list Chunk) :
  frames ((λ c, SendText (data c)) <$> cs) = data <$> cs.
Proof.
  induction cs as [|c cs IH]; [done|].
  change (data c :: frames ((λ c, SendText (data c)) <$> cs) = data c :: (data <$> cs)).
  by rewrite IH.
Qed.

Lemma submitted_of_chunks (cs : list Chunk) :
  submitted ((λ c, SendText (data c)) <$> cs) = [].
Proof. by induction cs. Qed.

Lemma stores_of_chunks (cs : list Chunk) :
  stores ((λ c, SendText (data c)) <$> cs) = [].
Proof. by induction cs. Qed.

(** A chat turn that reaches the upstream call, laid out. *)
Lemma handleWebSocketRequest_forward h w message :
  ws_forwards h w message = true →
  ∃ before,
    frames before = data <$> active_prefix (chunks (ws_upstream w)) ∧
    submitted before = [] ∧ stores before = [] ∧
    ((active_after_send w = false ∧
      handleWebSocketRequest h w message = (Returns, h, before)) ∨
     (active_after_send w = true ∧
      handleWebSocketRequest h w message
      = (Returns, h,
         before ++ [SendText (js "{'error': 'Failed to connect to Ollama'}")])) ∨
     (active_after_send w = true ∧
      ∃ t db' stored,
        handleWebSocketRequest h w message
        = (Returns, with_database h db', before ++ LogSubmit t :: stored) ∧
        submitted stored = [] ∧ frames stored = [] ∧
        Store.task_status t = 200 ∧
        Store.task_duration_ms t = milliseconds (ws_end_time w - ws_start_time w))).
Proof.
  unfold ws_forwards, handleWebSocketRequest.
  destruct (load message) as [j|]; [|done].
  rewrite !andb_true_iff.
  intros (((Hmiss%bool_decide_eq_true & Hmodel) & [m Hs]%bool_decide_eq_true) & Hmsg).
  rewrite Hmodel, Hs, Hmiss, Hmsg. unfold send.
  destruct (deliver_ws (ws_start_time w) (chunks (ws_upstream w)) 0 "" [])
    as (t' & full' & ->).
  set (sent := (λ c, SendText (data c)) <$> active_prefix (chunks (ws_upstream w))).
  exists ((if cache_enabled_ h then [CacheLookup message] else [])
          ++ [Post "/api/chat" (dump_chat m j)] ++ sent).
  split; [|split; [|split]].
  - rewrite !frames_app. unfold sent. rewrite frames_of_chunks.
    by destruct (cache_enabled_ h).
  - rewrite !submitted_app. unfold sent. rewrite submitted_of_chunks.
    by destruct (cache_enabled_ h).
  - rewrite !stores_app. unfold sent. rewrite stores_of_chunks.
    by destruct (cache_enabled_ h).
  - simpl. destruct (active_after_send w); [|by left].
    right.
    destruct (match (if forallb _ _ then outcome (ws_upstream w) else inl Canceled)
              with inl _ => true | inr status => negb (status =? 200) end);
      [by left|].
    right. split; [done|].
    destruct (cache_enabled_ h && negb (String.eqb full' "")).
    + eexists _, _, [CacheStore _ _ _]. split; [reflexivity|]. done.
    + eexists _, _, []. split; [reflexivity|]. done.
Qed.

Lemma ws_forwards_miss h w message :
  ws_forwards h w message = true → ws_cached_response h w message = None.
Proof.
  unfold ws_forwards. destruct (load message); [|done].
  rewrite !andb_true_iff. by intros (((?%bool_decide_eq_true & _) & _) & _).
Qed.

(** Every log entry a chat turn submits carries 0 on the cache path and
    the elapsed milliseconds otherwise. *)
Lemma handleWebSocketRequest_submitted h w message t :
  t ∈ submitted (handleWebSocketRequest h w message).2 →
  match ws_cached_response h w message with
  | Some _ => Store.task_duration_ms t = 0
  | None => Store.task_duration_ms t = milliseconds (ws_end_time w - ws_start_time w)
  end.
Proof.
  intros Ht. destruct (ws_forwards h w message) eqn:Hf.
  - rewrite (ws_forwards_miss _ _ _ Hf).
    destruct (handleWebSocketRequest_forward h w message Hf)
      as (before & _ & Hsub & _ & Hcase).
    destruct Hcase as [[_ E]|[[_ E]|[_ (t0 & db' & stored & E & Hs & _ & _ & Hd)]]];
      rewrite E in Ht; simpl in Ht.
    + rewrite Hsub in Ht. by apply elem_of_nil in Ht.
    + rewrite submitted_app, Hsub in Ht. by apply elem_of_nil in Ht.
    + rewrite submitted_app, Hsub in Ht.
      change (t ∈ t0 :: submitted stored) in Ht. rewrite Hs in Ht.
      apply list_elem_of_singleton in Ht. by subst.
  - revert Ht Hf. unfold handleWebSocketRequest, ws_forwards.
    destruct (load message) as [j|]; [|by intros Ht%elem_of_nil].
    destruct (has j "model") eqn:Hm.
    + destruct (get_s j "model") as [m|] eqn:Hs; [|by intros Ht%elem_of_nil].
      destruct (ws_cached_response h w message) as [cached|].
      * simpl. rewrite submitted_app. destruct (cache_enabled_ h); simpl;
          intros Ht%list_elem_of_singleton _; by subst.
      * destruct (has j "messages"); simpl.
        { intros _ Hf. exfalso. revert Hf.
          rewrite ?bool_decide_eq_true_2 by (done || by eexists). done. }
        rewrite submitted_app.
        destruct (cache_enabled_ h), (active_in_catch w); simpl;
          by intros Ht%elem_of_nil.
    + destruct (ws_cached_response h w message) as [cached|].
      * simpl. rewrite submitted_app. destruct (cache_enabled_ h); simpl;
          intros Ht%list_elem_of_singleton _; by subst.
      * simpl. rewrite submitted_app.
        destruct (cache_enabled_ h), (active_in_catch w); simpl;
          by intros Ht%elem_of_nil.
Qed.

Lemma submitted_looked_up (b : bool) k :
  submitted (if b then [] else [CacheLookup k]) = [].
Proof. by destruct b. Qed.

Lemma handleRequest_submitted h w req res target :
  ∃ t, submitted (handleRequest to_string h w req res target).2 = [t] ∧
       Store.write_queue_ (db_ (handleRequest to_string h w req res target).1.2)
       = Store.write_queue_ (db_ h) ++ [t] ∧
       match cached_response h w req with
       | Some _ => Store.task_duration_ms t = 0
       | None => Store.task_duration_ms t = milliseconds (end_time w - start_time w)
       end.
Proof.
  destruct (cached_response h w req) as [cached|] eqn:Hc.
  - destruct (handleRequest_hit h w req res target cached Hc)
      as (res' & t & -> & _ & _ & Hd & _).
    exists t. simpl. by rewrite submitted_app, submitted_looked_up.
  - destruct (handleRequest_miss h w req res target Hc)
      as (res' & db' & stored & t & -> & Hq & _ & Hd & _ & Hout).
    exists t. simpl. rewrite Hq.
    rewrite submitted_app, submitted_looked_up. simpl.
    change (submitted (Post target (req_body req) :: stored ++ [LogSubmit t]))
      with (submitted (stored ++ [LogSubmit t])).
    rewrite submitted_app.
    assert (Hst : submitted stored = []).
    { destruct (outcome (upstream w)) as [err|status].
      - by destruct Hout as (_ & _ & _ & _ & ->).
      - destruct Hout as (_ & _ & Hif).
        destruct (_ && _); by destruct Hif as [_ ->]. }
    by rewrite Hst.
Qed.

End HandlerFacts.

(** What holds of the durations on every call: a log entry submitted
    for a request served from the cache has [duration_ms = 0], on the
    HTTP path and on the chat path; an entry of a non-cached path
    carries the whole number of milliseconds between the two clock
    readings, which with a monotonic clock is never negative, and is
    strictly positive exactly when at least one full millisecond has
    passed. *)
Lemma duration_zero_on_cache_hit {rvalue : Type} `{Json rvalue}
    (to_string : Error → string)
    (h : Proxy.ProxyHandler) (w : Proxy.HttpCall) (req : Proxy.request)
    (res : Proxy.response) (target : string)
    (hw : Proxy.ProxyHandler) (ww : Proxy.ChatTurn) (message : string) :
  (∃ t, submitted (Proxy.handleRequest to_string h w req res target).2 = [t] ∧
        match Proxy.cached_response h w req with
        | Some _ => Store.task_duration_ms t = 0
        | None =>
          Store.task_duration_ms t
          = milliseconds (Proxy.end_time w - Proxy.start_time w)
        end) ∧
  (∀ t, t ∈ submitted (Proxy.handleWebSocketRequest hw ww message).2 →
        match Proxy.ws_cached_response hw ww message with
        | Some _ => Store.task_duration_ms t = 0
        | None =>
          Store.task_duration_ms t
          = milliseconds (Proxy.ws_end_time ww - Proxy.ws_start_time ww)
        end) ∧
  (∀ start now, start ≤ now →
     0 ≤ milliseconds (now - start) ∧
     (0 < milliseconds (now - start) ↔ 1000000 ≤ now - start)).
Proof.
  split; [|split].
  - destruct (handleRequest_submitted to_string h w req res target)
      as (t & Ht & _ & Hd). by exists t.
  - apply handleWebSocketRequest_submitted.
  - intros start now Hle. split.
    + apply (milliseconds_mono 0 (now - start)). lia.
    + apply milliseconds_positive. lia.
Qed.

Lemma duration_zero_on_cache_hit_witness :
  1000000000 ≤ 2000000000 ∧
  0 < milliseconds (2000000000 - 1000000000) ∧
  Store.task_duration_ms <$>
    submitted (Proxy.handleRequest httplib_to_string (handler true Store.empty_tables)
                 (slow_call two_chunks) generate_request fresh_response
                 "/api/generate").2 = [1000].
Proof.
  destruct (duration_zero_on_cache_hit httplib_to_string (handler true Store.empty_tables)
              (slow_call two_chunks) generate_request fresh_response "/api/generate"
              (handler true Store.empty_tables) (closed_turn two_chunks) chat_message)
    as ((t & Ht & Hd) & _ & Hclock).
  destruct (Hclock 1000000000 2000000000) as [_ Hpos]; [lia|].
  split; [lia|]. split; [apply Hpos; lia|].
  rewrite Ht. simpl. f_equal. exact Hd.
Defined.

(** C2, at a failing input.  A call that is forwarded, not served from
    the cache, and ends within the first millisecond is logged with
    [duration_ms = 0], the mark of a cache hit: on the HTTP path a
    connection the upstream refuses at once, on the chat path an answer
    that arrives at once.  Once the writer has stored the entry,
    [getMetrics] counts it under [duration_ms = 0]: one request, no
    cache hit, and a cache hit rate of 1. *)
Theorem forwarded_call_marked_as_cache_hit :
  Proxy.cached_response (handler true Store.empty_tables) (quick_call refused)
    generate_request = None ∧
  posts (Proxy.handleRequest httplib_to_string (handler true Store.empty_tables)
           (quick_call refused) generate_request fresh_response "/api/generate").2
  = [("/api/generate", Proxy.req_body generate_request)] ∧
  Store.task_duration_ms <$>
    submitted (Proxy.handleRequest httplib_to_string (handler true Store.empty_tables)
                 (quick_call refused) generate_request fresh_response
                 "/api/generate").2 = [0] ∧
  Store.total_requests
    (Store.getMetrics (Store.reliable "")
       (Store.processWriteQueue (Store.reliable "")
          (Proxy.db_ (Proxy.handleRequest httplib_to_string
                        (handler true Store.empty_tables) (quick_call refused)
                        generate_request fresh_response "/api/generate").1.2))) = 1 ∧
  (Store.cache_hit_rate
     (Store.getMetrics (Store.reliable "")
        (Store.processWriteQueue (Store.reliable "")
           (Proxy.db_ (Proxy.handleRequest httplib_to_string
                         (handler true Store.empty_tables) (quick_call refused)
                         generate_request fresh_response "/api/generate").1.2)))
   == 1)%Q ∧
  Proxy.ws_cached_response (handler true Store.empty_tables) (quick_turn prompt_reply)
    chat_message = None ∧
  ws_forwards (handler true Store.empty_tables) (quick_turn prompt_reply)
    chat_message = true ∧
  Store.task_duration_ms <$>
    submitted (Proxy.handleWebSocketRequest (handler true Store.empty_tables)
                 (quick_turn prompt_reply) chat_message).2 = [0].
Proof. repeat split; vm_compute; reflexivity. Qed.

(** C5. When the upstream send of [handleRequest] fails, the client
    gets status 500 and the body "Error forwarding request to Ollama: "
    followed by the error's reason, and one log entry with that status,
    that body and the elapsed milliseconds is submitted to the store. *)
Theorem upstream_failure_answers_500 {rvalue : Type} `{Json rvalue}
    (to_string : Error → string)
    (h : Proxy.ProxyHandler) (w : Proxy.HttpCall) (req : Proxy.request)
    (res : Proxy.response) (target : string) (err : Error) :
  Proxy.cached_response h w req = None →
  outcome (Proxy.upstream w) = inl err →
  ∃ res' h' events t,
    Proxy.handleRequest to_string h w req res target = (res', h', events) ∧
    Proxy.res_code res' = 500 ∧
    Proxy.res_body res' = "Error forwarding request to Ollama: " +:+ to_string err ∧
    Proxy.res_ended res' = true ∧
    submitted events = [t] ∧
    Store.write_queue_ (Proxy.db_ h') = Store.write_queue_ (Proxy.db_ h) ++ [t] ∧
    Store.db_ (Proxy.db_ h') = Store.db_ (Proxy.db_ h) ∧
    Store.task_status t = 500 ∧
    Store.task_response_body t = Proxy.res_body res' ∧
    Store.task_duration_ms t = milliseconds (Proxy.end_time w - Proxy.start_time w).
Proof.
  intros Hmiss Herr.
  unfold Proxy.handleRequest. rewrite Hmiss. unfold send.
  rewrite deliver_http, Herr.
  destruct (http_received _ _ _) as [[ttft acc] body]. simpl.
  eexists _, _, _, _. split; [reflexivity|]. simpl.
  rewrite submitted_app, submitted_looked_up. done.
Qed.

Lemma upstream_failure_answers_500_witness :
  Proxy.cached_response (handler true Store.empty_tables) (slow_call refused)
    generate_request = None ∧
  ∃ res' h' events t,
    Proxy.handleRequest httplib_to_string (handler true Store.empty_tables)
      (slow_call refused) generate_request fresh_response "/api/generate"
    = (res', h', events) ∧
    Proxy.res_code res' = 500 ∧
    Proxy.res_body res'
    = "Error forwarding request to Ollama: Could not establish connection" ∧
    Proxy.res_ended res' = true ∧
    submitted events = [t] ∧
    Store.write_queue_ (Proxy.db_ h') = [] ++ [t] ∧
    Store.db_ (Proxy.db_ h') = Some Store.empty_tables ∧
    Store.task_status t = 500 ∧
    Store.task_response_body t = Proxy.res_body res' ∧
    Store.task_duration_ms t = 1000.
Proof.
  split; [reflexivity|].
  apply (upstream_failure_answers_500 httplib_to_string
           (handler true Store.empty_tables) (slow_call refused) generate_request
           fresh_response "/api/generate" Connection); reflexivity.
Defined.

(** What holds of [ttft_ms] on every forward path of [handleRequest]:
    with clock readings that do not run backwards, [0 <= ttft_ms <=
    duration_ms]; [ttft_ms] is 0 when no chunk arrives, and it is the
    reading taken at the first chunk whenever that reading is not 0. *)
Lemma ttft_within_duration {rvalue : Type} `{Json rvalue}
    (to_string : Error → string)
    (h : Proxy.ProxyHandler) (w : Proxy.HttpCall) (req : Proxy.request)
    (res : Proxy.response) (target : string) :
  Proxy.cached_response h w req = None →
  Forall (λ c, Proxy.start_time w ≤ arrival c ≤ Proxy.end_time w)
         (chunks (Proxy.upstream w)) →
  Proxy.start_time w ≤ Proxy.end_time w →
  ∃ t,
    submitted (Proxy.handleRequest to_string h w req res target).2 = [t] ∧
    0 ≤ Store.task_ttft_ms t ≤ Store.task_duration_ms t ∧
    (chunks (Proxy.upstream w) = [] → Store.task_ttft_ms t = 0) ∧
    (∀ c cs, chunks (Proxy.upstream w) = c :: cs →
       milliseconds (arrival c - Proxy.start_time w) ≠ 0 →
       Store.task_ttft_ms t = milliseconds (arrival c - Proxy.start_time w)).
Proof.
  intros Hmiss Hchunks Hclock.
  destruct (handleRequest_miss to_string h w req res target Hmiss)
    as (res' & db' & stored & t & Heq & _ & _ & Hd & Httft & Hout).
  assert (Hst : submitted stored = []).
  { destruct (outcome (Proxy.upstream w)) as [err|status].
    - by destruct Hout as (_ & _ & _ & _ & ->).
    - destruct Hout as (_ & _ & Hif).
      destruct (_ && _); by destruct Hif as [_ ->]. }
  assert (Ht : submitted (Proxy.handleRequest to_string h w req res target).2 = [t]).
  { rewrite Heq. simpl. rewrite submitted_app, submitted_looked_up. simpl.
    change (submitted (Proxy.Post target (Proxy.req_body req)
                         :: stored ++ [Proxy.LogSubmit t]))
      with (submitted (stored ++ [Proxy.LogSubmit t])).
    by rewrite submitted_app, Hst. }
  exists t. split; [done|]. rewrite Httft, Hd. split; [|split].
  - apply http_received_ttft.
    + split; [lia|]. apply (milliseconds_mono 0). lia.
    + eapply Forall_impl; [exact Hchunks|]. simpl. intros c Hc.
      apply milliseconds_mono. lia.
  - by intros ->.
  - intros c cs -> Hne. simpl. by apply http_received_ttft_set.
Qed.

Lemma ttft_within_duration_witness :
  Forall (λ c, 1000000000 ≤ arrival c ≤ 2000000000) (chunks two_chunks) ∧
  ∃ t,
    submitted (Proxy.handleRequest httplib_to_string (handler true Store.empty_tables)
                 (slow_call two_chunks) generate_request fresh_response
                 "/api/generate").2 = [t] ∧
    0 ≤ Store.task_ttft_ms t ≤ Store.task_duration_ms t ∧
    Store.task_ttft_ms t = 250.
Proof.
  assert (Hc : Forall (λ c, 1000000000 ≤ arrival c ≤ 2000000000) (chunks two_chunks)).
  { repeat constructor; simpl; lia. }
  split; [exact Hc|].
  destruct (ttft_within_duration httplib_to_string (handler true Store.empty_tables)
              (slow_call two_chunks) generate_request fresh_response "/api/generate")
    as (t & Ht & Hb & _ & Hfirst).
  - reflexivity.
  - exact Hc.
  - simpl. lia.
  - exists t. split; [exact Ht|]. split; [exact Hb|].
    rewrite (Hfirst _ _ eq_refl); [reflexivity | discriminate].
Defined.

(** The receiver tests [ttft_ms == 0] at every chunk, so what it leaves
    in [ttft_ms] is the reading taken at the first chunk whose reading
    is not 0 ms. *)
Lemma http_received_ttft_first_nonzero start cs : ∀ a b,
  (http_received start (0, a, b) cs).1.1
  = match list_find (λ c, milliseconds (arrival c - start) ≠ 0) cs with
    | Some (_, c) => milliseconds (arrival c - start)
    | None => 0
    end.
Proof.
  induction cs as [|c cs IH]; intros a b; [done|].
  change (http_received start (0, a, b) (c :: cs))
    with (http_received start
            (milliseconds (arrival c - start), a +:+ data c, b +:+ data c) cs).
  cbn [list_find]. destruct (decide (milliseconds (arrival c - start) ≠ 0)) as [Hne|He].
  - by apply http_received_ttft_set.
  - apply dec_stable in He. rewrite He, IH.
    by destruct (list_find _ cs) as [[i c']|].
Qed.

(** C9, at a failing input.  The first chunk arrives 0.4 ms after the
    start and the second, with which the call ends, after 300 ms.  The
    first reading is 0 ms, which the receiver takes for "not recorded
    yet": the log entry carries [ttft_ms = 300], the reading taken at
    the second chunk, equal to [duration_ms], where the time to the
    first chunk is 0 ms. *)
Theorem ttft_skips_early_first_chunk :
  Proxy.cached_response (handler true Store.empty_tables)
    (call_of_300ms early_first_chunk) generate_request = None ∧
  (milliseconds ∘ (λ c, arrival c - Proxy.start_time (call_of_300ms early_first_chunk)))
    <$> chunks early_first_chunk = [0; 300] ∧
  Store.task_ttft_ms <$>
    submitted (Proxy.handleRequest httplib_to_string (handler true Store.empty_tables)
                 (call_of_300ms early_first_chunk) generate_request fresh_response
                 "/api/generate").2 = [300] ∧
  Store.task_duration_ms <$>
    submitted (Proxy.handleRequest httplib_to_string (handler true Store.empty_tables)
                 (call_of_300ms early_first_chunk) generate_request fresh_response
                 "/api/generate").2 = [300].
Proof. repeat split; vm_compute; reflexivity. Qed.

(** C1, at a failing input.  With the global cache flag off, and
    likewise with the header [X-SectorFlux-No-Cache: true], the call
    issues no cache lookup, but when the upstream answers 200 with a
    non-empty body the forward path still calls [cacheResponse]: the
    cache table, empty before the call, holds the response after it. *)
Theorem bypass_still_writes_cache :
  Proxy.skip_cache (handler false Store.empty_tables) generate_request = true ∧
  lookups (Proxy.handleRequest httplib_to_string (handler false Store.empty_tables)
             (slow_call two_chunks) generate_request fresh_response
             "/api/generate").2 = [] ∧
  Store.getCachedResponse (Store.reliable "") (Proxy.req_body generate_request)
    (Proxy.db_ (handler false Store.empty_tables)) = None ∧
  Store.getCachedResponse (Store.reliable "") (Proxy.req_body generate_request)
    (Proxy.db_ (Proxy.handleRequest httplib_to_string
                  (handler false Store.empty_tables) (slow_call two_chunks)
                  generate_request fresh_response "/api/generate").1.2)
  = Some (200, two_chunks_body) ∧
  Proxy.skip_cache (handler true Store.empty_tables) bypass_request = true ∧
  lookups (Proxy.handleRequest httplib_to_string (handler true Store.empty_tables)
             (slow_call two_chunks) bypass_request fresh_response
             "/api/generate").2 = [] ∧
  Store.getCachedResponse (Store.reliable "") (Proxy.req_body bypass_request)
    (Proxy.db_ (Proxy.handleRequest httplib_to_string
                  (handler true Store.empty_tables) (slow_call two_chunks)
                  bypass_request fresh_response "/api/generate").1.2)
  = Some (200, two_chunks_body).
Proof. repeat split; vm_compute; reflexivity. Qed.

Section BypassFacts.
Context {rvalue : Type} `{Json rvalue} (to_string : Error → string).

(** The half of the bypass that holds: a call that skips the cache
    issues no lookup. *)
Lemma bypass_issues_no_lookup h w req res target :
  Proxy.skip_cache h req = true →
  lookups (Proxy.handleRequest to_string h w req res target).2 = [].
Proof.
  intros Hskip.
  assert (Hmiss : Proxy.cached_response h w req = None)
    by (unfold Proxy.cached_response; by rewrite Hskip).
  destruct (handleRequest_miss to_string h w req res target Hmiss)
    as (res' & db' & stored & t & -> & _ & _ & _ & _ & Hout).
  simpl. rewrite Hskip. simpl.
  change (lookups (Proxy.Post target (Proxy.req_body req)
                     :: stored ++ [Proxy.LogSubmit t]))
    with (lookups (stored ++ [Proxy.LogSubmit t])).
  rewrite lookups_app.
  destruct (outcome (Proxy.upstream w)) as [err|status].
  - by destruct Hout as (_ & _ & _ & _ & ->).
  - destruct Hout as (_ & _ & Hif).
    destruct (_ && _); by destruct Hif as [_ ->].
Qed.

(** The other half fails on every such call that succeeds upstream: the
    forward path writes the cache without looking at [skip_cache]. *)
Lemma bypass_writes_on_success h w req res target tb :
  Proxy.skip_cache h req = true →
  outcome (Proxy.upstream w) = inr 200 →
  (http_received (Proxy.start_time w) (0, "", Proxy.res_body res)
     (chunks (Proxy.upstream w))).1.2 ≠ "" →
  Store.db_ (Proxy.db_ h) = Some tb →
  runs (Proxy.sql_store w) 0 →
  Store.db_ (Proxy.db_ (Proxy.handleRequest to_string h w req res target).1.2)
  = Some (Store.replace_cache (Proxy.req_body req) 200
            (http_received (Proxy.start_time w) (0, "", Proxy.res_body res)
               (chunks (Proxy.upstream w))).1.2 tb).
Proof.
  intros Hskip Hok Hne Hdb Hruns.
  assert (Hmiss : Proxy.cached_response h w req = None)
    by (unfold Proxy.cached_response; by rewrite Hskip).
  destruct (handleRequest_miss to_string h w req res target Hmiss)
    as (res' & db' & stored & t & -> & _ & _ & _ & _ & Hout).
  rewrite Hok in Hout. destruct Hout as (_ & Hbody & Hif).
  rewrite Hbody in Hif. simpl.
  apply String.eqb_neq in Hne. rewrite Hne in Hif. simpl in Hif.
  destruct Hif as [-> _].
  by rewrite (cacheResponse_runs _ _ _ _ _ tb Hdb Hruns).
Qed.

End BypassFacts.

(** C6, as amended.  A chunk that finds the session inactive makes the
    sink return false without sending or accumulating it, and [send]
    then ends with [Canceled] at that chunk, the later chunks never
    being handed over.  For a turn whose flag is false when the upstream
    call returns, no log entry is submitted, the store (cache table and
    write queue) is left as it was, and no frame is sent after the
    upstream call returns: the frames of the turn are exactly the chunks
    forwarded before the first one that found the session inactive. *)
Theorem closed_session_stops_turn {rvalue : Type} `{Json rvalue} :
  (∀ start st c,
     active_on_arrival c = false →
     (Proxy.ws_receiver start st c).2 = false ∧
     (Proxy.ws_receiver start st c).1.1.2 = st.1.2 ∧
     (Proxy.ws_receiver start st c).1.2 = st.2) ∧
  (∀ start st cs1 c cs2 out,
     Forall (λ c, active_on_arrival c = true) cs1 →
     active_on_arrival c = false →
     ∃ st',
       send (Proxy.ws_receiver start) st
         {| chunks := cs1 ++ c :: cs2; outcome := out |} = (st', inl Canceled) ∧
       st'.1.2 = (ws_received start st cs1).1.2 ∧
       st'.2 = (ws_received start st cs1).2) ∧
  (∀ h w message,
     ws_forwards h w message = true →
     Proxy.active_after_send w = false →
     ∃ events,
       Proxy.handleWebSocketRequest h w message = (Proxy.Returns, h, events) ∧
       submitted events = [] ∧
       stores events = [] ∧
       frames events = data <$> active_prefix (chunks (Proxy.ws_upstream w))).
Proof.
  split; [|split].
  - intros start [[t full] sent] c Hc. simpl. by rewrite Hc.
  - intros start st cs1 c cs2 out. apply send_ws_cancelled.
  - intros h w message Hf Hclosed.
    destruct (handleWebSocketRequest_forward h w message Hf)
      as (before & Hfr & Hsub & Hst & Hcase).
    exists before.
    destruct Hcase as [[_ E]|[[Ha _]|[Ha _]]]; [done|congruence|congruence].
Qed.

Lemma closed_session_stops_turn_witness :
  ws_forwards (handler true Store.empty_tables) (closed_turn two_chunks) chat_message
  = true ∧
  ∃ events,
    Proxy.handleWebSocketRequest (handler true Store.empty_tables)
      (closed_turn two_chunks) chat_message
    = (Proxy.Returns, handler true Store.empty_tables, events) ∧
    submitted events = [] ∧
    stores events = [] ∧
    frames events = data <$> active_prefix (chunks two_chunks).
Proof.
  assert (Hf : ws_forwards (handler true Store.empty_tables) (closed_turn two_chunks)
                 chat_message = true) by (vm_compute; reflexivity).
  split; [exact Hf|].
  destruct (@closed_session_stops_turn FlatJson.object FlatJson.json) as (_ & _ & Hturn).
  exact (Hturn (handler true Store.empty_tables) (closed_turn two_chunks)
           chat_message Hf eq_refl).
Defined.

(** C6 as stated fails on its last part: in a turn closed in
    mid-stream, the chunk forwarded before the close was sent as a
    frame. *)
Lemma closed_session_counterexample :
  ws_forwards (handler true Store.empty_tables) (closed_turn two_chunks) chat_message
  = true ∧
  Proxy.active_after_send (closed_turn two_chunks) = false ∧
  frames (Proxy.handleWebSocketRequest (handler true Store.empty_tables)
            (closed_turn two_chunks) chat_message).2
  = [js "{'response':'Hel','done':false}
"] ∧
  frames (Proxy.handleWebSocketRequest (handler true Store.empty_tables)
            (closed_turn two_chunks) chat_message).2 ≠ [].
Proof. repeat split; vm_compute; (reflexivity || discriminate). Qed.

(** ** The chat route *)

(** Closing the socket drops the connection from the map and leaves the
    flag of its state object, which the worker still holds, false. *)
Lemma onclose_signals_worker conn state r :
  Main.g_connections r !! conn = Some state →
  Main.active (Main.onclose conn r) !! state = Some false ∧
  Main.g_connections (Main.onclose conn r) !! conn = None.
Proof.
  intros Hc. unfold Main.onclose. rewrite Hc. simpl.
  by rewrite lookup_insert_eq, lookup_delete_eq.
Qed.

(** A text message for an open connection raises the flag again and
    hands the same state object to the new worker. *)
Lemma onmessage_starts_worker conn state r :
  Main.g_connections r !! conn = Some state →
  (Main.onmessage conn false r).2 = Some state ∧
  Main.active (Main.onmessage conn false r).1 !! state = Some true.
Proof.
  intros Hc. unfold Main.onmessage. rewrite Hc. simpl.
  by rewrite lookup_insert_eq.
Qed.

(** * Further properties of the code *)

(** ** The store *)

Section StoreExtras.
Import Store.

Lemma by_id_desc_trans : Transitive by_id_desc.
Proof. unfold by_id_desc. intros x y z ??. lia. Qed.

Lemma by_id_desc_total : Total by_id_desc.
Proof. unfold by_id_desc. intros x y. lia. Qed.

(** Being newest first depends on the ids alone. *)
Lemma by_id_desc_ids (l l' : list LogEntry) :
  id <$> l' = id <$> l → StronglySorted by_id_desc l → StronglySorted by_id_desc l'.
Proof.
  intros Hids Hs. revert l' Hids.
  induction Hs as [|r l _ IH Hall]; intros [|r' l'] Hids; try done; [constructor|].
  rewrite !fmap_cons in Hids. injection Hids as Hr Hl.
  constructor; [by apply IH|].
  apply Forall_forall. intros x' [k Hk]%list_elem_of_lookup.
  assert (Hx : (id <$> l) !! k = Some (id x'))
    by (rewrite <- Hl, list_lookup_fmap, Hk; done).
  rewrite list_lookup_fmap in Hx.
  destruct (l !! k) as [x|] eqn:Hlk; [|done]. simpl in Hx.
  rewrite Forall_forall in Hall.
  specialize (Hall x (list_elem_of_lookup_2 _ _ _ Hlk)).
  unfold by_id_desc in *. injection Hx as Hx. lia.
Qed.

Lemma read_row_ids (rows : list LogEntry) :
  Forall (λ r, fits_int (id r)) rows → id <$> (read_row <$> rows) = id <$> rows.
Proof.
  induction 1 as [|r rows Hr _ IH]; [done|].
  rewrite !fmap_cons, IH. simpl. by rewrite to_int_fits.
Qed.

(** X1. [getLogs(limit)] on an open handle whose row ids are values of
    an [int], when its query runs and [limit] is a non-negative [int]:
    the entries returned are [min limit n] of the [n] rows, as read,
    carry the ids of those rows, are in descending id order, and every
    row left out is no newer than any entry returned. *)
Theorem getLogs_newest_first env lim d tb :
  db_ d = Some tb → runs env 0 → 0 ≤ lim < 2 ^ 31 →
  Forall (λ r, fits_int (id r)) (requests tb) →
  ∃ entries kept rest,
    getLogs env lim d = Some entries ∧
    entries = read_row <$> kept ∧
    kept ++ rest ≡ₚ requests tb ∧
    length entries = (Z.to_nat lim `min` length (requests tb))%nat ∧
    id <$> entries = id <$> kept ∧
    StronglySorted by_id_desc entries ∧
    (∀ a b, a ∈ entries → b ∈ rest → id b ≤ id a).
Proof.
  intros Hdb [Hp Hs] Hlim Hfit.
  set (L := merge_sort by_id_desc (requests tb)).
  assert (HL : StronglySorted by_id_desc L)
    by (apply StronglySorted_merge_sort;
        [apply by_id_desc_trans | apply by_id_desc_total]).
  assert (Hperm : L ≡ₚ requests tb) by apply merge_sort_Permutation.
  set (kept := take (Z.to_nat lim) L).
  assert (Hkept : Forall (λ r, fits_int (id r)) kept).
  { apply Forall_take. by rewrite Hperm. }
  pose proof (read_row_ids kept Hkept) as Hids.
  exists (read_row <$> kept), kept, (drop (Z.to_nat lim) L).
  rewrite <- (take_drop (Z.to_nat lim) L) in HL. fold kept in HL.
  split; [|split; [done|split; [|split; [|split; [exact Hids|split]]]]].
  - unfold getLogs, limit. rewrite Hdb, Hp, Hs. simpl.
    by destruct (decide (lim < 0)); [lia|].
  - unfold kept. by rewrite take_drop.
  - unfold kept. by rewrite length_fmap, length_take, Hperm.
  - apply (by_id_desc_ids kept); [exact Hids|].
    by apply StronglySorted_app_1_l in HL.
  - intros a b [r [-> Hr]]%list_elem_of_fmap Hb.
    assert (id (read_row r) = id r) as ->.
    { simpl. apply to_int_fits. rewrite Forall_forall in Hkept. by apply Hkept. }
    by apply (StronglySorted_app_1_elem_of _ _ _ r b HL).
Qed.

Lemma getLogs_newest_first_witness :
  ∃ entries,
    getLogs (reliable "") 50 (open_db full_tables) = Some entries ∧
    id <$> entries = reverse (seqZ 51 50) ∧
    StronglySorted by_id_desc entries.
Proof.
  destruct (getLogs_newest_first (reliable "") 50 (open_db full_tables) full_tables
              eq_refl (runs_reliable "" 0))
    as (entries & kept & rest & Hget & _ & _ & _ & _ & Hsorted & _).
  - lia.
  - apply (bool_decide_unpack _). vm_compute. exact I.
  - exists entries. split; [exact Hget|]. split; [|exact Hsorted].
    assert (Hval : getLogs (reliable "") 50 (open_db full_tables)
                   = Some (read_row <$> (sample_row <$> reverse (seqZ 51 50))))
      by (vm_compute; reflexivity).
    rewrite Hval in Hget. injection Hget as <-. vm_compute. reflexivity.
Defined.

Lemma logInteractionSync_runs env t d tb :
  db_ d = Some tb → runs env 0 → runs env 1 →
  logInteractionSync env t d
  = (None, with_db d (delete_older kMaxHistoryEntries (insert_request env t tb))).
Proof.
  intros Hdb [Hp0 Hs0] [Hp1 Hs1]. unfold logInteractionSync.
  by rewrite Hdb, Hp0, Hs0, Hp1, Hs1.
Qed.

Lemma filter_none {A} (P : A → Prop) `{∀ x, Decision (P x)} (l : list A) :
  Forall (λ x, ¬ P x) l → filter P l = [].
Proof.
  induction 1 as [|x l Hx _ IH]; [done|].
  rewrite filter_cons. by destruct (decide (P x)).
Qed.

Lemma filter_all {A} (P : A → Prop) `{∀ x, Decision (P x)} (l : list A) :
  Forall P l → filter P l = l.
Proof.
  induction 1 as [|x l Hx _ IH]; [done|].
  rewrite filter_cons. destruct (decide (P x)); [by rewrite IH | done].
Qed.

Lemma id_below_next_id (tb : sqlite3) (r : LogEntry) :
  r ∈ requests tb → id r < next_id tb.
Proof.
  intros Hr.
  pose proof (foldr_max_ge (sqlite_sequence tb) (id <$> requests tb)) as [_ Hmax].
  assert (Hin : id r ∈ id <$> requests tb) by (apply list_elem_of_fmap; eauto).
  specialize (Hmax _ Hin). unfold next_id. lia.
Qed.

(** A key finds its row. *)
Lemma list_find_by_id (rows : list LogEntry) (r : LogEntry) :
  NoDup (id <$> rows) → r ∈ rows →
  snd <$> list_find (λ r', id r' = id r) rows = Some r.
Proof.
  intros Hnd Hr.
  destruct (list_find (λ r', id r' = id r) rows) as [[k r']|] eqn:Hf.
  - apply list_find_Some in Hf as (Hk & Hid & _). simpl. f_equal.
    apply list_elem_of_lookup in Hr as [k' Hk'].
    assert (k = k').
    { eapply NoDup_lookup; [exact Hnd | |];
        rewrite list_lookup_fmap; [by rewrite Hk | by rewrite Hk'; simpl; f_equal]. }
    subst. congruence.
  - apply list_find_None in Hf. rewrite Forall_forall in Hf.
    by destruct (Hf _ Hr).
Qed.

Lemma insert_request_rows env t tb :
  requests (insert_request env t tb) = requests tb ++ [stored_row env t (next_id tb)].
Proof. by destruct t. Qed.

Lemma read_stored_row env t i :
  fits_int i → read_row (stored_row env t i) = logged_entry env t i.
Proof.
  intros Hi. unfold read_row, stored_row, logged_entry. simpl.
  by rewrite (to_int_fits i Hi), !c_str_idemp.
Qed.

(** The row a running INSERT adds survives the prune and is the one
    [getLog] finds under the id the INSERT assigned. *)
Lemma getLog_after_insert env env' t tb queue :
  NoDup (id <$> requests tb) →
  runs env' 0 →
  getLog env' (next_id tb)
    {| db_ := Some (delete_older kMaxHistoryEntries (insert_request env t tb));
       write_queue_ := queue |}
  = Some (read_row (stored_row env t (next_id tb))).
Proof.
  intros Hnd [Hp' Hs'].
  pose proof (insert_request_NoDup env t tb Hnd) as Hnd1.
  pose proof (delete_older_keeps 100 _ Hnd1) as Hkeep.
  pose proof (delete_older_NoDup kMaxHistoryEntries _ Hnd1) as Hnd'.
  change (Z.of_nat 100) with kMaxHistoryEntries in Hkeep.
  rewrite insert_request_rows in Hkeep.
  set (tb' := delete_older kMaxHistoryEntries (insert_request env t tb)) in *.
  clearbody tb'.
  unfold getLog. simpl. rewrite Hp', Hs'. simpl.
  set (row := stored_row env t (next_id tb)) in *.
  assert (Hrow : row ∈ requests tb').
  { apply Hkeep.
    split; [apply elem_of_app; right; apply list_elem_of_here|].
    rewrite filter_app.
    rewrite (filter_none _ (requests tb)).
    - rewrite filter_cons. simpl.
      destruct (decide (next_id tb < next_id tb)); [lia|]. simpl. lia.
    - apply Forall_forall. intros r Hr. simpl.
      pose proof (id_below_next_id tb r Hr). lia. }
  pose proof (list_find_by_id _ row Hnd' Hrow) as Hfind.
  change (id row) with (next_id tb) in Hfind. by rewrite Hfind.
Qed.

(** X2. A task written by a completed [logInteractionSync] is read back
    by [getLog] under the id the INSERT assigned, when that id is a
    value of an [int]: the entry returned has that id, the engine's
    CURRENT_TIMESTAMP, every text argument (method, endpoint, model,
    request body, response body) up to its first NUL byte, the status
    and the two token counts as [sqlite3_column_int] reads them, the
    four durations as given, and [is_starred = false]. *)
Theorem logged_entry_is_read_back env env' t d tb :
  db_ d = Some tb →
  NoDup (id <$> requests tb) →
  fits_int (next_id tb) →
  runs env 0 → runs env 1 → runs env' 0 →
  getLog env' (next_id tb) (logInteractionSync env t d).2
  = Some {| id := next_id tb;
            timestamp := c_str (current_timestamp env);
            method := c_str (task_method t);
            endpoint := c_str (task_endpoint t);
            model := c_str (task_model t);
            request_body := c_str (task_request_body t);
            response_status := to_int (task_status t);
            response_body := c_str (task_response_body t);
            duration_ms := task_duration_ms t;
            prompt_tokens := to_int (task_prompt_tokens t);
            completion_tokens := to_int (task_completion_tokens t);
            prompt_eval_duration_ms := task_prompt_eval_duration_ms t;
            eval_duration_ms := task_eval_duration_ms t;
            ttft_ms := task_ttft_ms t;
            is_starred := false |}.
Proof.
  intros Hdb Hnd Hfit H0 H1 Hread.
  rewrite (logInteractionSync_runs env t d tb Hdb H0 H1).
  unfold with_db. cbn [snd].
  rewrite (getLog_after_insert env env' t tb (write_queue_ d) Hnd Hread).
  by rewrite (read_stored_row env t (next_id tb) Hfit).
Qed.

Lemma logged_entry_is_read_back_witness :
  getLog (reliable "") 101
    (logInteractionSync (reliable "now") (sample_task 12) (open_db full_tables)).2
  = Some {| id := 101; timestamp := "now";
            method := "POST"; endpoint := "/api/generate"; model := "llama3";
            request_body := "{}"; response_status := 200; response_body := "ok";
            duration_ms := 12; prompt_tokens := 5; completion_tokens := 7;
            prompt_eval_duration_ms := 200; eval_duration_ms := 400; ttft_ms := 1;
            is_starred := false |}.
Proof.
  assert (Hnd : NoDup (id <$> requests full_tables))
    by (apply (bool_decide_unpack _); vm_compute; exact I).
  assert (Hfit : fits_int (next_id full_tables))
    by (vm_compute; split; [discriminate | reflexivity]).
  etrans.
  - exact (logged_entry_is_read_back (reliable "now") (reliable "") (sample_task 12)
             (open_db full_tables) full_tables eq_refl Hnd Hfit
             (runs_reliable "now" 0) (runs_reliable "now" 1) (runs_reliable "" 0)).
  - vm_compute. reflexivity.
Defined.

(** *** Starring *)

Lemma setStarred_runs env i b d tb :
  db_ d = Some tb → runs env 0 →
  setStarred env i b d
  = (None,
     with_db d
       {| requests := (λ r, if decide (id r = i) then set_starred r b else r)
                        <$> requests tb;
          sqlite_sequence := sqlite_sequence tb;
          cache := cache tb |}).
Proof.
  intros Hdb [Hp Hs]. unfold setStarred. by rewrite Hdb, Hp, Hs.
Qed.

Lemma getLog_runs env i d tb :
  db_ d = Some tb → runs env 0 →
  getLog env i d = read_row <$> (snd <$> list_find (λ r, id r = i) (requests tb)).
Proof.
  intros Hdb [Hp Hs]. unfold getLog. by rewrite Hdb, Hp, Hs.
Qed.

(** X3. After a [setStarred(i, b)] that runs, [getLog(i)] returns the
    entry it returned before with [is_starred = b] and nothing else
    changed, and [getLog(j)] for any other id returns what it returned
    before; ids, their order and the cache are untouched. *)
Theorem setStarred_then_getLog env env' i b d tb :
  db_ d = Some tb → runs env 0 → runs env' 0 →
  (setStarred env i b d).1 = None ∧
  (∀ j, getLog env' j (setStarred env i b d).2
        = (λ e, if decide (j = i) then set_starred e b else e) <$> getLog env' j d) ∧
  ∃ tb', db_ (setStarred env i b d).2 = Some tb' ∧
         id <$> requests tb' = id <$> requests tb ∧
         cache tb' = cache tb.
Proof.
  intros Hdb He He'.
  rewrite (setStarred_runs env i b d tb Hdb He). simpl.
  split; [done|]. split.
  - intros j.
    rewrite (getLog_runs env' j d tb Hdb He').
    rewrite (getLog_runs env' j (with_db d _) _ eq_refl He'). simpl.
    rewrite list_find_fmap.
    rewrite (list_find_agree _ (λ r, id r = j) (requests tb)); cycle 1.
    { apply Forall_forall. intros r _. simpl. by destruct (decide (id r = i)). }
    destruct (list_find (λ r, id r = j) (requests tb)) as [[k r]|] eqn:Hf; [|done].
    apply list_find_Some in Hf as (_ & Hid & _). simpl. f_equal.
    destruct (decide (id r = i)), (decide (j = i)); try congruence; done.
  - eexists. split; [done|]. simpl. split; [|done].
    rewrite <- list_fmap_compose. apply list_fmap_ext. intros k r _. simpl.
    by destruct (decide (id r = i)).
Qed.

Lemma setStarred_then_getLog_witness :
  is_starred <$> getLog (reliable "") 7 (open_db full_tables) = Some false ∧
  is_starred <$> getLog (reliable "") 7
                   (setStarred (reliable "") 7 true (open_db full_tables)).2
  = Some true ∧
  getLog (reliable "") 8 (setStarred (reliable "") 7 true (open_db full_tables)).2
  = getLog (reliable "") 8 (open_db full_tables).
Proof.
  destruct (setStarred_then_getLog (reliable "") (reliable "") 7 true
              (open_db full_tables) full_tables eq_refl
              (runs_reliable "" 0) (runs_reliable "" 0))
    as (_ & Hget & _).
  split; [vm_compute; reflexivity|]. split.
  - rewrite (Hget 7). vm_compute. reflexivity.
  - rewrite (Hget 8). vm_compute. reflexivity.
Defined.

(** X4. [setStarred] is idempotent, and a repeated call changes nothing
    whether or not it runs; on an id that no row has it reports no
    error and leaves the tables as they were. *)
Theorem setStarred_idempotent env env2 i b d tb :
  db_ d = Some tb → runs env 0 →
  (setStarred env2 i b (setStarred env i b d).2).2 = (setStarred env i b d).2 ∧
  ((∀ r, r ∈ requests tb → id r ≠ i) →
   setStarred env i b d = (None, d)).
Proof.
  intros Hdb He.
  rewrite (setStarred_runs env i b d tb Hdb He). simpl. split.
  - unfold setStarred at 1. simpl.
    destruct (prepare_ok env2 0); [|done]. destruct (step_ok env2 0); [|done].
    simpl. unfold with_db. simpl. f_equal. f_equal. f_equal.
    rewrite <- list_fmap_compose. apply list_fmap_ext. intros k r _. simpl.
    destruct (decide (id r = i)) as [Hr|Hr]; simpl.
    + by rewrite decide_True.
    + by rewrite decide_False.
  - intros Habs. f_equal. destruct d as [db q]. simpl in *. subst db.
    unfold with_db. simpl. f_equal. f_equal. destruct tb as [rows sq ca].
    simpl in *. f_equal.
    rewrite <- (list_fmap_id rows) at 2. apply list_fmap_ext.
    intros k r Hk. simpl.
    destruct (decide (id r = i)) as [Hr|]; [|done].
    exfalso. apply (Habs r); [|done]. by apply list_elem_of_lookup_2 in Hk.
Qed.

Lemma setStarred_idempotent_witness :
  (setStarred (reliable "") 7 true
     (setStarred (reliable "") 7 true (open_db full_tables)).2).2
  = (setStarred (reliable "") 7 true (open_db full_tables)).2 ∧
  setStarred (reliable "") 500 true (open_db full_tables)
  = (None, open_db full_tables).
Proof.
  destruct (setStarred_idempotent (reliable "") (reliable "") 7 true
              (open_db full_tables) full_tables eq_refl (runs_reliable "" 0))
    as [Hidem _].
  destruct (setStarred_idempotent (reliable "") (reliable "") 500 true
              (open_db full_tables) full_tables eq_refl (runs_reliable "" 0))
    as [_ Habs].
  split; [exact Hidem|]. apply Habs.
  apply Forall_forall. apply (bool_decide_unpack _). vm_compute. exact I.
Defined.

(** *** Failed writes *)

Lemma logInteractionSync_queue env t d :
  write_queue_ (logInteractionSync env t d).2 = write_queue_ d.
Proof.
  unfold logInteractionSync. destruct (db_ d); [|done].
  destruct (prepare_ok env 0); [|done]. by destruct (step_ok env 0).
Qed.

(** X5. [logInteractionSync] reports an error exactly when the handle is
    null or the INSERT does not prepare or step, and then the store is
    left as it was (no retry, nothing half-written); a failing history
    prune is not reported.  In no case does the call touch the cache
    table or the write queue. *)
Theorem failed_log_changes_nothing env t d :
  ((logInteractionSync env t d).1 ≠ None ↔
   db_ d = None ∨ prepare_ok env 0 = false ∨ step_ok env 0 = false) ∧
  ((logInteractionSync env t d).1 ≠ None → (logInteractionSync env t d).2 = d) ∧
  cache <$> db_ (logInteractionSync env t d).2 = cache <$> db_ d ∧
  write_queue_ (logInteractionSync env t d).2 = write_queue_ d.
Proof.
  split; [|split; [|split; [|apply logInteractionSync_queue]]].
  - unfold logInteractionSync. destruct (db_ d) as [tb|]; simpl.
    + destruct (prepare_ok env 0), (step_ok env 0); simpl;
        (split; [intros ?; auto; done | intros [?|[?|?]]; done]).
    + split; [auto | done].
  - unfold logInteractionSync. destruct (db_ d) as [tb|]; [|done].
    by destruct (prepare_ok env 0), (step_ok env 0).
  - unfold logInteractionSync. destruct (db_ d) as [tb|] eqn:Hdb; simpl;
      [|by rewrite Hdb].
    destruct (prepare_ok env 0), (step_ok env 0); simpl; rewrite ?Hdb; try done.
    destruct t. by destruct (prepare_ok env 1), (step_ok env 1).
Qed.

(** *** The history as a sliding window *)

Lemma by_id_asc_NoDup (rows : list LogEntry) :
  StronglySorted by_id_asc rows → NoDup (id <$> rows).
Proof.
  induction 1 as [|r rows _ IH Hall]; [constructor|].
  rewrite fmap_cons. apply NoDup_cons. split; [|done].
  intros [r' [Hid Hr']]%list_elem_of_fmap.
  rewrite Forall_forall in Hall. specialize (Hall _ Hr').
  unfold by_id_asc in Hall. lia.
Qed.

Lemma insert_request_sorted env t tb :
  StronglySorted by_id_asc (requests tb) →
  StronglySorted by_id_asc (requests (insert_request env t tb)).
Proof.
  intros Hs. destruct t. simpl. apply StronglySorted_app_2; [|done|].
  - intros r r' Hr ->%list_elem_of_singleton. unfold by_id_asc. simpl.
    by apply id_below_next_id.
  - repeat constructor.
Qed.

(** On rows in ascending id order the prune keeps the last [n]. *)
Lemma delete_older_sorted (n : nat) (tb : sqlite3) :
  StronglySorted by_id_asc (requests tb) →
  requests (delete_older (Z.of_nat n) tb)
  = drop (length (requests tb) - n) (requests tb).
Proof.
  intros Hs.
  pose proof (delete_older_keeps n tb (by_id_asc_NoDup _ Hs)) as Hkeep.
  unfold delete_older in *. simpl in *.
  set (keep := λ r, id r ∈ select_newest_ids (Z.of_nat n) (requests tb)) in *.
  set (m := (length (requests tb) - n)%nat).
  pose proof (take_drop m (requests tb)) as Hsplit.
  rewrite <- Hsplit in Hs.
  rewrite <- Hsplit at 1. rewrite filter_app.
  assert (Hin : ∀ r, r ∈ requests tb → keep r ↔
            (length (filter (λ r', (id r < id r')%Z) (requests tb)) < n)%nat).
  { intros r Hr. specialize (Hkeep r). rewrite list_elem_of_filter in Hkeep.
    tauto. }
  rewrite (filter_none keep (take m (requests tb))).
  - rewrite (filter_all keep (drop m (requests tb))); [done|].
    apply Forall_forall. intros r Hr.
    apply Hin; [rewrite <- Hsplit; apply elem_of_app; by right|].
    rewrite <- Hsplit, filter_app, length_app.
    rewrite (filter_none _ (take m (requests tb))).
    + simpl.
      eapply Nat.lt_le_trans;
        [apply (length_filter_lt _ _ r Hr); lia|].
      rewrite length_drop. unfold m. lia.
    + apply Forall_forall. intros r' Hr'.
      pose proof (StronglySorted_app_1_elem_of _ _ _ r' r Hs Hr' Hr) as Hlt.
      unfold by_id_asc in Hlt. lia.
  - apply Forall_forall. intros r Hr.
    rewrite Hin; [|rewrite <- Hsplit; apply elem_of_app; by left].
    rewrite <- Hsplit, filter_app, length_app.
    rewrite (filter_all _ (drop m (requests tb))).
    + rewrite length_drop.
      assert (0 < m)%nat
        by (apply list_elem_of_lookup in Hr as [k Hk];
            apply lookup_lt_Some in Hk; rewrite length_take in Hk; lia).
      unfold m in *. lia.
    + apply Forall_forall. intros r' Hr'.
      apply (StronglySorted_app_1_elem_of _ _ _ r r' Hs Hr Hr').
Qed.

(** X6. On a table whose rows are in ascending id order (the order
    inserts produce), a completed [logInteractionSync] leaves exactly
    the last 100 rows of the table with the new row appended, in the
    same order: the history is a sliding window, and the order is kept
    for the next insert. *)
Theorem history_is_sliding_window env t d tb :
  db_ d = Some tb →
  StronglySorted by_id_asc (requests tb) →
  runs env 0 → runs env 1 →
  ∃ tb',
    db_ (logInteractionSync env t d).2 = Some tb' ∧
    requests tb'
    = drop (length (requests (insert_request env t tb)) - 100)
        (requests (insert_request env t tb)) ∧
    StronglySorted by_id_asc (requests tb').
Proof.
  intros Hdb Hs H0 H1.
  rewrite (logInteractionSync_runs env t d tb Hdb H0 H1).
  pose proof (insert_request_sorted env t tb Hs) as Hs1.
  eexists. split; [reflexivity|].
  pose proof (delete_older_sorted 100 _ Hs1) as Hd.
  change (Z.of_nat 100) with kMaxHistoryEntries in Hd.
  split; [exact Hd|]. rewrite Hd.
  rewrite <- (take_drop (length (requests (insert_request env t tb)) - 100)
                (requests (insert_request env t tb))) in Hs1.
  by apply StronglySorted_app_1_r in Hs1.
Qed.

#[local] Instance by_id_asc_dec a b : Decision (by_id_asc a b).
Proof. unfold by_id_asc. apply _. Defined.

Lemma full_tables_sorted : StronglySorted by_id_asc (requests full_tables).
Proof. apply (bool_decide_unpack _). vm_compute. exact I. Defined.

Lemma history_is_sliding_window_witness :
  ∃ tb',
    db_ (logInteractionSync (reliable "now") (sample_task 12) (open_db full_tables)).2
    = Some tb' ∧
    id <$> requests tb' = seqZ 2 100.
Proof.
  destruct (history_is_sliding_window (reliable "now") (sample_task 12)
              (open_db full_tables) full_tables eq_refl)
    as (tb' & Hdb & Hrows & _).
  - apply (bool_decide_unpack _). vm_compute. exact I.
  - apply runs_reliable.
  - apply runs_reliable.
  - exists tb'. split; [exact Hdb|]. rewrite Hrows. vm_compute. reflexivity.
Defined.

(** *** The writer *)

Lemma logInteractionSync_tables env t d d' :
  db_ d = db_ d' →
  db_ (logInteractionSync env t d).2 = db_ (logInteractionSync env t d').2.
Proof.
  intros Hd. unfold logInteractionSync. rewrite <- Hd.
  destruct (db_ d) as [tb|] eqn:Hdb; simpl; [|congruence].
  destruct (prepare_ok env 0), (step_ok env 0); simpl; congruence.
Qed.

Lemma database_eq (d d' : Database) :
  db_ d = db_ d' → write_queue_ d = write_queue_ d' → d = d'.
Proof. destruct d, d'. simpl. by intros -> ->. Qed.

Lemma processWriteQueue_step env t q tables :
  processWriteQueue env {| db_ := tables; write_queue_ := t :: q |}
  = {| db_ := db_ (logInteractionSync env t {| db_ := tables; write_queue_ := [] |}).2;
       write_queue_ := q |}.
Proof.
  unfold processWriteQueue. simpl. apply database_eq; simpl.
  - by apply logInteractionSync_tables.
  - by rewrite logInteractionSync_queue.
Qed.

Lemma log_all_queue calls : ∀ d,
  write_queue_ (log_all calls d) = write_queue_ d.
Proof.
  induction calls as [|c calls IH]; intros d; [done|].
  unfold log_all in *. simpl. by rewrite IH, logInteractionSync_queue.
Qed.

Lemma log_all_tables calls : ∀ d d',
  db_ d = db_ d' → db_ (log_all calls d) = db_ (log_all calls d').
Proof.
  induction calls as [|c calls IH]; intros d d' Hd; [done|].
  unfold log_all in *. simpl. apply IH. by apply logInteractionSync_tables.
Qed.

(** X7. The write queue is first in, first out.  A task submitted by
    [logInteractionAsync] goes behind the ones waiting and changes no
    table; each round of [processWriteQueue] removes exactly the oldest
    task, whatever the engine answers, and the tables after any number
    of rounds are those of calling [logInteractionSync] directly on the
    waiting tasks in submission order, one engine answer per round.
    Rounds on an empty queue do nothing. *)
Theorem writer_runs_tasks_in_order (envs : list Engine) (d : Database) (t : Interaction) :
  write_queue_ (logInteractionAsync t d) = write_queue_ d ++ [t] ∧
  db_ (logInteractionAsync t d) = db_ d ∧
  write_queue_ (drain envs d) = drop (length envs) (write_queue_ d) ∧
  db_ (drain envs d) = db_ (log_all (zip envs (write_queue_ d)) d).
Proof.
  split; [done|]. split; [done|].
  revert d. induction envs as [|env envs IH]; intros [tables q]; [done|].
  destruct q as [|t' q].
  - unfold drain in *. simpl foldl.
    change (processWriteQueue env {| db_ := tables; write_queue_ := [] |})
      with {| db_ := tables; write_queue_ := [] |}.
    destruct (IH {| db_ := tables; write_queue_ := [] |}) as [IHq IHd].
    simpl in *. split; [by rewrite IHq, drop_nil|].
    rewrite IHd. by rewrite !zip_with_nil_r.
  - unfold drain in *. simpl foldl. rewrite processWriteQueue_step.
    destruct (IH {| db_ := db_ (logInteractionSync env t'
                                 {| db_ := tables; write_queue_ := [] |}).2;
                    write_queue_ := q |}) as [IHq IHd].
    simpl in *. split; [exact IHq|]. rewrite IHd.
    unfold log_all. simpl. apply log_all_tables.
    simpl. by apply logInteractionSync_tables.
Qed.

(** *** Ranges of the dashboard metrics *)

Lemma sum_list_nonneg (l : list Z) : Forall (λ z, 0 ≤ z) l → 0 ≤ sum_list l.
Proof. induction 1; simpl; [done|]. unfold sum_list in *. simpl. lia. Qed.

Lemma Qdiv_unit_interval (k n : Z) :
  0 ≤ k ≤ n → 0 < n → (0 <= inject_Z k / inject_Z n)%Q ∧ (inject_Z k / inject_Z n <= 1)%Q.
Proof.
  intros Hk Hn.
  assert (0 < inject_Z n)%Q as Hq by (change 0%Q with (inject_Z 0); by rewrite <- Zlt_Qlt).
  split.
  - apply Qle_shift_div_l; [done|]. rewrite Qmult_0_l.
    change 0%Q with (inject_Z 0). rewrite <- Zle_Qle. lia.
  - apply Qle_shift_div_r; [done|]. rewrite Qmult_1_l.
    rewrite <- Zle_Qle. lia.
Qed.

Lemma fdiv_unit_interval (k n : Z) :
  0 ≤ k ≤ n → 0 < n → n < 2 ^ 53 →
  (0 <= fdiv (double_of_int k) (double_of_int n))%Q ∧
  (fdiv (double_of_int k) (double_of_int n) <= 1)%Q.
Proof.
  intros Hk Hn Hfit. destruct (Qdiv_unit_interval k n Hk Hn) as [H0 H1].
  assert (Hq : (double_of_int k / double_of_int n == inject_Z k / inject_Z n)%Q)
    by (by rewrite !double_of_int_exact by lia).
  unfold fdiv. split.
  - apply round_double_nonneg. by rewrite Hq.
  - apply round_double_le_1; by rewrite Hq.
Qed.

Lemma fdiv_nonneg (x y : Q) : (0 <= x)%Q → (0 <= y)%Q → (0 <= fdiv x y)%Q.
Proof.
  intros Hx Hy. apply round_double_nonneg. unfold Qdiv.
  apply Qmult_le_0_compat; [done|]. by apply Qinv_le_0_compat.
Qed.

(** X8. Whenever the number of rows fits an [int], and whichever of the
    three queries of [getMetrics] run or fail, the reported total is not
    negative, the cache hit rate lies between 0 and 1, and the average
    latency is not negative when no stored duration is. *)
Theorem getMetrics_ranges env d tb :
  db_ d = Some tb →
  Z.of_nat (length (requests tb)) < 2 ^ 31 →
  0 ≤ total_requests (getMetrics env d) ≤ Z.of_nat (length (requests tb)) ∧
  (0 <= cache_hit_rate (getMetrics env d))%Q ∧
  (cache_hit_rate (getMetrics env d) <= 1)%Q ∧
  (Forall (λ r, 0 ≤ duration_ms r) (requests tb) →
   (0 <= avg_latency_ms (getMetrics env d))%Q).
Proof.
  intros Hdb Hfit. unfold getMetrics. rewrite Hdb. simpl.
  set (rows := requests tb) in *.
  assert (Hn : to_int (Z.of_nat (length rows)) = Z.of_nat (length rows))
    by (apply to_int_fits; unfold fits_int; lia).
  pose proof (length_filter (λ r, duration_ms r = 0) rows) as Hle.
  assert (Hk : to_int (Z.of_nat (length (filter (λ r, duration_ms r = 0) rows)))
               = Z.of_nat (length (filter (λ r, duration_ms r = 0) rows)))
    by (apply to_int_fits; unfold fits_int; lia).
  split; [|split; [|split]].
  - destruct (prepare_ok env 0 && step_ok env 0); lia.
  - destruct (prepare_ok env 2 && step_ok env 2); [|done].
    destruct (prepare_ok env 0 && step_ok env 0); [|done].
    rewrite Hn, Hk. destruct (Z.ltb_spec 0 (Z.of_nat (length rows))); [|done].
    apply fdiv_unit_interval; lia.
  - destruct (prepare_ok env 2 && step_ok env 2); [|done].
    destruct (prepare_ok env 0 && step_ok env 0); [|done].
    rewrite Hn, Hk. destruct (Z.ltb_spec 0 (Z.of_nat (length rows))); [|done].
    apply fdiv_unit_interval; lia.
  - intros Hpos. destruct (prepare_ok env 1 && step_ok env 1); [|done].
    unfold sql_avg. destruct (duration_ms <$> rows) as [|z l] eqn:Hl; [done|].
    simpl column_double.
    assert (0 ≤ sum_list (z :: l)) as Hsum.
    { apply sum_list_nonneg. rewrite <- Hl. by apply Forall_fmap. }
    apply fdiv_nonneg; apply round_double_nonneg;
      change 0%Q with (inject_Z 0); rewrite <- Zle_Qle; [exact Hsum | lia].
Qed.

Lemma getMetrics_ranges_witness :
  0 ≤ total_requests (getMetrics (reliable "") (open_db full_tables)) ≤ 100 ∧
  (cache_hit_rate (getMetrics (reliable "") (open_db full_tables)) <= 1)%Q.
Proof.
  destruct (getMetrics_ranges (reliable "") (open_db full_tables) full_tables eq_refl)
    as (Ht & _ & Hr & _).
  - vm_compute. reflexivity.
  - split; [exact Ht | exact Hr].
Defined.

End StoreExtras.

(** ** The HTTP handler *)

Section HandlerExtras.
Context {rvalue : Type} `{Json rvalue} (to_string : Error → string).
Import Proxy.

Lemma append_nil_r (s : string) : s +:+ "" = s.
Proof.
  induction s as [|c s IH]; [done|].
  change (String c (s +:+ "") = String c s). by rewrite IH.
Qed.

Lemma append_assoc (a b c : string) : (a +:+ b) +:+ c = a +:+ (b +:+ c).
Proof.
  induction a as [|x a IH]; [done|].
  change (String x ((a +:+ b) +:+ c) = String x (a +:+ (b +:+ c))). by rewrite IH.
Qed.

Lemma joined_from (cs : list Chunk) : ∀ a,
  foldl (λ acc c, acc +:+ data c) a cs = a +:+ joined cs.
Proof.
  unfold joined. induction cs as [|c cs IH]; intros a.
  - simpl. by rewrite append_nil_r.
  - change (foldl (λ acc c, acc +:+ data c) (a +:+ data c) cs
            = a +:+ foldl (λ acc c, acc +:+ data c) (data c) cs).
    rewrite (IH (a +:+ data c)), (IH (data c)). apply append_assoc.
Qed.

Lemma joined_cons c cs : joined (c :: cs) = data c +:+ joined cs.
Proof. unfold joined. simpl. apply joined_from. Qed.

(** Both buffers of the HTTP receiver grow by the bytes of the chunks. *)
Lemma http_received_bytes start cs : ∀ t a b,
  (http_received start (t, a, b) cs).1.2 = a +:+ joined cs ∧
  (http_received start (t, a, b) cs).2 = b +:+ joined cs.
Proof.
  induction cs as [|c cs IH]; intros t a b.
  - simpl. by rewrite !append_nil_r.
  - change (http_received start (t, a, b) (c :: cs))
      with (http_received start
              (if t =? 0 then milliseconds (arrival c - start) else t,
               a +:+ data c, b +:+ data c) cs).
    destruct (IH (if t =? 0 then milliseconds (arrival c - start) else t)
                (a +:+ data c) (b +:+ data c)) as [-> ->].
    by rewrite joined_cons, !append_assoc.
Qed.

Lemma posts_app e1 e2 : posts (e1 ++ e2) = posts e1 ++ posts e2.
Proof. apply omap_app. Qed.

(** The forward path with an upstream that answers, computed. *)
Lemma handleRequest_forward h w req res target status :
  cached_response h w req = None →
  outcome (upstream w) = inr status →
  ∃ ttft metrics,
    let body := joined (chunks (upstream w)) in
    let cacheable := (status =? 200) && negb (String.eqb body "") in
    let t := Store.LogTask "POST" target (extractModelFromRequest (req_body req))
               (req_body req) status body
               (milliseconds (end_time w - start_time w))
               (prompt_tokens metrics) (completion_tokens metrics)
               (prompt_eval_duration_ms metrics) (eval_duration_ms metrics) ttft in
    handleRequest to_string h w req res target
    = ({| res_code := status;
          res_body := res_body res +:+ body;
          res_headers := res_headers res
                         ++ [("Content-Type", "application/json")]
                         ++ [("X-SectorFlux-Cache", "MISS")];
          res_ended := true |},
       with_database h
         (Store.logInteractionAsync t
            (if cacheable
             then (Store.cacheResponse (sql_store w) (req_body req) status body (db_ h)).2
             else db_ h)),
       (if skip_cache h req then [] else [CacheLookup (req_body req)])
       ++ [Post target (req_body req)]
       ++ (if cacheable then [CacheStore (req_body req) status body] else [])
       ++ [LogSubmit t]).
Proof.
  intros Hmiss Hout. unfold handleRequest. rewrite Hmiss.
  unfold send. rewrite deliver_http, Hout. simpl res_body.
  pose proof (http_received_bytes (start_time w) (chunks (upstream w)) 0 "" (res_body res))
    as [Hacc Hbody].
  destruct (http_received _ _ _) as [[ttft acc] body]. simpl in Hacc, Hbody.
  subst acc body. exists ttft, (extractMetrics (joined (chunks (upstream w)))).
  simpl. unfold end_, set_code, set_body, add_header. simpl.
  rewrite <- (app_assoc (res_headers res)).
  destruct ((status =? 200) && _); reflexivity.
Qed.

(** X9. When the cache does not answer and the upstream returns a
    status, [handleRequest] hands that status to the client with every
    byte of every chunk, in arrival order, appended to the body the
    response had; the headers gain Content-Type and
    X-SectorFlux-Cache: MISS, the response is ended, and exactly one
    log entry is submitted, carrying the status and the streamed bytes
    (without what the body held before). *)
Theorem handleRequest_relays_stream h w req res target status :
  cached_response h w req = None →
  outcome (upstream w) = inr status →
  ∃ t,
    res_code (handleRequest to_string h w req res target).1.1 = status ∧
    res_body (handleRequest to_string h w req res target).1.1
    = res_body res +:+ joined (chunks (upstream w)) ∧
    res_headers (handleRequest to_string h w req res target).1.1
    = res_headers res ++ [("Content-Type", "application/json");
                          ("X-SectorFlux-Cache", "MISS")] ∧
    res_ended (handleRequest to_string h w req res target).1.1 = true ∧
    submitted (handleRequest to_string h w req res target).2 = [t] ∧
    Store.task_status t = status ∧
    Store.task_response_body t = joined (chunks (upstream w)).
Proof.
  intros Hmiss Hout.
  destruct (handleRequest_forward h w req res target status Hmiss Hout)
    as (ttft & metrics & ->).
  eexists. cbv zeta. simpl fst. simpl snd.
  split; [reflexivity|]. split; [reflexivity|]. split; [reflexivity|].
  split; [reflexivity|]. split.
  - rewrite submitted_app, submitted_looked_up.
    destruct ((status =? 200) && _); reflexivity.
  - split; reflexivity.
Qed.

(** X10. Once a forwarded call has ended with status 200 and a
    non-empty body and its cache write has run, a later call whose
    request body has the same bytes up to the first NUL, whatever its
    endpoint, that does not skip the cache and whose lookup runs, is
    answered from the cache: status 200, the stored body (the streamed
    bytes up to the first NUL) in place of what the response held,
    X-SectorFlux-Cache: HIT, no POST to the upstream, and one log entry
    with duration 0. *)
Theorem cached_answer_is_served h w req res target tb w2 req2 res2 target2 :
  cached_response h w req = None →
  outcome (upstream w) = inr 200 →
  joined (chunks (upstream w)) ≠ "" →
  Store.db_ (db_ h) = Some tb →
  runs (sql_store w) 0 →
  c_str (req_body req2) = c_str (req_body req) →
  skip_cache h req2 = false →
  runs (sql_lookup w2) 0 →
  ∃ t,
    let h2 := (handleRequest to_string h w req res target).1.2 in
    res_code (handleRequest to_string h2 w2 req2 res2 target2).1.1 = 200 ∧
    res_body (handleRequest to_string h2 w2 req2 res2 target2).1.1
    = c_str (joined (chunks (upstream w))) ∧
    last (res_headers (handleRequest to_string h2 w2 req2 res2 target2).1.1)
    = Some ("X-SectorFlux-Cache", "HIT") ∧
    (handleRequest to_string h2 w2 req2 res2 target2).2
    = [CacheLookup (req_body req2); LogSubmit t] ∧
    Store.task_duration_ms t = 0 ∧
    Store.task_response_body t = c_str (joined (chunks (upstream w))).
Proof.
  intros Hmiss Hout Hne Hdb Hst Hkey Hskip Hlk.
  destruct (handleRequest_forward h w req res target 200 Hmiss Hout)
    as (ttft & metrics & ->).
  apply String.eqb_neq in Hne. cbv zeta. rewrite Hne. simpl fst. simpl snd.
  change ((200 =? 200) && negb false) with true. cbv iota.
  rewrite (cacheResponse_runs _ _ _ _ _ tb Hdb Hst).
  set (h2 := with_database h _).
  assert (Hhit : cached_response h2 w2 req2
                 = Some (200, c_str (joined (chunks (upstream w))))).
  { unfold cached_response.
    assert (skip_cache h2 req2 = false) as -> by exact Hskip.
    rewrite (getCachedResponse_runs (sql_lookup w2) (req_body req2) (db_ h2)
               (Store.replace_cache (req_body req) 200
                  (joined (chunks (upstream w))) tb) eq_refl Hlk).
    simpl. rewrite Hkey, lookup_insert_eq. simpl.
    by rewrite c_str_idemp. }
  unfold handleRequest. rewrite Hhit.
  assert (skip_cache h2 req2 = false) as -> by exact Hskip.
  eexists. simpl. rewrite last_snoc. repeat split.
Qed.

(** X11. [handleRequest] writes the cache exactly when the cache did not
    answer, the upstream returned status 200 and at least one byte
    arrived; the entry written is the request body with 200 and the
    streamed bytes.  In every other case (a hit, an upstream error, any
    other status, an empty body) the tables are left as they were. *)
Theorem cache_written_only_on_complete_200 h w req res target :
  (stores (handleRequest to_string h w req res target).2 ≠ [] ↔
   cached_response h w req = None
   ∧ outcome (upstream w) = inr 200
   ∧ joined (chunks (upstream w)) ≠ "") ∧
  (stores (handleRequest to_string h w req res target).2 ≠ [] →
   stores (handleRequest to_string h w req res target).2
   = [(req_body req, 200, joined (chunks (upstream w)))]) ∧
  (stores (handleRequest to_string h w req res target).2 = [] →
   Store.db_ (db_ (handleRequest to_string h w req res target).1.2)
   = Store.db_ (db_ h)).
Proof.
  destruct (cached_response h w req) as [cached|] eqn:Hc.
  - destruct (handleRequest_hit to_string h w req res target cached Hc)
      as (res' & t & -> & _).
    simpl. rewrite stores_app.
    assert (stores (if skip_cache h req then [] else [CacheLookup (req_body req)]) = [])
      as -> by (by destruct (skip_cache h req)).
    simpl. split; [split; [done | by intros [? _]] | done].
  - destruct (outcome (upstream w)) as [err|status] eqn:Hout.
    + destruct (handleRequest_miss to_string h w req res target Hc)
        as (res' & db' & stored & t & -> & _ & _ & _ & _ & Hcase).
      rewrite Hout in Hcase. destruct Hcase as (_ & _ & _ & -> & ->).
      simpl. rewrite stores_app.
      assert (stores (if skip_cache h req then [] else [CacheLookup (req_body req)]) = [])
        as -> by (by destruct (skip_cache h req)).
      simpl. split; [split; [done | by intros (_ & ? & _)] | done].
    + destruct (handleRequest_forward h w req res target status Hc Hout)
        as (ttft & metrics & ->).
      cbv zeta. simpl fst. simpl snd. rewrite stores_app.
      assert (stores (if skip_cache h req then [] else [CacheLookup (req_body req)]) = [])
        as -> by (by destruct (skip_cache h req)).
      destruct (Z.eqb_spec status 200) as [->|Hs];
        [destruct (String.eqb_spec (joined (chunks (upstream w))) "") as [He|He]|];
        simpl.
      * split; [split; [done | by intros (_ & _ & ?)] | done].
      * split; [split; done | done].
      * split; [split; [done | intros (_ & [= ?] & _); done] | done].
Qed.

(** The response and the calls of [handleRequest], on every path. *)
Lemma handleRequest_shape h w req res target :
  res_ended (handleRequest to_string h w req res target).1.1 = true ∧
  last (res_headers (handleRequest to_string h w req res target).1.1)
  = Some ("X-SectorFlux-Cache",
          match cached_response h w req with Some _ => "HIT" | None => "MISS" end) ∧
  posts (handleRequest to_string h w req res target).2
  = match cached_response h w req with
    | Some _ => []
    | None => [(target, req_body req)]
    end ∧
  lookups (handleRequest to_string h w req res target).2
  = (if skip_cache h req then [] else [req_body req]) ∧
  cache_enabled_ (handleRequest to_string h w req res target).1.2 = cache_enabled_ h.
Proof.
  unfold handleRequest.
  destruct (cached_response h w req) as [cached|] eqn:Hc.
  - simpl. rewrite last_snoc, posts_app, lookups_app.
    by destruct (skip_cache h req).
  - unfold send. rewrite deliver_http.
    destruct (http_received _ _ _) as [[ttft acc] body].
    destruct (outcome (upstream w)) as [err|status]; simpl.
    + rewrite last_snoc, posts_app, lookups_app.
      by destruct (skip_cache h req).
    + destruct ((status =? 200) && _); simpl;
        rewrite last_snoc, posts_app, lookups_app;
        by destruct (skip_cache h req).
Qed.

(** X12. Every call of [handleRequest] ends the response with an
    X-SectorFlux-Cache header as its last header, HIT when the cache
    answered and MISS otherwise; it issues no POST on a hit and exactly
    one otherwise, to the given endpoint with the request body
    unchanged; it looks the request body up unless the call skips the
    cache; it submits exactly one log entry, appended to the write
    queue; and it leaves the cache switch as it was. *)
Theorem handleRequest_calls h w req res target :
  res_ended (handleRequest to_string h w req res target).1.1 = true ∧
  last (res_headers (handleRequest to_string h w req res target).1.1)
  = Some ("X-SectorFlux-Cache",
          match cached_response h w req with Some _ => "HIT" | None => "MISS" end) ∧
  posts (handleRequest to_string h w req res target).2
  = match cached_response h w req with
    | Some _ => []
    | None => [(target, req_body req)]
    end ∧
  lookups (handleRequest to_string h w req res target).2
  = (if skip_cache h req then [] else [req_body req]) ∧
  (∃ t, submitted (handleRequest to_string h w req res target).2 = [t] ∧
        Store.write_queue_ (db_ (handleRequest to_string h w req res target).1.2)
        = Store.write_queue_ (db_ h) ++ [t]) ∧
  cache_enabled_ (handleRequest to_string h w req res target).1.2 = cache_enabled_ h.
Proof.
  destruct (handleRequest_submitted to_string h w req res target) as (t & Hsub & Hq & _).
  destruct (handleRequest_shape h w req res target) as (? & ? & ? & ? & ?).
  repeat split; try done. by exists t.
Qed.

End HandlerExtras.

Lemma handleRequest_relays_stream_witness :
  Proxy.res_body
    (Proxy.handleRequest httplib_to_string (handler true Store.empty_tables)
       (slow_call two_chunks) generate_request fresh_response "/api/generate").1.1
  = two_chunks_body.
Proof.
  destruct (@handleRequest_relays_stream FlatJson.object FlatJson.json
              httplib_to_string (handler true Store.empty_tables)
              (slow_call two_chunks) generate_request fresh_response
              "/api/generate" 200) as (t & _ & Hbody & _).
  - vm_compute. reflexivity.
  - reflexivity.
  - rewrite Hbody. vm_compute. reflexivity.
Defined.

Lemma cached_answer_is_served_witness :
  (Proxy.handleRequest httplib_to_string
     (Proxy.handleRequest httplib_to_string (handler true Store.empty_tables)
        (slow_call two_chunks) generate_request fresh_response "/api/generate").1.2
     (slow_call refused) generate_request fresh_response "/api/chat").1.1
  = {| Proxy.res_code := 200; Proxy.res_body := two_chunks_body;
       Proxy.res_headers := [("X-SectorFlux-Cache", "HIT")];
       Proxy.res_ended := true |}.
Proof.
  destruct (@cached_answer_is_served FlatJson.object FlatJson.json
              httplib_to_string (handler true Store.empty_tables)
              (slow_call two_chunks) generate_request fresh_response
              "/api/generate" Store.empty_tables
              (slow_call refused) generate_request fresh_response "/api/chat")
    as (t & Hcode & _).
  - vm_compute. reflexivity.
  - reflexivity.
  - vm_compute. discriminate.
  - reflexivity.
  - apply runs_reliable.
  - reflexivity.
  - vm_compute. reflexivity.
  - apply runs_reliable.
  - clear Hcode. vm_compute. reflexivity.
Defined.

(** ** The chat handler *)

Section ChatExtras.
Context {rvalue : Type} `{Json rvalue}.
Import Proxy.

(** While the session stays active the chat receiver forwards each
    chunk as one frame and accumulates its bytes. *)
Lemma deliver_ws_active start cs : ∀ t full sent,
  Forall (λ c, active_on_arrival c = true) cs →
  ∃ t',
    deliver (ws_receiver start) (t, full, sent) cs
    = ((t', full +:+ joined cs, sent ++ ((λ c, SendText (data c)) <$> cs)), true).
Proof.
  induction cs as [|c cs IH]; intros t full sent Hall.
  { exists t. simpl. by rewrite append_nil_r, app_nil_r. }
  apply Forall_cons in Hall as [Hc Hall].
  cbn [deliver ws_receiver]. rewrite Hc. cbn [negb].
  destruct (IH (if t =? 0 then milliseconds (arrival c - start) else t)
              (full +:+ data c) (sent ++ [SendText (data c)]) Hall) as (t' & ->).
  exists t'. by rewrite joined_cons, append_assoc, <- app_assoc.
Qed.

Lemma lookups_of_chunks (cs : list Chunk) :
  lookups ((λ c, SendText (data c)) <$> cs) = [].
Proof. by induction cs. Qed.

Lemma posts_of_chunks (cs : list Chunk) :
  posts ((λ c, SendText (data c)) <$> cs) = [].
Proof. by induction cs. Qed.

(** A chat turn that runs to the end with the session open and the
    upstream answering 200, computed. *)
Lemma handleWebSocketRequest_success h w message j m :
  load message = Some j →
  has j "model" = true → get_s j "model" = Some m →
  has j "messages" = true →
  ws_cached_response h w message = None →
  Forall (λ c, active_on_arrival c = true) (chunks (ws_upstream w)) →
  active_after_send w = true →
  outcome (ws_upstream w) = inr 200 →
  ∃ ttft metrics,
    let body := joined (chunks (ws_upstream w)) in
    let cacheable := cache_enabled_ h && negb (String.eqb body "") in
    let t := Store.LogTask "POST" "/api/chat" m message 200 body
               (milliseconds (ws_end_time w - ws_start_time w))
               (prompt_tokens metrics) (completion_tokens metrics)
               (prompt_eval_duration_ms metrics) (eval_duration_ms metrics) ttft in
    handleWebSocketRequest h w message
    = (Returns,
       with_database h
         (if cacheable
          then (Store.cacheResponse (ws_sql_store w) message 200 body
                  (Store.logInteractionAsync t (db_ h))).2
          else Store.logInteractionAsync t (db_ h)),
       (if cache_enabled_ h then [CacheLookup message] else [])
       ++ [Post "/api/chat" (dump_chat m j)]
       ++ ((λ c, SendText (data c)) <$> chunks (ws_upstream w))
       ++ [LogSubmit t]
       ++ (if cacheable then [CacheStore message 200 body] else [])).
Proof.
  intros Hload Hmodel Hs Hmsg Hmiss Hall Hafter Hout.
  unfold handleWebSocketRequest. rewrite Hload, Hmodel, Hs, Hmiss, Hmsg.
  unfold send.
  destruct (deliver_ws_active (ws_start_time w) (chunks (ws_upstream w)) 0 "" [] Hall)
    as (ttft & ->).
  rewrite Hout, Hafter. cbn [Z.eqb Pos.eqb negb app].
  exists ttft, (extractMetrics (joined (chunks (ws_upstream w)))).
  cbv zeta. change ("" +:+ joined (chunks (ws_upstream w)))
    with (joined (chunks (ws_upstream w))).
  destruct (cache_enabled_ h && _); rewrite <- !app_assoc; reflexivity.
Qed.

Lemma ws_forwards_inv h w message :
  ws_forwards h w message = true →
  ∃ j m, load message = Some j ∧ has j "model" = true ∧ get_s j "model" = Some m
         ∧ has j "messages" = true ∧ ws_cached_response h w message = None.
Proof.
  unfold ws_forwards. destruct (load message) as [j|]; [|done].
  rewrite !andb_true_iff.
  intros (((Hmiss%bool_decide_eq_true & Hmodel) & [m Hs]%bool_decide_eq_true) & Hmsg).
  by exists j, m.
Qed.

(** X13. A chat turn that reaches the upstream call, whose session stays
    open throughout, and whose upstream answers 200, issues one POST to
    /api/chat, sends the client one text frame per chunk with the
    chunk's bytes, in arrival order, and then submits exactly one log
    entry, appended to the write queue, with endpoint /api/chat, the
    message as request body, status 200 and the concatenated bytes as
    response body. *)
Theorem chat_turn_relays_stream h w message :
  ws_forwards h w message = true →
  Forall (λ c, active_on_arrival c = true) (chunks (ws_upstream w)) →
  active_after_send w = true →
  outcome (ws_upstream w) = inr 200 →
  ∃ t body model metrics ttft,
    (handleWebSocketRequest h w message).1.1 = Returns ∧
    posts (handleWebSocketRequest h w message).2 = [("/api/chat", body)] ∧
    frames (handleWebSocketRequest h w message).2
    = data <$> chunks (ws_upstream w) ∧
    submitted (handleWebSocketRequest h w message).2 = [t] ∧
    Store.write_queue_ (db_ (handleWebSocketRequest h w message).1.2)
    = Store.write_queue_ (db_ h) ++ [t] ∧
    t = Store.LogTask "POST" "/api/chat" model message 200
          (joined (chunks (ws_upstream w)))
          (milliseconds (ws_end_time w - ws_start_time w))
          (prompt_tokens metrics) (completion_tokens metrics)
          (prompt_eval_duration_ms metrics) (eval_duration_ms metrics) ttft.
Proof.
  intros Hf Hall Hafter Hout.
  destruct (ws_forwards_inv h w message Hf) as (j & m & Hload & Hmodel & Hs & Hmsg & Hmiss).
  destruct (handleWebSocketRequest_success h w message j m
              Hload Hmodel Hs Hmsg Hmiss Hall Hafter Hout) as (ttft & metrics & ->).
  cbv zeta. eexists _, (dump_chat m j), m, metrics, ttft.
  cbn [fst snd].
  split; [reflexivity|].
  rewrite !posts_app, !frames_app, !submitted_app.
  rewrite posts_of_chunks, frames_of_chunks, submitted_of_chunks.
  split; [by destruct (cache_enabled_ h), (negb _)|].
  split; [destruct (cache_enabled_ h), (negb _); simpl; by rewrite ?app_nil_r|].
  split; [by destruct (cache_enabled_ h), (negb _)|].
  split; [|reflexivity].
  destruct (cache_enabled_ h && _); simpl; [|done].
  by rewrite cacheResponse_queue.
Qed.

(** X14. After such a turn with the cache switched on, a non-empty
    answer and a cache write that runs, the next turn with the same
    message whose lookup runs is answered from the cache: no POST is
    issued, the client gets the stored answer (the bytes up to the
    first NUL) as a single frame, and the log entry submitted has
    duration 0. *)
Theorem chat_turn_cache_round_trip h w message tb w2 :
  ws_forwards h w message = true →
  Forall (λ c, active_on_arrival c = true) (chunks (ws_upstream w)) →
  active_after_send w = true →
  outcome (ws_upstream w) = inr 200 →
  cache_enabled_ h = true →
  joined (chunks (ws_upstream w)) ≠ "" →
  Store.db_ (db_ h) = Some tb →
  runs (ws_sql_store w) 0 →
  runs (ws_sql_lookup w2) 0 →
  ∃ t,
    handleWebSocketRequest (handleWebSocketRequest h w message).1.2 w2 message
    = (Returns,
       with_database (handleWebSocketRequest h w message).1.2
         (Store.logInteractionAsync t
            (db_ (handleWebSocketRequest h w message).1.2)),
       [CacheLookup message;
        SendText (c_str (joined (chunks (ws_upstream w))));
        LogSubmit t]) ∧
    Store.task_duration_ms t = 0 ∧
    Store.task_status t = 200 ∧
    Store.task_response_body t = c_str (joined (chunks (ws_upstream w))).
Proof.
  intros Hf Hall Hafter Hout Hon Hne Hdb Hst Hlk.
  destruct (ws_forwards_inv h w message Hf) as (j & m & Hload & Hmodel & Hs & Hmsg & Hmiss).
  destruct (handleWebSocketRequest_success h w message j m
              Hload Hmodel Hs Hmsg Hmiss Hall Hafter Hout) as (ttft & metrics & ->).
  cbv zeta. simpl fst. simpl snd.
  apply String.eqb_neq in Hne. rewrite Hon, Hne. cbn [andb negb].
  set (t1 := Store.LogTask _ _ _ _ _ _ _ _ _ _ _ _).
  rewrite (cacheResponse_runs (ws_sql_store w) message 200
             (joined (chunks (ws_upstream w)))
             (Store.logInteractionAsync t1 (db_ h)) tb Hdb Hst).
  set (h2 := with_database h _).
  assert (Hhit : ws_cached_response h2 w2 message
                 = Some (200, c_str (joined (chunks (ws_upstream w))))).
  { unfold ws_cached_response.
    assert (cache_enabled_ h2 = true) as -> by exact Hon.
    rewrite (getCachedResponse_runs (ws_sql_lookup w2) message (db_ h2)
               (Store.replace_cache message 200
                  (joined (chunks (ws_upstream w))) tb) eq_refl Hlk).
    simpl. rewrite lookup_insert_eq. simpl. by rewrite c_str_idemp. }
  unfold handleWebSocketRequest. rewrite Hload, Hmodel, Hs, Hhit.
  assert (cache_enabled_ h2 = true) as -> by exact Hon.
  eexists. split; [reflexivity|]. done.
Qed.

(** X15. With the cache switched off a chat turn never touches the
    cache: it issues no lookup, writes no entry, and leaves the tables
    as they were, however the turn goes.  And in every case a cache
    write is preceded by exactly one log submission. *)
Theorem chat_turn_respects_cache_switch h w message :
  (cache_enabled_ h = false →
   lookups (handleWebSocketRequest h w message).2 = [] ∧
   stores (handleWebSocketRequest h w message).2 = [] ∧
   Store.db_ (db_ (handleWebSocketRequest h w message).1.2) = Store.db_ (db_ h)) ∧
  (stores (handleWebSocketRequest h w message).2 ≠ [] →
   cache_enabled_ h = true ∧
   ∃ t, submitted (handleWebSocketRequest h w message).2 = [t]).
Proof.
  unfold handleWebSocketRequest, ws_cached_response.
  destruct (load message) as [j|]; [|by split].
  destruct (if has j "model" then get_s j "model" else Some "unknown") as [model|];
    [|by split].
  destruct (cache_enabled_ h) eqn:Hon.
  all: try destruct (Store.getCachedResponse _ _ _) as [cached|].
  all: try destruct (if has j "model" then get_s j "model" else None) as [m|].
  all: try destruct (has j "messages").
  all: unfold send;
    try destruct (deliver_ws (ws_start_time w) (chunks (ws_upstream w)) 0 "" [])
      as (t' & full' & ->).
  all: try destruct (active_after_send w).
  all: try destruct (match (if forallb _ _ then outcome (ws_upstream w) else inl Canceled)
                     with inl _ => true | inr status => negb (status =? 200) end).
  all: try destruct (negb (String.eqb full' "")).
  all: try destruct (active_in_catch w).
  all: cbn [fst snd andb];
    rewrite ?stores_app, ?lookups_app, ?submitted_app,
            ?stores_of_chunks, ?lookups_of_chunks, ?submitted_of_chunks;
    simpl.
  all: split; [intros Hoff; try done; by rewrite ?app_nil_r|].
  all: intros Hst; try (exfalso; by apply Hst).
  all: split; [done | by eexists].
Qed.

End ChatExtras.

Lemma chat_turn_relays_stream_witness :
  frames (Proxy.handleWebSocketRequest (handler true Store.empty_tables)
            (open_turn streamed) chat_message).2
  = data <$> chunks streamed.
Proof.
  destruct (@chat_turn_relays_stream FlatJson.object FlatJson.json
              (handler true Store.empty_tables) (open_turn streamed) chat_message)
    as (t & body & model & metrics & ttft & _ & _ & Hframes & _).
  - vm_compute. reflexivity.
  - repeat constructor.
  - reflexivity.
  - reflexivity.
  - exact Hframes.
Defined.

Lemma chat_turn_cache_round_trip_witness :
  frames (Proxy.handleWebSocketRequest
            (Proxy.handleWebSocketRequest (handler true Store.empty_tables)
               (open_turn streamed) chat_message).1.2
            (open_turn refused) chat_message).2
  = [joined (chunks streamed)].
Proof.
  destruct (@chat_turn_cache_round_trip FlatJson.object FlatJson.json
              (handler true Store.empty_tables) (open_turn streamed) chat_message
              Store.empty_tables (open_turn refused))
    as (t & Hturn & _).
  - vm_compute. reflexivity.
  - repeat constructor.
  - reflexivity.
  - reflexivity.
  - reflexivity.
  - vm_compute. discriminate.
  - reflexivity.
  - apply runs_reliable.
  - apply runs_reliable.
  - rewrite Hturn. vm_compute. reflexivity.
Defined.

(** ** The extractor *)

Section ExtractorExtras.
Context {rvalue : Type} `{Json rvalue}.
Import Proxy Spec.

Lemma list_ascii_of_string_app (a b : string) :
  list_ascii_of_string (a +:+ b) = list_ascii_of_string a ++ list_ascii_of_string b.
Proof.
  induction a as [|c a IH]; [done|].
  change (c :: list_ascii_of_string (a +:+ b)
          = c :: (list_ascii_of_string a ++ list_ascii_of_string b)).
  by rewrite IH.
Qed.

Lemma objects_app_nl (a b : string) :
  objects (a +:+ String cpp.nl b) = objects b ++ objects a.
Proof.
  unfold objects. rewrite list_ascii_of_string_app.
  change (list_ascii_of_string (String cpp.nl b))
    with (cpp.nl :: list_ascii_of_string b).
  by rewrite lines_app_nl, reverse_app, omap_app.
Qed.

(** X16. The extractor takes the summary from the text after the last
    newline when a line there ends the scan, and otherwise gives what
    it gives on the text before that newline: lines after the summary
    that do not end the scan, and everything before the summary line,
    have no effect.  In particular a trailing newline changes nothing. *)
Theorem extractMetrics_last_summary_wins (a b : string) :
  extractMetrics (a +:+ String cpp.nl b)
  = (if existsb stops (objects b) then extractMetrics b else extractMetrics a) ∧
  extractMetrics (a +:+ String cpp.nl "") = extractMetrics a.
Proof.
  assert (Hgen : ∀ b', extractMetrics (a +:+ String cpp.nl b')
            = if existsb stops (objects b') then extractMetrics b' else extractMetrics a).
  { intros b'. rewrite !extractMetrics_amended. unfold amended_extract.
    rewrite objects_app_nl.
    destruct (list_find (λ j, stops j = true) (objects b')) as [[i j]|] eqn:Hf.
    - rewrite (list_find_app_l _ _ _ _ _ Hf).
      apply list_find_Some in Hf as (Hj%list_elem_of_lookup_2 & Hs & _).
      assert (existsb stops (objects b') = true) as ->; [|done].
      apply existsb_exists. exists j. split; [|done]. by apply list_elem_of_In.
    - rewrite (list_find_app_r _ _ _ Hf).
      assert (existsb stops (objects b') = false) as ->.
      { apply not_true_is_false. intros (j & Hj%list_elem_of_In & Hs)%existsb_exists.
        rewrite list_find_None, Forall_forall in Hf. by apply (Hf j). }
      by destruct (list_find _ (objects a)) as [[i j]|]. }
  split; [apply Hgen|]. by rewrite Hgen.
Qed.

End ExtractorExtras.

(** ** The configuration getters *)

Section ConfigExtras.
Import Getters.

(** X18. Whatever the environment holds, [getPort] returns a valid TCP
    port (1 to 65535); when it is not the default 8888 it is the number
    [std::stoi] reads from SECTORFLUX_PORT; an unset and an empty
    variable both give the default; and no other variable has any
    influence. *)
Theorem getPort_is_valid_port (environ : gmap string string) :
  0 < getPort environ ≤ 65535 ∧
  (getPort environ = Config.kDefaultPort
   ∨ stoi (safeGetenv environ "SECTORFLUX_PORT") = Some (getPort environ)) ∧
  getPort (delete "SECTORFLUX_PORT" environ) = Config.kDefaultPort ∧
  getPort (<["SECTORFLUX_PORT" := ""]> environ) = Config.kDefaultPort ∧
  (∀ name value, name ≠ "SECTORFLUX_PORT" →
                 getPort (<[name := value]> environ) = getPort environ).
Proof.
  split; [|split; [|split; [|split]]].
  - unfold getPort. destruct (negb _); [|done].
    destruct (stoi _) as [port|]; [|done].
    destruct (Z.ltb_spec 0 port), (Z.leb_spec port 65535); simpl;
      unfold Config.kDefaultPort; lia.
  - unfold getPort. destruct (negb _); [|by left].
    destruct (stoi _) as [port|]; [|by left].
    destruct ((0 <? port) && (port <=? 65535)); [by right | by left].
  - unfold getPort, safeGetenv. by rewrite lookup_delete_eq.
  - unfold getPort, safeGetenv. by rewrite lookup_insert_eq.
  - intros name value Hne. unfold getPort, safeGetenv.
    by rewrite lookup_insert_ne.
Qed.

(** X19. [getOllamaHost] and [getDatabasePath] never return an empty
    string: each returns its variable when that is set and not empty,
    and its default otherwise, an empty variable counting as unset. *)
Theorem getters_never_empty (environ : gmap string string) :
  getOllamaHost environ ≠ "" ∧ getDatabasePath environ ≠ "" ∧
  (∀ value, value ≠ "" →
     getOllamaHost (<["OLLAMA_HOST" := value]> environ) = value ∧
     getDatabasePath (<["SECTORFLUX_DB" := value]> environ) = value) ∧
  getOllamaHost (<["OLLAMA_HOST" := ""]> environ)
  = getOllamaHost (delete "OLLAMA_HOST" environ) ∧
  getDatabasePath (<["SECTORFLUX_DB" := ""]> environ)
  = getDatabasePath (delete "SECTORFLUX_DB" environ).
Proof.
  split; [|split; [|split; [|split]]].
  - unfold getOllamaHost.
    destruct (String.eqb_spec (safeGetenv environ "OLLAMA_HOST") ""); simpl; done.
  - unfold getDatabasePath.
    destruct (String.eqb_spec (safeGetenv environ "SECTORFLUX_DB") ""); simpl; done.
  - intros value Hne. unfold getOllamaHost, getDatabasePath, safeGetenv.
    rewrite !lookup_insert_eq. simpl.
    apply String.eqb_neq in Hne. by rewrite Hne.
  - unfold getOllamaHost, safeGetenv. by rewrite lookup_insert_eq, lookup_delete_eq.
  - unfold getDatabasePath, safeGetenv. by rewrite lookup_insert_eq, lookup_delete_eq.
Qed.

End ConfigExtras.

(** ** The administrative routes *)

Section RouteExtras.
Context {rvalue : Type} `{Json rvalue} (to_string : Error → string).
Import Proxy Routes.

Lemma replay_skips_cache h body :
  skip_cache h {| req_body := body;
                  req_headers := [("X-SectorFlux-No-Cache", "true")] |} = true.
Proof. unfold skip_cache. apply orb_true_iff. by right. Qed.

(** X20. The replay route answers 404 without calling anything when
    [getLog] finds no entry.  Otherwise it never consults the cache,
    whatever the cache switch says: it issues exactly one POST, to the
    endpoint stored in the entry and with the stored request body, ends
    the response with X-SectorFlux-Cache: MISS, and submits one new log
    entry for the replayed call. *)
Theorem replay_forwards_stored_request h sql_log w res id :
  match Store.getLog sql_log id (db_ h) with
  | None =>
    replay to_string h sql_log w res id
    = ({| res_code := 404; res_body := "Log entry not found";
          res_headers := res_headers res; res_ended := true |}, h, [])
  | Some log =>
    lookups (replay to_string h sql_log w res id).2 = [] ∧
    posts (replay to_string h sql_log w res id).2
    = [(Store.endpoint log, Store.request_body log)] ∧
    last (res_headers (replay to_string h sql_log w res id).1.1)
    = Some ("X-SectorFlux-Cache", "MISS") ∧
    res_ended (replay to_string h sql_log w res id).1.1 = true ∧
    ∃ t, submitted (replay to_string h sql_log w res id).2 = [t] ∧
         Store.write_queue_ (db_ (replay to_string h sql_log w res id).1.2)
         = Store.write_queue_ (db_ h) ++ [t]
  end.
Proof.
  unfold replay. destruct (Store.getLog sql_log id (db_ h)) as [log|]; [|done].
  set (replay_req := {| req_body := Store.request_body log;
                        req_headers := [("X-SectorFlux-No-Cache", "true")] |}).
  pose proof (replay_skips_cache h (Store.request_body log)) as Hskip.
  fold replay_req in Hskip.
  assert (Hmiss : cached_response h w replay_req = None)
    by (unfold cached_response; by rewrite Hskip).
  destruct (handleRequest_shape to_string h w replay_req res (Store.endpoint log))
    as (Hend & Hlast & Hposts & Hlook & _).
  destruct (handleRequest_submitted to_string h w replay_req res (Store.endpoint log))
    as (t & Hsub & Hq & _).
  rewrite Hmiss in Hlast, Hposts. rewrite Hskip in Hlook.
  repeat split; try done. by exists t.
Qed.

(** X21. POST /api/config/cache never touches the database and either
    leaves the handler as it was (a body that is no JSON, has no
    [enabled] member, or whose [enabled] is no boolean) or sets the
    switch to the boolean given; GET then reports that boolean, and the
    next [handleRequest] looks the request body up exactly when the
    switch is on and the request does not carry the bypass header. *)
Theorem cache_switch_takes_effect h body :
  db_ (post_cache_config h body).2 = db_ h ∧
  (((post_cache_config h body).2 = h ∧
    (post_cache_config h body).1 ≠ Text 200 "Cache configuration updated")
   ∨ ∃ json enabled,
       load body = Some json ∧ get_b json "enabled" = Some enabled ∧
       post_cache_config h body
       = (Text 200 "Cache configuration updated", setCacheEnabled enabled h) ∧
       get_cache_config (post_cache_config h body).2
       = JsonReply [("enabled", WBool enabled)] ∧
       ∀ w req res target,
         lookups (handleRequest to_string (post_cache_config h body).2
                    w req res target).2
         = if enabled
              && negb (String.eqb (get_header_value req "X-SectorFlux-No-Cache")
                         "true")
           then [req_body req] else []).
Proof.
  unfold post_cache_config. destruct (load body) as [json|]; [|split; [done|by left]].
  destruct (has json "enabled"); [|split; [done|by left]].
  destruct (get_b json "enabled") as [enabled|] eqn:Hb; [|split; [done|by left]].
  split; [done|]. right. exists json, enabled. simpl.
  split; [done|]. split; [done|]. split; [done|]. split; [done|].
  intros w req res target.
  destruct (handleRequest_shape to_string (setCacheEnabled enabled h) w req res target)
    as (_ & _ & _ & -> & _).
  unfold skip_cache. simpl.
  by destruct enabled, (String.eqb _ "true").
Qed.

(** X22. PUT /api/logs/<id>/starred changes the database only on the
    reply that reports success, which echoes the id and the flag given
    and is sent exactly when the body is an object with a boolean
    [starred] and [setStarred] reports no error, whether or not a row
    has that id; every other reply (400, 500, or an exception) leaves
    the database as it was. *)
Theorem put_starred_reply env d body id :
  (∀ json_response,
     (put_starred env d body id).1 = JsonReply json_response ↔
     ∃ json is_starred,
       load body = Some json ∧ has json "starred" = true ∧
       get_b json "starred" = Some is_starred ∧
       (Store.setStarred env id is_starred d).1 = None ∧
       json_response = [("id", WInt id); ("is_starred", WBool is_starred)]) ∧
  ((∀ json_response, (put_starred env d body id).1 ≠ JsonReply json_response) →
   (put_starred env d body id).2 = d) ∧
  (∀ json is_starred,
     load body = Some json → has json "starred" = true →
     get_b json "starred" = Some is_starred →
     (put_starred env d body id).2 = (Store.setStarred env id is_starred d).2).
Proof.
  unfold put_starred. split; [|split].
  - intros js0. destruct (load body) as [json|];
      [|split; [done | by intros (? & ? & ? & _)]].
    destruct (has json "starred") eqn:Hhas;
      [|split; [done | intros (? & ? & [= <-] & ? & _); congruence]].
    destruct (get_b json "starred") as [b|] eqn:Hb;
      [|split; [done | intros (? & ? & [= <-] & _ & ? & _); congruence]].
    destruct (Store.setStarred env id b d) as [[err|] d'] eqn:Hset; simpl.
    + split; [done|]. intros (j' & b' & [= <-] & _ & Hb' & Hnone & _).
      rewrite Hb in Hb'. injection Hb' as <-. by rewrite Hset in Hnone.
    + split.
      * intros [= <-]. exists json, b. by rewrite Hset.
      * intros (j' & b' & [= <-] & _ & Hb' & _ & ->).
        rewrite Hb in Hb'. by injection Hb' as <-.
  - intros Hno. destruct (load body) as [json|]; [|done].
    destruct (has json "starred"); [|done].
    destruct (get_b json "starred") as [b|]; [|done].
    destruct (Store.setStarred env id b d) as [[err|] d'] eqn:Hset; simpl.
    + revert Hset. unfold Store.setStarred.
      destruct (Store.db_ d); [|by intros [= _ <-]].
      destruct (Store.prepare_ok env 0); [|by intros [= _ <-]].
      destruct (Store.step_ok env 0); [done | by intros [= _ <-]].
    + exfalso. by eapply Hno.
  - intros json b -> -> ->.
    by destruct (Store.setStarred env id b d) as [[err|] d'].
Qed.

End RouteExtras.

(** ** The chat route *)

Section ChatRouteExtras.
Import Main.

Lemma onopen_states_apart conn r : states_apart r → states_apart (onopen conn r).
Proof.
  intros [Hflag Hinj]. unfold onopen.
  set (state := fresh (dom (active r))).
  assert (Hfresh : active r !! state = None).
  { apply not_elem_of_dom. apply is_fresh. }
  split; simpl.
  - intros c s. destruct (decide (c = conn)) as [->|Hc].
    + rewrite lookup_insert_eq. intros [= <-]. by rewrite lookup_insert_eq.
    + rewrite lookup_insert_ne by done. intros Hs.
      destruct (decide (s = state)) as [->|Hne].
      * by rewrite lookup_insert_eq.
      * rewrite lookup_insert_ne by done. by eapply Hflag.
  - intros c1 c2 s.
    destruct (decide (c1 = conn)) as [->|H1], (decide (c2 = conn)) as [->|H2];
      rewrite ?lookup_insert_eq, ?lookup_insert_ne by done; try done.
    + intros [= <-] Hs. apply Hflag in Hs as [? Hs]. congruence.
    + intros Hs [= <-]. apply Hflag in Hs as [? Hs]. congruence.
    + apply Hinj.
Qed.

Lemma onclose_states_apart conn r : states_apart r → states_apart (onclose conn r).
Proof.
  intros [Hflag Hinj]. unfold onclose.
  destruct (g_connections r !! conn) as [state|] eqn:Hc; [|done].
  split; simpl.
  - intros c s. destruct (decide (c = conn)) as [->|Hne].
    + by rewrite lookup_delete_eq.
    + rewrite lookup_delete_ne by done. intros Hs.
      destruct (decide (s = state)) as [->|Hs'].
      * by rewrite lookup_insert_eq.
      * rewrite lookup_insert_ne by done. by eapply Hflag.
  - intros c1 c2 s.
    destruct (decide (c1 = conn)) as [->|H1]; [by rewrite lookup_delete_eq|].
    destruct (decide (c2 = conn)) as [->|H2]; [by rewrite lookup_delete_eq|].
    rewrite !lookup_delete_ne by done. apply Hinj.
Qed.

Lemma onmessage_states_apart conn is_binary r :
  states_apart r → states_apart (onmessage conn is_binary r).1.
Proof.
  intros [Hflag Hinj]. unfold onmessage. destruct is_binary; [done|].
  destruct (g_connections r !! conn) as [state|] eqn:Hc; [|done].
  split; simpl; [|exact Hinj].
  intros c s Hs. destruct (decide (s = state)) as [->|Hne].
  - by rewrite lookup_insert_eq.
  - rewrite lookup_insert_ne by done. by eapply Hflag.
Qed.

Lemma notified_states_apart (events : list ChatEvent) : ∀ r,
  states_apart r → states_apart (foldl notify r events).
Proof.
  induction events as [|e events IH]; intros r Hr; [done|].
  simpl. apply IH. destruct e; simpl.
  - by apply onopen_states_apart.
  - by apply onclose_states_apart.
  - by apply onmessage_states_apart.
Qed.

(** X23. Chat sessions are kept apart.  After any run of opens, closes
    and messages, starting with no connection, every connection has a
    state object of its own; so closing one connection, or a message on
    it, leaves the [active] flag and the map entry of every other
    connection as they were: only the worker of the connection that
    closed is told to stop. *)
Theorem chat_sessions_are_kept_apart (events : list ChatEvent)
    (conn other state : nat) (is_binary : bool) :
  conn ≠ other →
  g_connections (foldl notify no_connections events) !! other = Some state →
  states_apart (foldl notify no_connections events) ∧
  active (onclose conn (foldl notify no_connections events)) !! state
  = active (foldl notify no_connections events) !! state ∧
  g_connections (onclose conn (foldl notify no_connections events)) !! other
  = Some state ∧
  active (onmessage conn is_binary (foldl notify no_connections events)).1 !! state
  = active (foldl notify no_connections events) !! state ∧
  g_connections (onmessage conn is_binary (foldl notify no_connections events)).1
    !! other = Some state.
Proof.
  intros Hne Hother.
  assert (Hr : states_apart (foldl notify no_connections events)).
  { apply notified_states_apart. split; simpl; intros *; by rewrite lookup_empty. }
  set (r := foldl notify no_connections events) in *.
  split; [exact Hr|]. destruct Hr as [Hflag Hinj].
  unfold onclose, onmessage.
  destruct (g_connections r !! conn) as [s|] eqn:Hc.
  - assert (s ≠ state) by (intros ->; by apply Hne, (Hinj conn other state)).
    simpl. rewrite lookup_insert_ne by done.
    rewrite lookup_delete_ne by done.
    split; [done|]. split; [done|].
    destruct is_binary; simpl; [done|]. by rewrite lookup_insert_ne.
  - by destruct is_binary.
Qed.

Lemma chat_sessions_are_kept_apart_witness :
  active (onclose 1 (foldl notify no_connections [Opened 1; Opened 2])) !! 1%nat
  = Some true.
Proof.
  destruct (chat_sessions_are_kept_apart [Opened 1; Opened 2] 1 2 1 false)
    as (_ & Hflag & _).
  - lia.
  - vm_compute. reflexivity.
  - rewrite Hflag. vm_compute. reflexivity.
Defined.

End ChatRouteExtras.

(** ** From the write queue to the history *)

Section HistoryExtras.
Import Store.

Lemma foldr_max_le (z : Z) (l : list Z) :
  Forall (λ x, x ≤ z) l → foldr Z.max z l = z.
Proof. induction 1 as [|x l Hx _ IH]; simpl; [done|]. rewrite IH. lia. Qed.

(** After a running insert the next id is one more. *)
Lemma next_id_after_insert env t tb :
  next_id (delete_older kMaxHistoryEntries (insert_request env t tb))
  = next_id tb + 1.
Proof.
  unfold next_id at 1. cbn [delete_older sqlite_sequence requests].
  assert (sqlite_sequence (insert_request env t tb) = next_id tb) as ->
    by (by destruct t).
  rewrite foldr_max_le; [lia|].
  apply Forall_fmap, Forall_forall. intros r [_ Hr]%list_elem_of_filter.
  rewrite insert_request_rows in Hr.
  apply elem_of_app in Hr as [Hr|Hr%list_elem_of_singleton].
  - pose proof (id_below_next_id tb r Hr). simpl. lia.
  - subst r. simpl. lia.
Qed.

(** One round of the writer whose two statements run. *)
Lemma processWriteQueue_runs env t q tb :
  runs env 0 → runs env 1 →
  processWriteQueue env {| db_ := Some tb; write_queue_ := t :: q |}
  = {| db_ := Some (delete_older kMaxHistoryEntries (insert_request env t tb));
       write_queue_ := q |}.
Proof.
  intros H0 H1. rewrite processWriteQueue_step.
  by rewrite (logInteractionSync_runs env t
                {| db_ := Some tb; write_queue_ := [] |} tb eq_refl H0 H1).
Qed.

(** X24. Draining the write queue with an engine that runs both
    statements each time leaves, for a table of at most 100 rows in
    ascending id order, the last 100 of the old rows followed by one
    row per drained task, in submission order, under consecutive ids
    from the next id on, each holding its task's arguments (text up to
    the first NUL byte) and the time of its insert; the table is again
    in ascending id order with at most 100 rows, and the tasks not yet
    drained stay queued in order. *)
Theorem drained_queue_fills_history (envs : list Engine) : ∀ d tb,
  db_ d = Some tb →
  StronglySorted by_id_asc (requests tb) →
  (length (requests tb) ≤ 100)%nat →
  Forall (λ env, runs env 0 ∧ runs env 1) envs →
  (length envs ≤ length (write_queue_ d))%nat →
  ∃ tb',
    db_ (drain envs d) = Some tb' ∧
    write_queue_ (drain envs d) = drop (length envs) (write_queue_ d) ∧
    requests tb'
    = drop (length (requests tb) + length envs - 100)
        (requests tb ++ stored_rows (next_id tb) (zip envs (write_queue_ d))) ∧
    StronglySorted by_id_asc (requests tb') ∧
    (length (requests tb') ≤ 100)%nat.
Proof.
  induction envs as [|env envs IH]; intros [tables q] tb Hdb Hs Hbound Hall Hlen;
    simpl in Hdb; subst tables.
  { exists tb. simpl. rewrite app_nil_r, Nat.add_0_r.
    by replace (length (requests tb) - 100)%nat with 0%nat by lia. }
  destruct q as [|t q]; [simpl in Hlen; lia|].
  apply Forall_cons in Hall as [[H0 H1] Hall].
  unfold drain in *. cbn [foldl]. rewrite (processWriteQueue_runs env t q tb H0 H1).
  set (tb1 := delete_older kMaxHistoryEntries (insert_request env t tb)).
  pose proof (insert_request_sorted env t tb Hs) as Hs1.
  pose proof (delete_older_sorted 100 _ Hs1) as Hrows.
  change (Z.of_nat 100) with kMaxHistoryEntries in Hrows. fold tb1 in Hrows.
  rewrite insert_request_rows in Hrows, Hs1.
  set (row := stored_row env t (next_id tb)) in *.
  assert (Hsorted1 : StronglySorted by_id_asc (requests tb1)).
  { rewrite Hrows.
    rewrite <- (take_drop (length (requests tb ++ [row]) - 100)
                  (requests tb ++ [row])) in Hs1.
    by apply StronglySorted_app_1_r in Hs1. }
  assert (Hlen1 : length (requests tb ++ [row]) = S (length (requests tb)))
    by (rewrite length_app; simpl; lia).
  assert (Hbound1 : (length (requests tb1) ≤ 100)%nat)
    by (rewrite Hrows, length_drop; lia).
  destruct (IH {| db_ := Some tb1; write_queue_ := q |} tb1 eq_refl
              Hsorted1 Hbound1 Hall) as (tb' & Hdb' & Hq' & Hr' & Hs' & Hb').
  { simpl in *. lia. }
  exists tb'. split; [exact Hdb'|]. split; [exact Hq'|].
  split; [|split; [exact Hs' | exact Hb']].
  assert (Hnext : next_id tb1 = next_id tb + 1) by apply next_id_after_insert.
  rewrite Hr', Hnext, Hrows. cbn [write_queue_ length zip zip_with stored_rows].
  fold row.
  rewrite <- drop_app_le by (rewrite Hlen1; lia).
  rewrite drop_drop, <- app_assoc. cbn [app].
  f_equal. rewrite length_drop, Hlen1. lia.
Qed.

Lemma drained_queue_fills_history_witness :
  ∃ tb',
    db_ (drain [reliable "now"; reliable "then"]
           {| db_ := Some full_tables;
              write_queue_ := [sample_task 41; sample_task 42; sample_task 43] |})
    = Some tb' ∧
    drop 98 (requests tb')
    = [stored_row (reliable "now") (sample_task 41) 101;
       stored_row (reliable "then") (sample_task 42) 102].
Proof.
  destruct (drained_queue_fills_history [reliable "now"; reliable "then"]
              {| db_ := Some full_tables;
                 write_queue_ := [sample_task 41; sample_task 42; sample_task 43] |}
              full_tables eq_refl)
    as (tb' & Hdb & _ & Hrows & _).
  - apply full_tables_sorted.
  - vm_compute. lia.
  - repeat constructor.
  - simpl. lia.
  - exists tb'. split; [exact Hdb|]. rewrite Hrows. vm_compute. reflexivity.
Defined.

End HistoryExtras.

(** ** From the handler to the dashboard *)

Section LoggedCallExtras.
Context {rvalue : Type} `{Json rvalue} (to_string : Error → string).
Import Proxy.

(** X25. [cacheResponse] never touches the history: whether it runs or
    fails, the handle stays open, and the rows of [requests], the
    AUTOINCREMENT counter and the write queue are as before; it reports
    an error exactly when the handle is null or the statement does not
    prepare or step, and then changes nothing at all. *)
Theorem cacheResponse_leaves_history env k s b d :
  Store.write_queue_ (Store.cacheResponse env k s b d).2 = Store.write_queue_ d ∧
  Store.requests <$> Store.db_ (Store.cacheResponse env k s b d).2
  = Store.requests <$> Store.db_ d ∧
  Store.sqlite_sequence <$> Store.db_ (Store.cacheResponse env k s b d).2
  = Store.sqlite_sequence <$> Store.db_ d ∧
  ((Store.cacheResponse env k s b d).1 ≠ None ↔
   Store.db_ d = None ∨ Store.prepare_ok env 0 = false ∨ Store.step_ok env 0 = false) ∧
  ((Store.cacheResponse env k s b d).1 ≠ None → (Store.cacheResponse env k s b d).2 = d).
Proof.
  split; [apply cacheResponse_queue|].
  unfold Store.cacheResponse. destruct (Store.db_ d) as [tb|] eqn:Hdb.
  - destruct (Store.prepare_ok env 0) eqn:Hp; simpl.
    + destruct (Store.step_ok env 0) eqn:Hs; simpl.
      * split; [done|]. split; [done|].
        split; [split; [done | intros [?|[?|?]]; done] | done].
      * rewrite Hdb. split; [done|]. split; [done|].
        split; [split; [auto | done] | done].
    + rewrite Hdb. split; [done|]. split; [done|].
      split; [split; [auto | done] | done].
  - simpl. rewrite Hdb. split; [done|]. split; [done|].
    split; [split; [auto | done] | done].
Qed.

Lemma cacheResponse_history env k s b d tb :
  Store.db_ d = Some tb →
  ∃ tb1, Store.db_ (Store.cacheResponse env k s b d).2 = Some tb1 ∧
         Store.requests tb1 = Store.requests tb ∧
         Store.sqlite_sequence tb1 = Store.sqlite_sequence tb.
Proof.
  intros Hdb. unfold Store.cacheResponse. rewrite Hdb.
  destruct (Store.prepare_ok env 0), (Store.step_ok env 0); simpl; by eauto.
Qed.

(** The log entry of a call and the store it is queued in. *)
Lemma handleRequest_logged h w req res target tb :
  Store.db_ (db_ h) = Some tb →
  ∃ t tb1,
    db_ (handleRequest to_string h w req res target).1.2
    = {| Store.db_ := Some tb1;
         Store.write_queue_ := Store.write_queue_ (db_ h) ++ [t] |} ∧
    Store.requests tb1 = Store.requests tb ∧
    Store.sqlite_sequence tb1 = Store.sqlite_sequence tb ∧
    task_method t = "POST" ∧
    task_endpoint t = target ∧
    task_request_body t = req_body req ∧
    Store.task_status t = res_code (handleRequest to_string h w req res target).1.1 ∧
    Store.task_duration_ms t
    = match cached_response h w req with
      | Some _ => 0
      | None => milliseconds (end_time w - start_time w)
      end.
Proof.
  intros Hdb. unfold handleRequest.
  destruct (cached_response h w req) as [cached|].
  { eexists _, tb. simpl. unfold Store.logInteractionAsync. rewrite Hdb. done. }
  unfold send. rewrite deliver_http.
  destruct (http_received _ _ _) as [[ttft acc] body].
  destruct (outcome (upstream w)) as [err|status]; simpl.
  { eexists _, tb. unfold Store.logInteractionAsync. rewrite Hdb. done. }
  destruct ((status =? 200) && _); simpl.
  - destruct (cacheResponse_history (sql_store w) (req_body req) status acc (db_ h) tb Hdb)
      as (tb1 & Hdb1 & Hrows & Hseq).
    eexists _, tb1. unfold Store.logInteractionAsync.
    rewrite Hdb1, cacheResponse_queue. done.
  - eexists _, tb. unfold Store.logInteractionAsync. rewrite Hdb. done.
Qed.

(** X26. What the client was answered is what the dashboard reads.
    When a call of [handleRequest] finds the write queue empty, the
    next row id is a value of an [int], and the writer then runs one
    round in which both statements run, [getLog] under that id returns
    an entry with that id, method POST, the endpoint and the request
    body of the call (each up to its first NUL byte), the status given
    to the client, a duration of 0 for a cache hit and of the elapsed
    milliseconds otherwise, and [is_starred = false]; the queue is
    empty again. *)
Theorem served_call_is_logged h w req res target env env' tb :
  Store.db_ (db_ h) = Some tb →
  Store.write_queue_ (db_ h) = [] →
  NoDup (Store.id <$> Store.requests tb) →
  fits_int (Store.next_id tb) →
  runs env 0 → runs env 1 → runs env' 0 →
  ∃ entry,
    Store.getLog env' (Store.next_id tb)
      (Store.processWriteQueue env
         (db_ (handleRequest to_string h w req res target).1.2))
    = Some entry ∧
    Store.write_queue_
      (Store.processWriteQueue env
         (db_ (handleRequest to_string h w req res target).1.2)) = [] ∧
    Store.id entry = Store.next_id tb ∧
    Store.method entry = "POST" ∧
    Store.endpoint entry = c_str target ∧
    Store.request_body entry = c_str (req_body req) ∧
    Store.response_status entry
    = to_int (res_code (handleRequest to_string h w req res target).1.1) ∧
    Store.duration_ms entry
    = match cached_response h w req with
      | Some _ => 0
      | None => milliseconds (end_time w - start_time w)
      end ∧
    Store.is_starred entry = false.
Proof.
  intros Hdb Hq Hnd Hfit H0 H1 Hread.
  destruct (handleRequest_logged h w req res target tb Hdb)
    as (t & tb1 & -> & Hrows & Hseq & Hm & He & Hrq & Hstatus & Hdur).
  rewrite Hq. cbn [app].
  rewrite (processWriteQueue_runs env t [] tb1 H0 H1).
  assert (Hnext : Store.next_id tb1 = Store.next_id tb)
    by (unfold Store.next_id; by rewrite Hrows, Hseq).
  rewrite <- Hrows in Hnd.
  pose proof (getLog_after_insert env env' t tb1 [] Hnd Hread) as Hget.
  rewrite Hnext in Hget.
  rewrite (read_stored_row env t (Store.next_id tb) Hfit) in Hget.
  exists (logged_entry env t (Store.next_id tb)).
  split; [exact Hget|]. split; [done|].
  unfold logged_entry. simpl. rewrite Hm, He, Hrq, Hstatus, Hdur. done.
Qed.

End LoggedCallExtras.

Lemma served_call_is_logged_witness :
  ∃ entry,
    Store.getLog (Store.reliable "") 101
      (Store.processWriteQueue (Store.reliable "now")
         (Proxy.db_ (Proxy.handleRequest httplib_to_string (handler true full_tables)
                       (slow_call two_chunks) generate_request fresh_response
                       "/api/generate").1.2))
    = Some entry ∧
    Store.id entry = 101 ∧
    Store.response_status entry = 200 ∧ Store.duration_ms entry = 1000.
Proof.
  destruct (@served_call_is_logged FlatJson.object FlatJson.json httplib_to_string
              (handler true full_tables) (slow_call two_chunks) generate_request
              fresh_response "/api/generate" (Store.reliable "now")
              (Store.reliable "") full_tables eq_refl eq_refl)
    as (entry & Hget & _ & Hid & _ & _ & _ & Hst & Hd & _).
  - apply (bool_decide_unpack _). vm_compute. exact I.
  - vm_compute. split; [discriminate | reflexivity].
  - apply runs_reliable.
  - apply runs_reliable.
  - apply runs_reliable.
  - exists entry. split; [exact Hget|]. split; [|split].
    + rewrite Hid. vm_compute. reflexivity.
    + rewrite Hst. vm_compute. reflexivity.
    + rewrite Hd. vm_compute. reflexivity.
Defined.

(** ** The life of a chat connection *)

Section ConnectionExtras.
Import Main.

(** X27. A worker is started only for a text message on a connection
    that is open: a binary message, and a message on a connection that
    is not in the map, start none and change nothing; after [onclose]
    the connection is not in the map, so a later message on it starts
    no worker; and the first text message after [onopen] starts one on
    the state object just made, with its flag raised. *)
Theorem worker_needs_open_connection (conn : nat) (is_binary : bool) (r : ChatRoute) :
  ((onmessage conn is_binary r).2 ≠ None ↔
   is_binary = false ∧ is_Some (g_connections r !! conn)) ∧
  ((onmessage conn is_binary r).2 = None → (onmessage conn is_binary r).1 = r) ∧
  onmessage conn is_binary (onclose conn r) = (onclose conn r, None) ∧
  (∃ state,
     (onmessage conn false (onopen conn r)).2 = Some state ∧
     active r !! state = None ∧
     active (onmessage conn false (onopen conn r)).1 !! state = Some true).
Proof.
  split; [|split; [|split]].
  - unfold onmessage. destruct is_binary; simpl.
    + split; [done | by intros [? _]].
    + destruct (g_connections r !! conn); simpl.
      * split; [by eauto | done].
      * split; [done | by intros [_ [? ?]]].
  - unfold onmessage. destruct is_binary; [done|].
    by destruct (g_connections r !! conn).
  - unfold onmessage. destruct is_binary; [done|].
    assert (g_connections (onclose conn r) !! conn = None) as ->; [|done].
    unfold onclose. destruct (g_connections r !! conn) eqn:Hc; simpl; [|done].
    by rewrite lookup_delete_eq.
  - exists (fresh (dom (active r))). unfold onmessage, onopen. simpl.
    rewrite lookup_insert_eq. simpl. rewrite !lookup_insert_eq.
    split; [done|]. split; [|done].
    apply not_elem_of_dom, is_fresh.
Qed.

End ConnectionExtras.

(** ** Reading the port *)

Section PortExtras.
Import Getters.

Lemma digit_char_digit (d : nat) :
  (d < 10)%nat →
  digit (digit_char d) = Some (Z.of_nat d) ∧
  isspace (digit_char d) = false ∧
  Ascii.eqb (digit_char d) "-" = false ∧
  Ascii.eqb (digit_char d) "+" = false.
Proof.
  intros Hd. do 10 (destruct d as [|d]; [by vm_compute|]). lia.
Qed.

Lemma digits_decimal (ds : list nat) (rest : string) : ∀ acc,
  Forall (λ d, (d < 10)%nat) ds →
  starts_with_digit rest = false →
  digits (decimal ds +:+ rest) acc
  = foldl (λ acc d, 10 * acc + Z.of_nat d) acc ds.
Proof.
  induction ds as [|d ds IH]; intros acc Hds Hrest.
  - change (decimal [] +:+ rest) with rest. simpl.
    destruct rest as [|c rest]; [done|]. simpl in *.
    destruct (digit c); [|done].
    by rewrite bool_decide_eq_true_2 in Hrest by eauto.
  - apply Forall_cons in Hds as [Hd Hds].
    change (decimal (d :: ds) +:+ rest)
      with (String (digit_char d) (decimal ds +:+ rest)).
    cbn [digits foldl].
    destruct (digit_char_digit d Hd) as (-> & _).
    by apply IH.
Qed.

(** X28. A SECTORFLUX_PORT that starts with a decimal number between 1
    and 65535, followed by nothing or by anything that is no digit, is
    the port [getPort] returns, leading white space and leading zeros
    notwithstanding. *)
Theorem getPort_reads_decimal (environ : gmap string string)
    (ds : list nat) (rest : string) :
  ds ≠ [] →
  Forall (λ d, (d < 10)%nat) ds →
  starts_with_digit rest = false →
  0 < denoted ds ≤ 65535 →
  getPort (<["SECTORFLUX_PORT" := decimal ds +:+ rest]> environ) = denoted ds ∧
  getPort (<["SECTORFLUX_PORT" := String " " (decimal ds +:+ rest)]> environ)
  = denoted ds.
Proof.
  intros Hne Hds Hrest Hrange.
  destruct ds as [|d ds]; [done|]. clear Hne.
  pose proof (digits_decimal (d :: ds) rest 0 Hds Hrest) as Hdigits.
  fold (denoted (d :: ds)) in Hdigits.
  pose proof Hds as Hds'. apply Forall_cons in Hds' as [Hd _].
  destruct (digit_char_digit d Hd) as (Hdig & Hsp & Hminus & Hplus).
  assert (Hstoi : stoi (decimal (d :: ds) +:+ rest) = Some (denoted (d :: ds))).
  { unfold stoi.
    change (decimal (d :: ds) +:+ rest)
      with (String (digit_char d) (decimal ds +:+ rest)) in *.
    cbn [skip_spaces]. rewrite Hsp, Hminus, Hplus.
    cbn [starts_with_digit]. rewrite Hdig.
    rewrite bool_decide_eq_true_2 by eauto.
    rewrite Hdigits.
    destruct (Z.leb_spec (- 2 ^ 31) (denoted (d :: ds))); [|lia].
    destruct (Z.ltb_spec (denoted (d :: ds)) (2 ^ 31)); [done | lia]. }
  assert (Hstoi' : stoi (String " " (decimal (d :: ds) +:+ rest))
                   = Some (denoted (d :: ds))).
  { rewrite <- Hstoi. unfold stoi. reflexivity. }
  assert (Hok : (0 <? denoted (d :: ds)) && (denoted (d :: ds) <=? 65535) = true).
  { apply andb_true_iff. split; [apply Z.ltb_lt | apply Z.leb_le]; lia. }
  assert (Hset : String.eqb (decimal (d :: ds) +:+ rest) "" = false) by reflexivity.
  assert (Hset' : String.eqb (String " " (decimal (d :: ds) +:+ rest)) "" = false)
    by reflexivity.
  split.
  - unfold getPort, safeGetenv. rewrite lookup_insert_eq. cbn [default from_option id].
    rewrite Hset, Hstoi. cbn [negb]. by rewrite Hok.
  - unfold getPort, safeGetenv. rewrite lookup_insert_eq. cbn [default from_option id].
    rewrite Hset', Hstoi'. cbn [negb]. by rewrite Hok.
Qed.

Lemma getPort_reads_decimal_witness :
  getPort (<["SECTORFLUX_PORT" := "08080/tcp"]> ∅) = 8080.
Proof.
  destruct (getPort_reads_decimal ∅ [0; 8; 0; 8; 0]%nat "/tcp") as [Hport _].
  - discriminate.
  - repeat constructor; lia.
  - reflexivity.
  - vm_compute. split; [reflexivity | discriminate].
  - exact Hport.
Defined.

End PortExtras.

(** ** Trimming a line *)

Section TrimExtras.
Context {rvalue : Type} `{Json rvalue}.
Import Proxy.

Lemma list_find_padded (before core after : list ascii) (c : ascii) :
  Forall (λ x, x ∈ cpp.whitespace) before →
  head core = Some c → c ∉ cpp.whitespace →
  list_find (λ x, x ∉ cpp.whitespace) (before ++ core ++ after)
  = Some (length before, c).
Proof.
  intros Hb Hc Hnot.
  destruct core as [|c0 core]; [done|]. injection Hc as ->.
  rewrite list_find_app_r.
  - cbn [app list_find]. rewrite decide_True by done. done.
  - apply list_find_None. eapply Forall_impl; [exact Hb|]. naive_solver.
Qed.

(** X29. What [extractMetrics] does to a line before it looks at it:
    white space (blank, tab, carriage return, newline) before the first
    and after the last other character is removed, and nothing else; a
    line of white space only is left as it is.  So a JSON object that
    is padded, or that ends in a carriage return, is read as the object
    itself. *)
Theorem trim_strips_padding (before core after : list ascii) (c c' : ascii) :
  Forall (λ x, x ∈ cpp.whitespace) before →
  Forall (λ x, x ∈ cpp.whitespace) after →
  head core = Some c → c ∉ cpp.whitespace →
  last core = Some c' → c' ∉ cpp.whitespace →
  trim (before ++ core ++ after) = core ∧
  trim before = before ∧
  Spec.object_of_line (before ++ core ++ after) = Spec.object_of_line core.
Proof.
  intros Hb Ha Hc Hnot Hc' Hnot'.
  assert (Hpadded : ∀ b a, Forall (λ x, x ∈ cpp.whitespace) b →
                            Forall (λ x, x ∈ cpp.whitespace) a →
                            trim (b ++ core ++ a) = core).
  { intros b a Hwb Hwa. unfold trim, cpp.find_first_not_of, cpp.find_last_not_of.
    rewrite (list_find_padded b core a c Hwb Hc Hnot).
    rewrite !reverse_app, <- app_assoc.
    rewrite (list_find_padded (reverse a) (reverse core) (reverse b) c');
      [|by apply Forall_reverse|by rewrite head_reverse|done].
    cbn [fmap option_fmap option_map fst].
    rewrite !length_app, length_reverse. unfold cpp.substr.
    rewrite drop_app_length.
    replace (length b + (length core + length a) - 1 - length a - length b + 1)%nat
      with (length core) by (destruct core; [done | simpl; lia]).
    by rewrite take_app_length. }
  split; [by apply Hpadded|]. split.
  - unfold trim, cpp.find_first_not_of.
    assert (list_find (λ x, x ∉ cpp.whitespace) before = None) as ->; [|done].
    apply list_find_None. eapply Forall_impl; [exact Hb|]. naive_solver.
  - pose proof (Hpadded [] [] (Forall_nil_2 _) (Forall_nil_2 _)) as Hself.
    rewrite app_nil_l, app_nil_r in Hself.
    unfold Spec.object_of_line. by rewrite (Hpadded before after Hb Ha), Hself.
Qed.

End TrimExtras.

Lemma trim_strips_padding_witness :
  Proxy.trim (list_ascii_of_string "  {}" ++ ["013"%char])
  = list_ascii_of_string "{}".
Proof.
  destruct (trim_strips_padding (list_ascii_of_string "  ")
              (list_ascii_of_string "{}") ["013"%char] "{" "}") as [Htrim _].
  - apply (bool_decide_unpack _). vm_compute. exact I.
  - apply (bool_decide_unpack _). vm_compute. exact I.
  - reflexivity.
  - apply (bool_decide_unpack _). vm_compute. exact I.
  - reflexivity.
  - apply (bool_decide_unpack _). vm_compute. exact I.
  - exact Htrim.
Defined.
